(** * Runtime filters of the pipeline engine

    A shallow embedding of [be/src/exec/pipeline/runtime_filter_types.h]:
    the publish-once holder, the per-plan-node hub, the reference-counted
    probe collector, the slot-id rewrite of the collector and the merger of
    partial runtime filters, with the properties stated about them.

    The bookkeeping of failed node channels of [be/src/exec/tablet_sink.h]
    ([mark_as_failed], [is_failed_channel], [has_intolerable_failure]) is
    embedded in [TabletSink]. [DescriptorHeap] reads [merge_bloom_filters]
    with the bloom-filter descriptors as objects behind the pointers of
    the list.

    Conventions of the embedding
    - [size_t] and [ssize_t] values are integers of [Z]; arithmetic that can
      leave the 64-bit range is wrapped with [wrap64].
    - a pointer is an [option addr]: [None] is [nullptr].
    - objects that the code mutates through pointers held in several places
      (the expression contexts of the IN-filters) live in an explicit store.
    - a step of the C++ program whose behaviour is undefined (an index or an
      iterator out of range, a null dereference) yields [None]. *)

From Stdlib Require Import ZArith Lia.
From stdpp Require Import base option list gmap.

Local Open Scope Z_scope.

(** ** Shared vocabulary *)

Definition addr := nat.

(** [T*]: [None] is the null pointer. *)
Definition ptr := option addr.

Definition is_null (p : ptr) : bool :=
  match p with None => true | Some _ => false end.

(** [common/status.h] is not part of the sources at hand; a status is either
    OK or an error carrying its code. *)
Inductive Status := OK | NotOK (code : nat).

Definition Status_ok (s : Status) : bool :=
  match s with OK => true | NotOK _ => false end.

(** [StatusOr<T>]: a value, or the error that prevented it. *)
Inductive StatusOr (A : Type) := Value (a : A) | Failed (code : nat).
Arguments Value {A} a.
Arguments Failed {A} code.

Definition two32 : Z := 2 ^ 32.
Definition two64 : Z := 2 ^ 64.
Definition wrap64 (z : Z) : Z := z mod two64.

(** ** RuntimeFilterHolder (lines 91-103) *)

Module Holder.

(** [_collector_ownership] is the owning [unique_ptr], [_collector] the
    atomic raw pointer read by the probe side. *)
Record RuntimeFilterHolder := mkHolder {
  _collector_ownership : ptr;
  _collector : ptr
}.

(** [std::make_unique<RuntimeFilterHolder>()] value-initialises both
    members, so a fresh holder publishes nothing. *)
Definition fresh : RuntimeFilterHolder := mkHolder None None.

Definition set_collector (collector : ptr) (h : RuntimeFilterHolder)
  : RuntimeFilterHolder :=
  let owned := collector in
  mkHolder owned owned.

Definition get_collector (h : RuntimeFilterHolder) : ptr := _collector h.

Definition is_ready (h : RuntimeFilterHolder) : bool :=
  negb (is_null (get_collector h)).

(** The operations of the producer and of the readers on one holder, in
    the order in which they take effect on the atomic pointer. *)
Inductive op := SetCollector (collector : ptr) | GetCollector.

Definition is_set (o : op) : bool :=
  match o with SetCollector _ => true | GetCollector => false end.

(** The values returned by the [get_collector] calls of a history. *)
Fixpoint observations (h : RuntimeFilterHolder) (ops : list op) : list ptr :=
  match ops with
  | [] => []
  | SetCollector c :: ops' => observations (set_collector c h) ops'
  | GetCollector :: ops' => get_collector h :: observations h ops'
  end.

Definition installs (ops : list op) : nat := length (filter is_set ops).

End Holder.

(** ** RuntimeFilterHub (lines 109-147) *)

Module Hub.
Import Holder.

(** [std::unordered_map<TPlanNodeId, RuntimeFilterHolderPtr>]: a plan-node
    id is a 32-bit integer, the holder owned by the map entry is given by
    its state. *)
Record RuntimeFilterHub := mkHub {
  _holders : gmap Z RuntimeFilterHolder
}.

Definition empty_hub : RuntimeFilterHub := mkHub ∅.

(** [emplace] inserts only when the key is absent; the holder made for an
    existing key is destroyed at once. *)
Definition add_holder (id : Z) (hub : RuntimeFilterHub) : RuntimeFilterHub :=
  match _holders hub !! id with
  | Some _ => hub
  | None => mkHub (<[id := fresh]> (_holders hub))
  end.

(** [find] followed by a dereference: undefined for an unknown id. *)
Definition get_holder (id : Z) (hub : RuntimeFilterHub)
  : option RuntimeFilterHolder :=
  _holders hub !! id.

Definition set_collector (id : Z) (collector : ptr) (hub : RuntimeFilterHub)
  : option RuntimeFilterHub :=
  h ← get_holder id hub;
  Some (mkHub (<[id := Holder.set_collector collector h]> (_holders hub))).

(** [ids] is the traversal of the [std::set] argument. *)
Fixpoint gather_holders (ids : list Z) (hub : RuntimeFilterHub)
  : option (list RuntimeFilterHolder) :=
  match ids with
  | [] => Some []
  | id :: ids' =>
      h ← get_holder id hub;
      holders ← gather_holders ids' hub;
      Some (h :: holders)
  end.

End Hub.

(** ** RefCountedRuntimeFilterProbeCollector (lines 156-189) *)

Module RefCounted.

(** The wrapped [RuntimeFilterProbeCollector] belongs to
    [exprs/vectorized/runtime_filter_bank.h]; it is represented by the
    calls it has received, oldest first. *)
Inductive wrapped_call := WrappedPrepare | WrappedOpen | WrappedClose.

Global Instance wrapped_call_eq_dec : EqDecision wrapped_call.
Proof. solve_decision. Defined.

Record RefCountedRuntimeFilterProbeCollector := mkRefCounted {
  _count : Z;
  _num_operators_generated : Z;
  _rf_probe_collector : list wrapped_call
}.

Definition create (num_operators_generated : Z)
  : RefCountedRuntimeFilterProbeCollector :=
  mkRefCounted
    (Z.lor (wrap64 (Z.shiftl num_operators_generated 32))
           num_operators_generated)
    num_operators_generated
    [].

(** [std::atomic<size_t>::fetch_sub]: the value before, the value after. *)
Definition fetch_sub (d : Z) (count : Z) : Z * Z :=
  (count, wrap64 (count - d)).

Definition received (w : wrapped_call)
    (c : RefCountedRuntimeFilterProbeCollector)
  : RefCountedRuntimeFilterProbeCollector :=
  mkRefCounted (_count c) (_num_operators_generated c)
               (_rf_probe_collector c ++ [w]).

Definition with_count (count : Z)
    (c : RefCountedRuntimeFilterProbeCollector)
  : RefCountedRuntimeFilterProbeCollector :=
  mkRefCounted count (_num_operators_generated c) (_rf_probe_collector c).

Section wrapped.
(** What the wrapped collector answers to [prepare] and to [open]. *)
Variable prepare_status open_status : Status.

Definition prepare (c : RefCountedRuntimeFilterProbeCollector)
  : Status * RefCountedRuntimeFilterProbeCollector :=
  let '(before, after) := fetch_sub 1 (_count c) in
  let c := with_count after c in
  if Z.land before 0xffffffff =? _num_operators_generated c then
    let c := received WrappedPrepare c in
    match prepare_status with
    | NotOK e => (NotOK e, c)
    | OK =>
        let c := received WrappedOpen c in
        match open_status with
        | NotOK e => (NotOK e, c)
        | OK => (OK, c)
        end
    end
  else (OK, c).

Definition close (c : RefCountedRuntimeFilterProbeCollector)
  : RefCountedRuntimeFilterProbeCollector :=
  let k := Z.shiftl 1 32 in
  let '(before, after) := fetch_sub k (_count c) in
  let c := with_count after c in
  if before =? k then received WrappedClose c else c.

(** The calls of the sibling operators, in the order of their atomic
    updates of [_count]. *)
Inductive call := Prepare | Close.

Global Instance call_eq_dec : EqDecision call.
Proof. solve_decision. Defined.

Definition step (c : RefCountedRuntimeFilterProbeCollector) (o : call)
  : RefCountedRuntimeFilterProbeCollector :=
  match o with
  | Prepare => snd (prepare c)
  | Close => close c
  end.

Definition run (c : RefCountedRuntimeFilterProbeCollector)
    (calls : list call) : RefCountedRuntimeFilterProbeCollector :=
  foldl step c calls.

End wrapped.

Definition occurrences {A} `{EqDecision A} (x : A) (l : list A) : nat :=
  length (filter (λ y, bool_decide (y = x)) l).

End RefCounted.

(** ** Expression contexts and the store *)

(** [vectorized::ColumnRef]: the column of an ancestor schema. *)
Record ColumnRef := mkColumnRef {
  tuple_id : Z;
  slot_id : Z
}.

(** The root of an IN-filter: an IN-predicate whose child 0 is a column
    reference (the [DCHECK] of line 63), and the set of its keys. *)
Record Predicate := mkPredicate {
  get_child0 : ColumnRef;
  in_set : gset Z
}.

Record ExprContext := mkExprContext {
  root : Predicate
}.

Global Instance ColumnRef_eq_dec : EqDecision ColumnRef.
Proof. solve_decision. Defined.

(** The expression contexts, by address. *)
Definition store := addr → ExprContext.

(** The column that the filter at [a] refers to. *)
Definition column_of (st : store) (a : addr) : ColumnRef :=
  get_child0 (root (st a)).

(** The keys of the filter at [a]. *)
Definition keys_of (st : store) (a : addr) : gset Z :=
  in_set (root (st a)).

(** A store whose contexts all refer to [col] and hold no key. *)
Definition store_of_column (col : ColumnRef) : store :=
  λ _, mkExprContext (mkPredicate col ∅).

Definition store_set (a : addr) (e : ExprContext) (st : store) : store :=
  λ b, if decide (b = a) then e else st b.

(** Modelled from the spec: [Expr::is_bound] ([exprs/expr.h] is not part of
    the sources at hand). An IN-predicate over a single column reference is
    bound to a tuple set when the tuple of that reference is in the set. *)
Definition is_bound (p : Predicate) (tuple_ids : list Z) : bool :=
  bool_decide (tuple_id (get_child0 p) ∈ tuple_ids).

(** ** RuntimeFilterCollector (lines 43-89) *)

Module Collector.

Record TupleSlotMapping := mkMapping {
  from_tuple_id : Z;
  from_slot_id : Z;
  to_tuple_id : Z;
  to_slot_id : Z
}.

(** Bloom-filter descriptors play no part in the rewrite; the collector
    keeps their addresses. *)
Record RuntimeFilterCollector := mkCollector {
  _in_filters : list ptr;
  _bloom_filters : list ptr
}.

Definition get_in_filters (c : RuntimeFilterCollector) : list ptr :=
  _in_filters c.
Definition get_bloom_filters (c : RuntimeFilterCollector) : list ptr :=
  _bloom_filters c.

(** The body of the inner loop (lines 59-69) for one filter. *)
Definition rewrite_in_filter (mapping : TupleSlotMapping) (st : store)
    (in_filter : ptr) : option store :=
  let tuple_ids := [to_tuple_id mapping] in
  a ← in_filter;
  if negb (is_bound (root (st a)) tuple_ids) then Some st
  else
    let column := get_child0 (root (st a)) in
    if slot_id column =? to_slot_id mapping then
      let column := mkColumnRef (tuple_id column) (from_slot_id mapping) in
      let column := mkColumnRef (from_tuple_id mapping) (slot_id column) in
      Some (store_set a
              (mkExprContext (mkPredicate column (in_set (root (st a)))))
              st)
    else Some st.

(** The inner loop over [_in_filters]. *)
Fixpoint rewrite_with_mapping (mapping : TupleSlotMapping)
    (in_filters : list ptr) (st : store) : option store :=
  match in_filters with
  | [] => Some st
  | in_filter :: rest =>
      st' ← rewrite_in_filter mapping st in_filter;
      rewrite_with_mapping mapping rest st'
  end.

(** The outer loop over the mappings; the filters are mutated in the
    store, the collector itself is not changed. *)
Fixpoint rewrite_in_filters (mappings : list TupleSlotMapping)
    (c : RuntimeFilterCollector) (st : store) : option store :=
  match mappings with
  | [] => Some st
  | mapping :: rest =>
      st' ← rewrite_with_mapping mapping (_in_filters c) st;
      rewrite_in_filters rest c st'
  end.

Fixpoint get_in_filters_bounded_by_tuple_ids (tuple_ids : list Z)
    (in_filters : list ptr) (st : store) : option (list ptr) :=
  match in_filters with
  | [] => Some []
  | in_filter :: rest =>
      a ← in_filter;
      selected ← get_in_filters_bounded_by_tuple_ids tuple_ids rest st;
      if is_bound (root (st a)) tuple_ids
      then Some (in_filter :: selected)
      else Some selected
  end.

Definition coordinates_to (m : TupleSlotMapping) : ColumnRef :=
  mkColumnRef (to_tuple_id m) (to_slot_id m).
Definition coordinates_from (m : TupleSlotMapping) : ColumnRef :=
  mkColumnRef (from_tuple_id m) (from_slot_id m).

End Collector.

(** ** RuntimeFilterHub: reading the published collectors (lines 116-128) *)

Module HubCollectors.

(** The collectors that the holders point to, by address. *)
Definition collectors := addr → Collector.RuntimeFilterCollector.

(** Line 117: the holder of an unknown id, and the collector of a holder
    that publishes none, must not be dereferenced. *)
Definition get_bloom_filters (id : Z) (hub : Hub.RuntimeFilterHub)
    (cs : collectors) : option (list ptr) :=
  holder ← Hub.get_holder id hub;
  collector ← Holder.get_collector holder;
  Some (Collector.get_bloom_filters (cs collector)).

(** [ExprContext::close] belongs to [exprs/expr_context.h]; the contexts
    that have been closed are recorded by address, oldest first. The inner
    loop of lines 123-125. *)
Fixpoint close_in_filters (in_filters : list ptr) (closed : list addr)
  : option (list addr) :=
  match in_filters with
  | [] => Some closed
  | in_filter :: rest =>
      a ← in_filter;
      close_in_filters rest (closed ++ [a])
  end.

(** The body of the outer loop (lines 122-126) for one holder. *)
Definition close_holder (cs : collectors) (closed : list addr)
    (holder : Holder.RuntimeFilterHolder) : option (list addr) :=
  match Holder.get_collector holder with
  | Some collector =>
      close_in_filters (Collector.get_in_filters (cs collector)) closed
  | None => Some closed
  end.

Fixpoint close_holders (cs : collectors)
    (holders : list Holder.RuntimeFilterHolder) (closed : list addr)
  : option (list addr) :=
  match holders with
  | [] => Some closed
  | holder :: rest =>
      closed ← close_holder cs closed holder;
      close_holders cs rest closed
  end.

(** The traversal of the [std::unordered_map] is taken in the order of
    [map_to_list]. *)
Definition close_all_in_filters (hub : Hub.RuntimeFilterHub)
    (cs : collectors) : option (list addr) :=
  close_holders cs (snd <$> map_to_list (Hub._holders hub)) [].

End HubCollectors.

(** ** PartialRuntimeFilterMerger (lines 196-338) *)

(** What the merger uses from headers that are not part of the sources at
    hand: [Predicate::merge] of [exprs/predicate.h], which mutates its
    receiver and reports a status, and the bloom-filter helper of
    [exprs/vectorized/runtime_filter_bank.h]. *)
Class Collaborators := {
  PrimitiveType : Type;
  Column : Type;
  JoinRuntimeFilter : Type;
  (** [receiver->merge(other)]: the status, and the receiver afterwards. *)
  Predicate_merge : Predicate → Predicate → Status * Predicate;
  (** [RuntimeFilterHelper::create_runtime_bloom_filter], null for a build
      type without bloom filter. *)
  create_runtime_bloom_filter : PrimitiveType → option JoinRuntimeFilter;
  (** [filter->init(row_count)] and [filter->set_join_mode(mode)]. *)
  filter_init : Z → JoinRuntimeFilter → JoinRuntimeFilter;
  filter_set_join_mode : Z → JoinRuntimeFilter → JoinRuntimeFilter;
  (** [RuntimeFilterHelper::fill_runtime_bloom_filter]: the status, and the
      filter afterwards. *)
  fill_runtime_bloom_filter :
    Column → PrimitiveType → JoinRuntimeFilter → Z → bool →
    Status * JoinRuntimeFilter;
  kHashJoinKeyColumnOffset : Z
}.

Module Merger.
Section merger.
Context `{Collaborators}.

(** Lines 33-39; [column] is a [ColumnPtr] and may be null. *)
Record RuntimeBloomFilterBuildParam := mkParam {
  eq_null : bool;
  column : option Column;
  ht_row_count : Z
}.

(** [vectorized::RuntimeFilterBuildDescriptor], as far as the merger reads
    and writes it. *)
Record RuntimeFilterBuildDescriptor := mkDescriptor {
  is_pipeline : bool;
  has_consumer : bool;
  has_remote_targets : bool;
  build_expr_type : PrimitiveType;
  join_mode : Z;
  runtime_filter : option JoinRuntimeFilter
}.

Definition set_is_pipeline (b : bool) (d : RuntimeFilterBuildDescriptor) :=
  mkDescriptor b (has_consumer d) (has_remote_targets d) (build_expr_type d)
               (join_mode d) (runtime_filter d).

Definition set_runtime_filter (f : option JoinRuntimeFilter)
    (d : RuntimeFilterBuildDescriptor) :=
  mkDescriptor (is_pipeline d) (has_consumer d) (has_remote_targets d)
               (build_expr_type d) (join_mode d) f.

Record PartialRuntimeFilterMerger := mkMerger {
  _limit : Z;
  _num_active_builders : Z;
  _ht_row_counts : list Z;
  _partial_in_filters : list (list ptr);
  _partial_bloom_filter_build_params : list (list RuntimeBloomFilterBuildParam);
  _bloom_filter_descriptors : list RuntimeFilterBuildDescriptor
}.

(** The constructor (lines 198-204): three vectors of [num_builders]
    default-constructed slots. *)
Definition create (limit : Z) (num_builders : nat) : PartialRuntimeFilterMerger :=
  mkMerger limit
           (wrap64 (Z.of_nat num_builders))
           (replicate num_builders 0)
           (replicate num_builders [])
           (replicate num_builders [])
           [].

Definition with_limit (limit : Z) (m : PartialRuntimeFilterMerger) :=
  mkMerger limit (_num_active_builders m) (_ht_row_counts m)
           (_partial_in_filters m) (_partial_bloom_filter_build_params m)
           (_bloom_filter_descriptors m).

Definition with_in_filters (fs : list (list ptr))
    (m : PartialRuntimeFilterMerger) :=
  mkMerger (_limit m) (_num_active_builders m) (_ht_row_counts m) fs
           (_partial_bloom_filter_build_params m)
           (_bloom_filter_descriptors m).

Definition with_descriptors (ds : list RuntimeFilterBuildDescriptor)
    (m : PartialRuntimeFilterMerger) :=
  mkMerger (_limit m) (_num_active_builders m) (_ht_row_counts m)
           (_partial_in_filters m) (_partial_bloom_filter_build_params m) ds.

Definition get_total_in_filters (m : PartialRuntimeFilterMerger)
  : option (list ptr) :=
  _partial_in_filters m !! 0%nat.

Definition get_total_bloom_filters (m : PartialRuntimeFilterMerger)
  : list RuntimeFilterBuildDescriptor :=
  _bloom_filter_descriptors m.

(** *** merge_in_filters (lines 233-285) *)

(** The local variables of the first loop, and the vector it squeezes. *)
Record squeeze_state := mkSqueeze {
  can_merge_in_filters : bool;
  num_rows : Z;
  k : Z;
  filters : list (list ptr)
}.

Definition is_empty {A} (l : list A) : bool :=
  match l with [] => true | _ => false end.

(** Lines 238-255, from index [i] on; [counts] is the rest of
    [_ht_row_counts]. A list that has been moved from is left empty. *)
Fixpoint squeeze (counts : list Z) (i : nat) (s : squeeze_state)
  : option squeeze_state :=
  match counts with
  | [] => Some s
  | count :: counts' =>
      in_filters ← filters s !! i;
      if count =? 0 then squeeze counts' (S i) s
      else if is_empty in_filters then
        Some (mkSqueeze false (num_rows s) (k s) (filters s))
      else
        let k := k s + 1 in
        let filters :=
          if k <? Z.of_nat i
          then <[Z.to_nat k := in_filters]> (<[i := []]> (filters s))
          else filters s in
        squeeze counts' (S i)
          (mkSqueeze (can_merge_in_filters s) (Z.max (num_rows s) count)
                     k filters)
  end.

(** Lines 268-280: one partial list is merged into the total list, position
    by position. The result holds the status, the store and the total list
    as the loop leaves them; the iterator of [in_filters] must not run past
    its end. *)
Fixpoint merge_in_filter_list (st : store)
    (total_in_filters in_filters : list ptr)
  : option (Status * store * list ptr) :=
  match total_in_filters with
  | [] => Some (OK, st, [])
  | total_in_filter :: total_rest =>
      match in_filters with
      | [] => None
      | in_filter :: rest =>
          match total_in_filter, in_filter with
          | Some t, Some f =>
              let '(status, merged) :=
                Predicate_merge (root (st t)) (root (st f)) in
              let st := store_set t (mkExprContext merged) st in
              if Status_ok status then
                '(status, st, total_rest) ←
                  merge_in_filter_list st total_rest rest;
                Some (status, st, Some t :: total_rest)
              else Some (status, st, total_in_filters)
          | _, _ =>
              '(status, st, total_rest) ←
                merge_in_filter_list st total_rest rest;
              Some (status, st, None :: total_rest)
          end
      end
  end.

(** Lines 266-281: the slots after slot 0, in order. *)
Fixpoint merge_partial_lists (st : store) (total_in_filters : list ptr)
    (partial : list (list ptr)) : option (Status * store * list ptr) :=
  match partial with
  | [] => Some (OK, st, total_in_filters)
  | in_filters :: partial' =>
      '(status, st, total_in_filters) ←
        merge_in_filter_list st total_in_filters in_filters;
      if Status_ok status
      then merge_partial_lists st total_in_filters partial'
      else Some (status, st, total_in_filters)
  end.

(** [std::remove(..., nullptr)] followed by [erase]. *)
Definition erase_null (l : list ptr) : list ptr :=
  filter (λ p, negb (is_null p)) l.

Definition merge_in_filters (st : store) (m : PartialRuntimeFilterMerger)
  : option (Status * store * PartialRuntimeFilterMerger) :=
  s ← squeeze (_ht_row_counts m) 0
        (mkSqueeze true 0 (-1) (_partial_in_filters m));
  let can_merge_in_filters :=
    can_merge_in_filters s && (num_rows s <=? 1024) && (0 <=? k s) in
  if negb can_merge_in_filters then
    _ ← filters s !! 0%nat;
    Some (OK, st, with_in_filters (<[0%nat := []]> (filters s)) m)
  else
    let partial := resize (Z.to_nat (k s + 1)) [] (filters s) in
    total_in_filters ← partial !! 0%nat;
    '(status, st, total_in_filters) ←
      merge_partial_lists st total_in_filters (drop 1 partial);
    if Status_ok status then
      Some (OK, st,
            with_in_filters (<[0%nat := erase_null total_in_filters]> partial) m)
    else
      Some (status, st,
            with_in_filters (<[0%nat := total_in_filters]> partial) m).

(** *** merge_bloom_filters (lines 287-328) *)

(** Lines 291-294. *)
Definition total_row_count (counts : list Z) : Z :=
  foldl (λ row_count count, wrap64 (row_count + count)) 0 counts.

(** The body of the loop of lines 295-308 for one descriptor. *)
Definition init_bloom_filter (limit row_count : Z)
    (desc : RuntimeFilterBuildDescriptor) : RuntimeFilterBuildDescriptor :=
  let desc := set_is_pipeline true desc in
  if negb (has_consumer desc) then desc
  else if negb (has_remote_targets desc) && (limit <? row_count) then desc
  else
    let build_type := build_expr_type desc in
    match create_runtime_bloom_filter build_type with
    | None => desc
    | Some filter =>
        let filter := filter_init row_count filter in
        let filter := filter_set_join_mode (join_mode desc) filter in
        set_runtime_filter (Some filter) desc
    end.

(** The body of the loop of lines 313-325 for one descriptor and one
    parameter. *)
Definition fill_bloom_filter (desc : RuntimeFilterBuildDescriptor)
    (param : RuntimeBloomFilterBuildParam) : RuntimeFilterBuildDescriptor :=
  match runtime_filter desc, column param with
  | Some filter, Some col =>
      let '(status, filter) :=
        fill_runtime_bloom_filter col (build_expr_type desc) filter
                                  kHashJoinKeyColumnOffset (eq_null param) in
      if Status_ok status then set_runtime_filter (Some filter) desc
      else set_runtime_filter None desc
  | _, _ => desc
  end.

(** Lines 311-325 for the parameters of one builder; the iterator of the
    descriptors must not run past its end. *)
Fixpoint fill_bloom_filters (descs : list RuntimeFilterBuildDescriptor)
    (params : list RuntimeBloomFilterBuildParam)
  : option (list RuntimeFilterBuildDescriptor) :=
  match params with
  | [] => Some descs
  | param :: params' =>
      match descs with
      | [] => None
      | desc :: descs' =>
          rest ← fill_bloom_filters descs' params';
          Some (fill_bloom_filter desc param :: rest)
      end
  end.

(** Lines 310-326. *)
Fixpoint fill_all_bloom_filters (descs : list RuntimeFilterBuildDescriptor)
    (all_params : list (list RuntimeBloomFilterBuildParam))
  : option (list RuntimeFilterBuildDescriptor) :=
  match all_params with
  | [] => Some descs
  | params :: all_params' =>
      descs ← fill_bloom_filters descs params;
      fill_all_bloom_filters descs all_params'
  end.

Definition merge_bloom_filters (m : PartialRuntimeFilterMerger)
  : option (Status * PartialRuntimeFilterMerger) :=
  if is_empty (_partial_bloom_filter_build_params m) then Some (OK, m)
  else
    let row_count := total_row_count (_ht_row_counts m) in
    let descs :=
      init_bloom_filter (_limit m) row_count <$> _bloom_filter_descriptors m in
    descs ← fill_all_bloom_filters descs (_partial_bloom_filter_build_params m);
    Some (OK, with_descriptors descs m).

(** *** add_partial_filters (lines 208-227) *)

(** Lines 216-218 and the decrement of line 220: the builder writes its
    slot of each vector. *)
Definition write_slot (idx : nat) (ht_row_count : Z)
    (partial_in_filters : list ptr)
    (partial_bloom_filter_build_params : list RuntimeBloomFilterBuildParam)
    (m : PartialRuntimeFilterMerger) : PartialRuntimeFilterMerger :=
  mkMerger (_limit m)
    (wrap64 (_num_active_builders m - 1))
    (<[idx := ht_row_count]> (_ht_row_counts m))
    (<[idx := partial_in_filters]> (_partial_in_filters m))
    (<[idx := partial_bloom_filter_build_params]>
       (_partial_bloom_filter_build_params m))
    (_bloom_filter_descriptors m).

(** The index must be in range of each vector. *)
Definition store_partial (idx : nat) (ht_row_count : Z)
    (partial_in_filters : list ptr)
    (partial_bloom_filter_build_params : list RuntimeBloomFilterBuildParam)
    (m : PartialRuntimeFilterMerger) : option PartialRuntimeFilterMerger :=
  if decide ((idx < length (_ht_row_counts m))%nat
             ∧ (idx < length (_partial_in_filters m))%nat
             ∧ (idx < length (_partial_bloom_filter_build_params m))%nat)
  then Some (write_slot idx ht_row_count partial_in_filters
               partial_bloom_filter_build_params m)
  else None.

Definition add_partial_filters (idx : nat) (ht_row_count : Z)
    (partial_in_filters : list ptr)
    (partial_bloom_filter_build_params : list RuntimeBloomFilterBuildParam)
    (bloom_filter_descriptors : list RuntimeFilterBuildDescriptor)
    (st : store) (m : PartialRuntimeFilterMerger)
  : option (StatusOr bool * store * PartialRuntimeFilterMerger) :=
  let before := _num_active_builders m in
  m ← store_partial idx ht_row_count partial_in_filters
        partial_bloom_filter_build_params m;
  if 1 =? before then
    let m := with_descriptors bloom_filter_descriptors m in
    '(_, st, m) ← merge_in_filters st m;
    '(_, m) ← merge_bloom_filters m;
    Some (Value true, st, m)
  else Some (Value false, st, m).

(** The call of one builder, and a history of calls in the order of their
    decrements of [_num_active_builders]. *)
Record call := mkCall {
  call_idx : nat;
  call_ht_row_count : Z;
  call_in_filters : list ptr;
  call_params : list RuntimeBloomFilterBuildParam;
  call_descriptors : list RuntimeFilterBuildDescriptor
}.

Definition add_call (c : call) (st : store) (m : PartialRuntimeFilterMerger) :=
  add_partial_filters (call_idx c) (call_ht_row_count c) (call_in_filters c)
                      (call_params c) (call_descriptors c) st m.

Definition write_call (m : PartialRuntimeFilterMerger) (c : call) :=
  write_slot (call_idx c) (call_ht_row_count c) (call_in_filters c)
             (call_params c) m.

(** The results of the calls, oldest first, and the state they leave. *)
Fixpoint run (calls : list call) (st : store) (m : PartialRuntimeFilterMerger)
  : option (list (StatusOr bool) * store * PartialRuntimeFilterMerger) :=
  match calls with
  | [] => Some ([], st, m)
  | c :: calls' =>
      '(r, st, m) ← add_call c st m;
      '(rs, st, m) ← run calls' st m;
      Some (r :: rs, st, m)
  end.

End merger.
End Merger.

(** ** merge_bloom_filters on the descriptors as objects

    [_bloom_filter_descriptors] is a [std::list] of pointers, and
    [merge_bloom_filters] writes the descriptors through them. [Merger]
    gives each position of the list a descriptor of its own; here the
    descriptors live in a heap and the list holds their addresses, so that
    one descriptor may be listed twice and a pointer may be null. The
    filter that a descriptor holds is taken as an object of that
    descriptor alone. *)

Module DescriptorHeap.
Section heap.
Context `{Collaborators}.

(** The descriptors, by address. *)
Definition descriptors := addr → Merger.RuntimeFilterBuildDescriptor.

Definition descriptors_set (a : addr)
    (d : Merger.RuntimeFilterBuildDescriptor) (ds : descriptors)
  : descriptors :=
  λ b, if decide (b = a) then d else ds b.

(** The loop of lines 295-308. *)
Fixpoint init_bloom_filters (limit row_count : Z) (descs : list ptr)
    (ds : descriptors) : option descriptors :=
  match descs with
  | [] => Some ds
  | desc :: rest =>
      a ← desc;
      init_bloom_filters limit row_count rest
        (descriptors_set a
           (Merger.init_bloom_filter limit row_count (ds a)) ds)
  end.

(** Lines 311-325 for the parameters of one builder; the iterator of the
    descriptors must not run past its end. *)
Fixpoint fill_bloom_filters (descs : list ptr)
    (params : list Merger.RuntimeBloomFilterBuildParam)
    (ds : descriptors) : option descriptors :=
  match params with
  | [] => Some ds
  | param :: params' =>
      match descs with
      | [] => None
      | desc :: descs' =>
          a ← desc;
          fill_bloom_filters descs' params'
            (descriptors_set a (Merger.fill_bloom_filter (ds a) param) ds)
      end
  end.

(** Lines 310-326. *)
Fixpoint fill_all_bloom_filters (descs : list ptr)
    (all_params : list (list Merger.RuntimeBloomFilterBuildParam))
    (ds : descriptors) : option descriptors :=
  match all_params with
  | [] => Some ds
  | params :: all_params' =>
      ds ← fill_bloom_filters descs params ds;
      fill_all_bloom_filters descs all_params' ds
  end.

(** [merge_bloom_filters] of a merger whose [_bloom_filter_descriptors]
    is the list of pointers [descs]; the other members are those of [m]. *)
Definition merge_bloom_filters (m : Merger.PartialRuntimeFilterMerger)
    (descs : list ptr) (ds : descriptors) : option (Status * descriptors) :=
  if Merger.is_empty (Merger._partial_bloom_filter_build_params m)
  then Some (OK, ds)
  else
    let row_count := Merger.total_row_count (Merger._ht_row_counts m) in
    ds ← init_bloom_filters (Merger._limit m) row_count descs ds;
    ds ← fill_all_bloom_filters descs
           (Merger._partial_bloom_filter_build_params m) ds;
    Some (OK, ds).

End heap.
End DescriptorHeap.

(** ** OlapTableSink: the failed node channels (tablet_sink.h, lines 126-136) *)

Module TabletSink.

(** [TWriteQuorumType] is a thrift enum of [gen_cpp], which is not part of
    the sources at hand; these are the values the sink names. *)
Inductive TWriteQuorumType := ALL | ONE | MAJORITY.

(** The members that [mark_as_failed], [is_failed_channel] and
    [has_intolerable_failure] read and write: [_num_repicas] is an [int],
    [_failed_channels] a [std::set<int64_t>] of node ids. *)
Record OlapTableSink := mkSink {
  _num_repicas : Z;
  _write_quorum_type : TWriteQuorumType;
  _failed_channels : gset Z
}.

(** The member initialisers of lines 169, 232 and 237. *)
Definition initial : OlapTableSink := mkSink (-1) MAJORITY ∅.

(** [ch->node_id()] is given by [node_id]. *)
Definition mark_as_failed (node_id : Z) (s : OlapTableSink) : OlapTableSink :=
  mkSink (_num_repicas s) (_write_quorum_type s)
         ({[node_id]} ∪ _failed_channels s).

Definition is_failed_channel (node_id : Z) (s : OlapTableSink) : bool :=
  bool_decide (node_id ∈ _failed_channels s).

(** [a + b] on [int]: a signed overflow is undefined. *)
Definition int_add (a b : Z) : option Z :=
  if decide (- 2 ^ 31 ≤ a + b < 2 ^ 31) then Some (a + b) else None.

(** The comparisons of lines 132 and 134 are between a [size_t] and an
    [int]: the [int] is converted to [size_t]. The division of line 134 is
    the division of [int], which truncates. *)
Definition has_intolerable_failure (s : OlapTableSink) : option bool :=
  let size := Z.of_nat (size (_failed_channels s)) in
  match _write_quorum_type s with
  | ALL => Some (0 <? size)
  | ONE => Some (wrap64 (_num_repicas s) <=? size)
  | MAJORITY =>
      sum ← int_add (_num_repicas s) 1;
      Some (wrap64 (Z.quot sum 2) <=? size)
  end.

End TabletSink.

(** ** Sample collaborators

    Instances on which the model is run: predicates whose [merge] answers
    [merge_status] and, when that is OK, takes the union of the IN-sets;
    bloom filters that record their size, their join mode and the values
    filled in, and that exist for every build type but type 0. *)

Record SampleFilter := mkSampleFilter {
  sample_size : Z;
  sample_join_mode : Z;
  sample_values : list Z
}.

Definition sample_collaborators (merge_status : Status) : Collaborators := {|
  PrimitiveType := nat;
  Column := list Z;
  JoinRuntimeFilter := SampleFilter;
  Predicate_merge p q :=
    (merge_status,
     if Status_ok merge_status
     then mkPredicate (get_child0 p) (in_set p ∪ in_set q)
     else p);
  create_runtime_bloom_filter ty :=
    match ty with
    | O => None
    | S _ => Some (mkSampleFilter 0 0 [])
    end;
  filter_init row_count f :=
    mkSampleFilter row_count (sample_join_mode f) (sample_values f);
  filter_set_join_mode mode f :=
    mkSampleFilter (sample_size f) mode (sample_values f);
  fill_runtime_bloom_filter col ty f offset eq_null :=
    (OK, mkSampleFilter (sample_size f) (sample_join_mode f)
                        (sample_values f ++ col));
  kHashJoinKeyColumnOffset := 1
|}.

(** A store with the given IN-sets at addresses 0, 1, ..., on column
    (0, 0); every other address holds an empty IN-set. *)
Definition store_of_sets (sets : list (gset Z)) : store :=
  λ a, mkExprContext (mkPredicate (mkColumnRef 0 0) (default ∅ (sets !! a))).

(** Scenario S1 of the specification: three builders with row counts
    (10, 0, 20) and IN-sets ({1,2,3}, none, {3,4,5}). *)
Definition S1_store : store :=
  store_of_sets [{[1; 2; 3]}; {[3; 4; 5]}].

Definition S1_merger : @Merger.PartialRuntimeFilterMerger (sample_collaborators OK) :=
  Merger.mkMerger 1024 0 [10; 0; 20] [[Some 0%nat]; []; [Some 1%nat]]
                  [[]; []; []] [].

(** One descriptor with a consumer and local targets only, of build type 1
    and join mode 2. *)
Definition sample_descriptors (s : Status)
  : list (@Merger.RuntimeFilterBuildDescriptor (sample_collaborators s)) :=
  [@Merger.mkDescriptor (sample_collaborators s) false true false 1%nat 2
     None].

(** The calls of scenario S1, builder 2 first and the empty builder 1 last. *)
Definition S1_calls (s : Status) : list (@Merger.call (sample_collaborators s)) :=
  let param := @Merger.mkParam (sample_collaborators s) false in
  [Merger.mkCall 2 20 [Some 1%nat] [param (Some [3; 4; 5]) 20]
                 (sample_descriptors s);
   Merger.mkCall 0 10 [Some 0%nat] [param (Some [1; 2; 3]) 10]
                 (sample_descriptors s);
   Merger.mkCall 1 0 [] [param (Some []) 0] (sample_descriptors s)].

(** Scenario S3: two builders with 500 rows each, the second without
    IN-filter. *)
Definition S3_merger : @Merger.PartialRuntimeFilterMerger (sample_collaborators OK) :=
  Merger.mkMerger 1024 0 [500; 500] [[Some 0%nat]; []] [[]; []] [].

(** Scenario S2: a builder above the threshold without IN-filter, and an
    empty builder. *)
Definition S2_merger : @Merger.PartialRuntimeFilterMerger (sample_collaborators OK) :=
  Merger.mkMerger 1024 0 [2000; 0] [[]; []] [[]; []] [].

(** Scenario S5: one builder with five rows and one IN-filter. *)
Definition S5_merger : @Merger.PartialRuntimeFilterMerger (sample_collaborators OK) :=
  Merger.mkMerger 1024 0 [5] [[Some 0%nat]] [[]] [].

(** Two builders with two join keys each; the first has no IN-filter for
    the second key. *)
Definition two_key_merger : @Merger.PartialRuntimeFilterMerger (sample_collaborators OK) :=
  Merger.mkMerger 1024 0 [10; 20]
                  [[Some 0%nat; None]; [Some 1%nat; Some 2%nat]] [[]; []] [].

(** Two builders with five rows and one IN-filter each. *)
Definition two_builder_calls (s : Status)
  : list (@Merger.call (sample_collaborators s)) :=
  [Merger.mkCall 0 5 [Some 0%nat] [] (sample_descriptors s);
   Merger.mkCall 1 5 [Some 1%nat] [] (sample_descriptors s)].

(** Scenario S1 with predicates whose [merge] fails with code 7. *)
Definition S1_failing_merger
  : @Merger.PartialRuntimeFilterMerger (sample_collaborators (NotOK 7)) :=
  Merger.mkMerger 1024 0 [10; 0; 20] [[Some 0%nat]; []; [Some 1%nat]]
                  [[]; []; []] [].

(** Collaborators whose bloom-filter fill fails on an empty column. *)
Definition fragile_collaborators : Collaborators := {|
  PrimitiveType := nat;
  Column := list Z;
  JoinRuntimeFilter := SampleFilter;
  Predicate_merge p q :=
    (OK, mkPredicate (get_child0 p) (in_set p ∪ in_set q));
  create_runtime_bloom_filter ty :=
    match ty with
    | O => None
    | S _ => Some (mkSampleFilter 0 0 [])
    end;
  filter_init row_count f :=
    mkSampleFilter row_count (sample_join_mode f) (sample_values f);
  filter_set_join_mode mode f :=
    mkSampleFilter (sample_size f) mode (sample_values f);
  fill_runtime_bloom_filter col ty f offset eq_null :=
    match col with
    | [] => (NotOK 9, f)
    | _ =>
        (OK, mkSampleFilter (sample_size f) (sample_join_mode f)
                            (sample_values f ++ col))
    end;
  kHashJoinKeyColumnOffset := 1
|}.

(** Two builders and two descriptors; the second builder has an empty
    column for the first descriptor. *)
Definition fragile_merger
  : @Merger.PartialRuntimeFilterMerger fragile_collaborators :=
  let param := @Merger.mkParam fragile_collaborators false in
  let desc :=
    @Merger.mkDescriptor fragile_collaborators false true false 1%nat 2 None in
  Merger.mkMerger 1024 0 [10; 20] [[]; []]
    [[param (Some [1; 2]) 10; param (Some [3]) 10];
     [param (Some []) 20; param (Some [4]) 20]]
    [desc; desc].

(** Descriptors that are all the descriptor of [fragile_merger], and a
    list that names the descriptor at address 0 twice. *)
Definition fragile_heap : @DescriptorHeap.descriptors fragile_collaborators :=
  λ _, @Merger.mkDescriptor fragile_collaborators false true false 1%nat 2 None.


(** ** Vocabulary of the statements *)

(** [pr] prepares and [cl] closes have been counted, of [n] each. *)
Definition counted (n : Z) (pr cl : nat)
    (c : RefCounted.RefCountedRuntimeFilterProbeCollector) : Prop :=
  RefCounted._num_operators_generated c = n
  ∧ Z.of_nat pr ≤ n ∧ Z.of_nat cl ≤ n
  ∧ RefCounted._count c = (n - Z.of_nat cl) * two32 + (n - Z.of_nat pr).

(** The in-filter lists of the builders with a non-empty hash table, in the
    order of the builders. *)
Fixpoint retained (counts : list Z) (fs : list (list ptr)) : list (list ptr) :=
  match counts, fs with
  | count :: counts', f :: fs' =>
      if count =? 0 then retained counts' fs' else f :: retained counts' fs'
  | _, _ => []
  end.

(** Some builder with a non-empty hash table supplied an empty list. *)
Fixpoint poisoned (counts : list Z) (fs : list (list ptr)) : bool :=
  match counts, fs with
  | count :: counts', f :: fs' =>
      (negb (count =? 0) && Merger.is_empty f) || poisoned counts' fs'
  | _, _ => false
  end.

(** The largest row count among [acc] and the non-empty hash tables. *)
Definition max_rows (acc : Z) (counts : list Z) : Z :=
  foldl (λ acc count, if count =? 0 then acc else Z.max acc count) acc counts.

(** The addresses held by a list of pointers, nulls left out. *)
Definition addrs (l : list ptr) : list addr := omap id l.

(** A position of the total list after one partial list has been merged
    into it: kept when both entries are non-null. *)
Definition both (t f : ptr) : ptr :=
  match t, f with
  | Some a, Some _ => Some a
  | _, _ => None
  end.

(** No list of [R] is null, or too short, at position [j]. *)
Definition all_present (R : list (list ptr)) (j : nat) : Prop :=
  ∀ l, l ∈ R → ∃ f, l !! j = Some (Some f).

(** What the second loop of [merge_bloom_filters] may do to a descriptor:
    fill its filter or drop it; a descriptor without filter stays so. *)
Definition filled_from `{Collaborators}
    (d d' : Merger.RuntimeFilterBuildDescriptor) : Prop :=
  Merger.is_pipeline d' = Merger.is_pipeline d
  ∧ Merger.has_consumer d' = Merger.has_consumer d
  ∧ Merger.has_remote_targets d' = Merger.has_remote_targets d
  ∧ Merger.build_expr_type d' = Merger.build_expr_type d
  ∧ Merger.join_mode d' = Merger.join_mode d
  ∧ (Merger.runtime_filter d = None → Merger.runtime_filter d' = None).

(** A mapping list feeds forward: the [from] column of a mapping is the
    [to] column of no earlier mapping of the list. *)
Definition feeds_forward (ms : list Collector.TupleSlotMapping) : Prop :=
  ∀ i j mi mj, ms !! i = Some mi → ms !! j = Some mj → (j < i)%nat →
               Collector.coordinates_from mi ≠ Collector.coordinates_to mj.

(** Two stores hold the same expression context at every address. *)
Definition same_store (st st' : store) : Prop := ∀ a, st a = st' a.

(** The sum of the row counts, without wrap-around. *)
Definition sum_rows (counts : list Z) : Z := foldr Z.add 0 counts.

(** The column that a filter on [col] refers to after the pass of one
    mapping, and after the passes of a mapping list. *)
Definition rewrite_column_step (col : ColumnRef)
    (m : Collector.TupleSlotMapping) : ColumnRef :=
  if decide (col = Collector.coordinates_to m)
  then Collector.coordinates_from m else col.

Definition rewrite_column (ms : list Collector.TupleSlotMapping)
    (col : ColumnRef) : ColumnRef :=
  foldl rewrite_column_step col ms.

(** The statuses returned by the [prepare] calls of a history, oldest
    first. *)
Fixpoint prepare_results (prepare_status open_status : Status)
    (c : RefCounted.RefCountedRuntimeFilterProbeCollector)
    (calls : list RefCounted.call) : list Status :=
  match calls with
  | [] => []
  | RefCounted.Prepare :: calls' =>
      let '(status, c) := RefCounted.prepare prepare_status open_status c in
      status :: prepare_results prepare_status open_status c calls'
  | RefCounted.Close :: calls' =>
      prepare_results prepare_status open_status (RefCounted.close c) calls'
  end.

(** What the first [prepare] reports: the error of the wrapped [prepare],
    or else the status of the wrapped [open]. *)
Definition wrapped_status (prepare_status open_status : Status) : Status :=
  match prepare_status with
  | NotOK e => NotOK e
  | OK => open_status
  end.

(** A call [receiver->merge(argument)] made by [merge_in_filters]
    (line 279): the addresses of the two in-filters, and their roots when
    the call is made. *)
Record merge_call := mkMergeCall {
  receiver_at : addr;
  argument_at : addr;
  receiver : Predicate;
  argument : Predicate
}.

(** The status that the call returned. *)
Definition merge_call_status `{Collaborators} (c : merge_call) : Status :=
  fst (Predicate_merge (receiver c) (argument c)).

(** The calls of [Predicate::merge] that lines 268-280 make for one partial
    list, in order; the loop is left at the first call that fails. *)
Fixpoint merge_in_filter_list_calls `{Collaborators} (st : store)
    (total_in_filters in_filters : list ptr) : list merge_call :=
  match total_in_filters, in_filters with
  | total_in_filter :: total_rest, in_filter :: rest =>
      match total_in_filter, in_filter with
      | Some t, Some f =>
          let '(status, merged) :=
            Predicate_merge (root (st t)) (root (st f)) in
          let st' := store_set t (mkExprContext merged) st in
          mkMergeCall t f (root (st t)) (root (st f))
          :: (if Status_ok status
              then merge_in_filter_list_calls st' total_rest rest
              else [])
      | _, _ => merge_in_filter_list_calls st total_rest rest
      end
  | _, _ => []
  end.

(** The calls that lines 266-281 make, partial list after partial list. *)
Fixpoint merge_partial_lists_calls `{Collaborators} (st : store)
    (total_in_filters : list ptr) (partial : list (list ptr))
  : list merge_call :=
  match partial with
  | [] => []
  | in_filters :: partial' =>
      merge_in_filter_list_calls st total_in_filters in_filters
      ++ match Merger.merge_in_filter_list st total_in_filters in_filters with
         | Some (status, st', total_in_filters') =>
             if Status_ok status
             then merge_partial_lists_calls st' total_in_filters' partial'
             else []
         | None => []
         end
  end.

(** The calls of [Predicate::merge] that one [merge_in_filters] makes. *)
Definition merge_in_filters_calls `{Collaborators} (st : store)
    (m : Merger.PartialRuntimeFilterMerger) : list merge_call :=
  match Merger.squeeze (Merger._ht_row_counts m) 0
          (Merger.mkSqueeze true 0 (-1) (Merger._partial_in_filters m)) with
  | Some s =>
      if Merger.can_merge_in_filters s && (Merger.num_rows s <=? 1024)
         && (0 <=? Merger.k s)
      then
        let partial :=
          resize (Z.to_nat (Merger.k s + 1)) [] (Merger.filters s) in
        match partial !! 0%nat with
        | Some total_in_filters =>
            merge_partial_lists_calls st total_in_filters (drop 1 partial)
        | None => []
        end
      else []
  | None => []
  end.

(** The parameters of one builder that the fill loop applies to the
    descriptor at [a]: those at the positions where [descs] names it. *)
Fixpoint aimed_at `{Collaborators} (descs : list ptr) (a : addr)
    (params : list Merger.RuntimeBloomFilterBuildParam)
  : list Merger.RuntimeBloomFilterBuildParam :=
  match descs, params with
  | desc :: descs', param :: params' =>
      if decide (desc = Some a)
      then param :: aimed_at descs' a params'
      else aimed_at descs' a params'
  | _, _ => []
  end.

(** * Properties *)

Section holder_facts.
Import Holder.

Lemma observations_no_install h ops :
  installs ops = 0%nat →
  observations h ops = replicate (length ops) (get_collector h).
Proof.
  unfold installs. induction ops as [|[c|] ops IH]; simpl; intros Hn.
  - reflexivity.
  - discriminate.
  - f_equal. apply IH, Hn.
Qed.

Lemma observations_values h ops o :
  (installs ops ≤ 1)%nat →
  o ∈ observations h ops →
  o = get_collector h ∨ SetCollector o ∈ ops.
Proof.
  revert h. unfold installs.
  induction ops as [|[c|] ops IH]; simpl; intros h Hn Ho.
  - by apply elem_of_nil in Ho.
  - rewrite observations_no_install in Ho by (unfold installs; lia).
    apply elem_of_replicate in Ho as [-> _].
    right. apply list_elem_of_here.
  - apply elem_of_cons in Ho as [->|Ho]; [by left|].
    destruct (IH h Hn Ho) as [->|Hin]; [by left|].
    right. by apply list_elem_of_further.
Qed.

Lemma observations_stay_ready h ops i j a :
  (installs ops ≤ 1)%nat →
  (i ≤ j)%nat →
  (get_collector h = None ∨ installs ops = 0%nat) →
  observations h ops !! i = Some (Some a) →
  is_Some (observations h ops !! j) →
  observations h ops !! j = Some (Some a).
Proof.
  revert h i j. unfold installs.
  induction ops as [|[c|] ops IH]; simpl; intros h i j Hn Hij Hinit Hi Hj.
  - by rewrite lookup_nil in Hi.
  - rewrite observations_no_install in Hi, Hj |- * by (unfold installs; lia).
    apply lookup_replicate in Hi as [Hi _].
    destruct Hj as [x Hj]. apply lookup_replicate in Hj as [_ Hj].
    rewrite Hi. by apply lookup_replicate_2.
  - destruct i as [|i], j as [|j]; simpl in *; try lia.
    + done.
    + destruct Hinit as [Hnull|Hzero]; [congruence|].
      rewrite observations_no_install in Hj |- * by exact Hzero.
      destruct Hj as [x Hj]. apply lookup_replicate in Hj as [_ Hj].
      injection Hi as Hi. rewrite Hi. by apply lookup_replicate_2.
    + apply (IH h i j); auto with lia.
Qed.

End holder_facts.

(** C7. In a history of a fresh holder with at most one [set_collector],
    every [get_collector] returns null or the pointer that [set_collector]
    installed, and after an observation of the non-null pointer every later
    observation returns that pointer again (so none returns null). *)
Theorem holder_single_publication (ops : list Holder.op) :
  (Holder.installs ops ≤ 1)%nat →
  (∀ o, o ∈ Holder.observations Holder.fresh ops →
        o = None ∨ Holder.SetCollector o ∈ ops)
  ∧ (∀ i j a, (i ≤ j)%nat →
        Holder.observations Holder.fresh ops !! i = Some (Some a) →
        is_Some (Holder.observations Holder.fresh ops !! j) →
        Holder.observations Holder.fresh ops !! j = Some (Some a)).
Proof.
  intros Hn. split.
  - intros o Ho. by apply (observations_values Holder.fresh ops o Hn) in Ho.
  - intros i j a Hij Hi Hj.
    apply (observations_stay_ready Holder.fresh ops i j a); auto.
Qed.

Lemma holder_single_publication_witness :
  let ops := [Holder.GetCollector; Holder.SetCollector (Some 7%nat);
              Holder.GetCollector; Holder.GetCollector] in
  (∀ o, o ∈ Holder.observations Holder.fresh ops →
        o = None ∨ Holder.SetCollector o ∈ ops)
  ∧ (∀ i j a, (i ≤ j)%nat →
        Holder.observations Holder.fresh ops !! i = Some (Some a) →
        is_Some (Holder.observations Holder.fresh ops !! j) →
        Holder.observations Holder.fresh ops !! j = Some (Some a)).
Proof.
  apply (holder_single_publication
           [Holder.GetCollector; Holder.SetCollector (Some 7%nat);
            Holder.GetCollector; Holder.GetCollector]).
  vm_compute. lia.
Defined.

Section hub_facts.
Import Hub.

Lemma add_holder_known id hub :
  is_Some (get_holder id hub) → add_holder id hub = hub.
Proof. unfold get_holder, add_holder. by intros [h ->]. Qed.

Lemma get_holder_add_holder id hub :
  is_Some (get_holder id (add_holder id hub)).
Proof.
  unfold get_holder, add_holder.
  destruct (_holders hub !! id) as [h|] eqn:E; simpl.
  - rewrite E. by eexists.
  - rewrite lookup_insert_eq. by eexists.
Qed.

Lemma get_holder_set_collector id c hub hub' :
  set_collector id c hub = Some hub' →
  ∃ h, get_holder id hub = Some h
       ∧ get_holder id hub' = Some (Holder.set_collector c h).
Proof.
  unfold set_collector. destruct (get_holder id hub) as [h|]; [|done].
  simpl. intros [= <-]. exists h. split; [done|].
  unfold get_holder. simpl. by rewrite lookup_insert_eq.
Qed.

End hub_facts.

(** C10. [add_holder] is idempotent: a second call with the same plan-node
    id leaves the hub unchanged, also after the holder of the first call has
    received its collector, so [get_holder] (behind [set_collector]) and
    [gather_holders] resolve the id to the same holder as before. *)
Theorem add_holder_idempotent (id : Z) (hub : Hub.RuntimeFilterHub) :
  let hub1 := Hub.add_holder id hub in
  Hub.add_holder id hub1 = hub1
  ∧ Hub.get_holder id (Hub.add_holder id hub1) = Hub.get_holder id hub1
  ∧ (∀ ids, Hub.gather_holders ids (Hub.add_holder id hub1)
            = Hub.gather_holders ids hub1)
  ∧ (∀ c, Hub.set_collector id c (Hub.add_holder id hub1)
          = Hub.set_collector id c hub1)
  ∧ (∀ c, ∃ hub2 h,
        Hub.set_collector id c hub1 = Some hub2
        ∧ Hub.get_holder id hub1 = Some h
        ∧ Hub.add_holder id hub2 = hub2
        ∧ Hub.get_holder id (Hub.add_holder id hub2)
          = Some (Holder.set_collector c h)).
Proof.
  intros hub1.
  assert (Hub.add_holder id hub1 = hub1) as Hsame
    by apply add_holder_known, get_holder_add_holder.
  rewrite Hsame. repeat split; try done.
  intros c. destruct (get_holder_add_holder id hub) as [h Hh].
  fold hub1 in Hh.
  destruct (Hub.set_collector id c hub1) as [hub2|] eqn:Hset.
  - destruct (get_holder_set_collector _ _ _ _ Hset) as (h' & Hh' & Hh2).
    assert (h' = h) as -> by congruence.
    assert (Hub.add_holder id hub2 = hub2) as Hsame2.
    { apply add_holder_known. rewrite Hh2. by eexists. }
    exists hub2, h. by rewrite Hsame2.
  - unfold Hub.set_collector in Hset. by rewrite Hh in Hset.
Qed.

Section refcounted_facts.
Import RefCounted.
Variable prepare_status open_status : Status.

Local Abbreviation prepare := (prepare prepare_status open_status).
Local Abbreviation step := (step prepare_status open_status).
Local Abbreviation run := (run prepare_status open_status).

Lemma occurrences_app {A} `{EqDecision A} (x : A) l1 l2 :
  occurrences x (l1 ++ l2) = (occurrences x l1 + occurrences x l2)%nat.
Proof. unfold occurrences. by rewrite filter_app, length_app. Qed.

Lemma occurrences_cons {A} `{EqDecision A} (x y : A) l :
  occurrences x (y :: l)
  = ((if decide (y = x) then 1 else 0) + occurrences x l)%nat.
Proof.
  unfold occurrences. rewrite filter_cons.
  destruct (decide (y = x)) as [->|Hne].
  - by rewrite bool_decide_eq_true_2.
  - by rewrite bool_decide_eq_false_2.
Qed.

Lemma land_shiftl_low n : 0 ≤ n < two32 → Z.land (Z.shiftl n 32) n = 0.
Proof.
  unfold two32. intros Hn.
  rewrite <- (Z.mod_small n (2 ^ 32)) at 2 by lia.
  rewrite <- (Z.land_ones n 32) by lia.
  rewrite (Z.land_comm n), Z.land_assoc.
  rewrite (Z.land_ones (Z.shiftl n 32)) by lia.
  rewrite Z.shiftl_mul_pow2 by lia.
  rewrite Z.mod_mul by lia. apply Z.land_0_l.
Qed.

Lemma create_count n :
  0 ≤ n < two32 → _count (create n) = n * two32 + n.
Proof.
  intros Hn. unfold create, wrap64, two64; simpl.
  assert (Z.shiftl n 32 = n * two32) as Hs
    by (unfold two32; apply Z.shiftl_mul_pow2; lia).
  pose proof (Zbitwise.Z.add_lor_land (Z.shiftl n 32) n) as Hadd.
  rewrite land_shiftl_low in Hadd by done.
  rewrite Z.mod_small by (rewrite Hs; unfold two32 in *; lia).
  rewrite Hs in *. lia.
Qed.

Lemma prepare_counted n pr cl c :
  0 ≤ n < two32 → counted n pr cl c → Z.of_nat pr < n →
  counted n (S pr) cl (snd (prepare c))
  ∧ ∃ added,
      _rf_probe_collector (snd (prepare c)) = _rf_probe_collector c ++ added
      ∧ occurrences WrappedClose added = 0%nat
      ∧ occurrences WrappedPrepare added
        = (if decide (pr = 0%nat) then 1 else 0)%nat
      ∧ (occurrences WrappedOpen added
         ≤ (if decide (pr = 0%nat) then 1 else 0))%nat.
Proof.
  intros Hn (HN & Hp & Hcl & Hc) Hpr.
  unfold RefCounted.prepare, fetch_sub, wrap64.
  assert (Z.land (_count c) 0xffffffff = n - Z.of_nat pr) as Hlow.
  { change 0xffffffff with (Z.ones 32). rewrite Z.land_ones by lia.
    rewrite Hc. unfold two32 in *.
    rewrite Z.add_comm, Z.mod_add by lia. apply Z.mod_small. lia. }
  assert ((_count c - 1) mod two64
          = (n - Z.of_nat cl) * two32 + (n - Z.of_nat (S pr))) as Hnew.
  { rewrite Hc. unfold two64, two32 in *. rewrite Z.mod_small by nia. lia. }
  rewrite Hlow, Hnew. simpl _num_operators_generated. rewrite HN.
  destruct (Z.eqb_spec (n - Z.of_nat pr) n) as [Heq|Hne].
  - assert (pr = 0%nat) as -> by lia. simpl decide.
    destruct prepare_status; [destruct open_status|]; simpl;
      (split; [unfold counted; simpl; repeat split; auto; lia|]);
      eexists; (split; [rewrite <- ?app_assoc; reflexivity|]);
      vm_compute; repeat split; lia.
  - destruct (decide (pr = 0%nat)) as [->|_]; [simpl in Hne; lia|].
    simpl. split; [unfold counted; simpl; repeat split; auto; lia|].
    exists []. rewrite app_nil_r. repeat split; vm_compute; lia.
Qed.

Lemma close_counted n pr cl c :
  0 ≤ n < two32 → counted n pr cl c → Z.of_nat cl < n →
  counted n pr (S cl) (close c)
  ∧ _rf_probe_collector (close c)
    = _rf_probe_collector c
      ++ (if decide (Z.of_nat (S cl) = n ∧ Z.of_nat pr = n)
          then [WrappedClose] else []).
Proof.
  intros Hn (HN & Hp & Hcl & Hc) Hlt.
  unfold RefCounted.close, fetch_sub, wrap64.
  change (Z.shiftl 1 32) with two32.
  assert ((_count c - two32) mod two64
          = (n - Z.of_nat (S cl)) * two32 + (n - Z.of_nat pr)) as Hnew.
  { rewrite Hc. unfold two64, two32 in *. rewrite Z.mod_small by nia. lia. }
  rewrite Hnew.
  destruct (Z.eqb_spec (_count c) two32) as [Heq|Hne].
  - rewrite Hc in Heq. unfold two32 in *.
    assert (Z.of_nat (S cl) = n ∧ Z.of_nat pr = n) as Hlast by nia.
    rewrite decide_True by done.
    split; [unfold counted; simpl; repeat split; auto; lia|done].
  - rewrite decide_False.
    { split; [unfold counted; simpl; repeat split; auto; lia|].
      simpl. by rewrite app_nil_r. }
    intros [H1 H2]. apply Hne. rewrite Hc. unfold two32 in *. nia.
Qed.

Lemma run_prepare c calls :
  run c (Prepare :: calls) = run (snd (prepare c)) calls.
Proof. reflexivity. Qed.

Lemma run_close c calls : run c (Close :: calls) = run (close c) calls.
Proof. reflexivity. Qed.

Lemma run_counted n calls : ∀ pr cl c,
  0 ≤ n < two32 → counted n pr cl c →
  Z.of_nat pr + Z.of_nat (occurrences Prepare calls) ≤ n →
  Z.of_nat cl + Z.of_nat (occurrences Close calls) ≤ n →
  counted n (pr + occurrences Prepare calls) (cl + occurrences Close calls)
          (run c calls)
  ∧ ∃ added,
      _rf_probe_collector (run c calls) = _rf_probe_collector c ++ added
      ∧ (occurrences WrappedPrepare added
         ≤ (if decide (pr = 0%nat) then 1 else 0))%nat
      ∧ (occurrences WrappedOpen added
         ≤ (if decide (pr = 0%nat) then 1 else 0))%nat
      ∧ (occurrences WrappedClose added ≤ 1)%nat
      ∧ (Z.of_nat cl + Z.of_nat (occurrences Close calls) < n
         ∨ Z.of_nat pr + Z.of_nat (occurrences Prepare calls) < n →
         occurrences WrappedClose added = 0%nat)
      ∧ (pr = 0%nat → (0 < occurrences Prepare calls)%nat →
         occurrences WrappedPrepare added = 1%nat).
Proof.
  induction calls as [|o calls IH]; intros pr cl c Hn Hc Hp Hcl.
  - simpl. rewrite !Nat.add_0_r. split; [done|].
    exists []. rewrite app_nil_r.
    change (occurrences ?x []) with 0%nat. repeat split; try lia.
  - rewrite !occurrences_cons in *.
    destruct o; [rewrite run_prepare|rewrite run_close].
    + rewrite decide_True in * by done.
      rewrite (decide_False (P := Prepare = Close)) in * by done.
      destruct (prepare_counted n pr cl c Hn Hc) as (Hc' & a1 & Ha1 & Hz & Hp1 & Ho1);
        [lia|].
      destruct (IH (S pr) cl _ Hn Hc') as (Hc'' & a2 & Ha2 & Hp2 & Ho2 & Hcl2 & Hz2 & _);
        [lia|lia|].
      split.
      { replace (pr + (1 + occurrences Prepare calls))%nat
          with (S pr + occurrences Prepare calls)%nat by lia.
        by rewrite Nat.add_0_l in *. }
      exists (a1 ++ a2). rewrite Ha2, Ha1, app_assoc.
      rewrite !occurrences_app.
      rewrite (decide_False (P := S pr = 0%nat)) in Hp2, Ho2 by lia.
      split_and!.
      * done.
      * destruct (decide (pr = 0%nat)); lia.
      * destruct (decide (pr = 0%nat)); lia.
      * lia.
      * intros Hlt. rewrite Hz, Hz2; [done|]. lia.
      * intros -> _. rewrite decide_True in Hp1 by done. lia.
    + rewrite decide_True in * by done.
      rewrite (decide_False (P := Close = Prepare)) in * by done.
      destruct (close_counted n pr cl c Hn Hc) as (Hc' & Ha1); [lia|].
      destruct (IH pr (S cl) _ Hn Hc') as (Hc'' & a2 & Ha2 & Hp2 & Ho2 & Hcl2 & Hz2 & Hone);
        [lia|lia|].
      split.
      { replace (cl + (1 + occurrences Close calls))%nat
          with (S cl + occurrences Close calls)%nat by lia.
        by rewrite Nat.add_0_l in *. }
      eexists. rewrite Ha2, Ha1, <- app_assoc. split; [reflexivity|].
      rewrite !occurrences_app.
      destruct (decide (Z.of_nat (S cl) = n ∧ Z.of_nat pr = n)) as [[H1 H2]|Hnot].
      * assert (calls = []) as ->.
        { destruct calls as [|[] ?]; [done| |];
            rewrite occurrences_cons in *; simpl in *; lia. }
        assert (a2 = []) as ->.
        { apply (app_inv_head (_rf_probe_collector (close c))).
          rewrite app_nil_r. symmetry. exact Ha2. }
        change (occurrences ?x []) with 0%nat.
        rewrite !occurrences_cons. change (occurrences ?x []) with 0%nat.
        rewrite (decide_True (P := WrappedClose = WrappedClose)) by done.
        rewrite (decide_False (P := WrappedClose = WrappedPrepare)) by done.
        rewrite (decide_False (P := WrappedClose = WrappedOpen)) by done.
        rewrite (decide_True (P := Close = Close)) by done.
        split_and!; lia.
      * change (occurrences ?x []) with 0%nat. rewrite !Nat.add_0_l.
        rewrite (decide_True (P := Close = Close)) by done.
        split_and!; try done.
        intros Hlt. apply Hz2. lia.
Qed.

End refcounted_facts.

(** What the packed counter does guarantee. With [n] siblings ([n] below
    2^32), at most [n] prepare calls and at most [n] close calls, in any
    interleaving: the wrapped prepare, the wrapped open and the wrapped
    close run at most once each. The wrapped close does not run while fewer
    than [n] prepares have been counted; when all [n] prepares and [n]
    closes occur and a close comes last, the wrapped close runs exactly
    once, as the last call the wrapped collector receives. *)
Theorem refcounted_prepare_close_once
    (prepare_status open_status : Status) (n : Z)
    (calls : list RefCounted.call) :
  0 ≤ n < 2 ^ 32 →
  Z.of_nat (RefCounted.occurrences RefCounted.Prepare calls) ≤ n →
  Z.of_nat (RefCounted.occurrences RefCounted.Close calls) ≤ n →
  let log :=
    RefCounted._rf_probe_collector
      (RefCounted.run prepare_status open_status (RefCounted.create n) calls) in
  (RefCounted.occurrences RefCounted.WrappedPrepare log ≤ 1)%nat
  ∧ (RefCounted.occurrences RefCounted.WrappedOpen log ≤ 1)%nat
  ∧ (RefCounted.occurrences RefCounted.WrappedClose log ≤ 1)%nat
  ∧ (Z.of_nat (RefCounted.occurrences RefCounted.Prepare calls) < n →
     RefCounted.occurrences RefCounted.WrappedClose log = 0%nat)
  ∧ (Z.of_nat (RefCounted.occurrences RefCounted.Prepare calls) = n →
     Z.of_nat (RefCounted.occurrences RefCounted.Close calls) = n →
     ∀ before, calls = before ++ [RefCounted.Close] →
     ∃ log', log = log' ++ [RefCounted.WrappedClose]
             ∧ RefCounted.occurrences RefCounted.WrappedClose log' = 0%nat).
Proof.
  intros Hn Hp Hc log.
  assert (counted n 0 0 (RefCounted.create n)) as Hinit.
  { unfold counted. rewrite create_count by done. simpl. split_and!; lia. }
  destruct (run_counted prepare_status open_status n calls 0 0 _ Hn Hinit)
    as (_ & added & Hlog & Hwp & Hwo & Hwc & Hzero & _); [lia|lia|].
  simpl in Hlog. fold log in Hlog. subst log. rewrite Hlog.
  split_and!; try done.
  - intros Hlt. apply Hzero. lia.
  - intros Hpn Hcn before ->.
    rewrite occurrences_app in Hpn, Hcn.
    rewrite !occurrences_cons in Hpn, Hcn.
    rewrite (decide_False (P := RefCounted.Close = RefCounted.Prepare)) in Hpn
      by done.
    rewrite (decide_True (P := RefCounted.Close = RefCounted.Close)) in Hcn
      by done.
    change (RefCounted.occurrences ?x []) with 0%nat in Hpn, Hcn.
    destruct (run_counted prepare_status open_status n before 0 0 _ Hn Hinit)
      as (Hcount & log' & Hlog' & _ & _ & _ & Hzero' & _); [lia|lia|].
    simpl in Hlog'.
    destruct (close_counted n _ _ _ Hn Hcount) as (_ & Hclose); [lia|].
    rewrite decide_True in Hclose by lia.
    exists log'. split; [|apply Hzero'; lia].
    rewrite <- Hlog. unfold RefCounted.run. rewrite foldl_app. simpl.
    unfold RefCounted.run in Hclose, Hlog'. by rewrite Hclose, Hlog'.
Qed.

Lemma refcounted_prepare_close_once_witness :
  let calls := [RefCounted.Prepare; RefCounted.Close; RefCounted.Prepare;
                RefCounted.Close] in
  let log :=
    RefCounted._rf_probe_collector
      (RefCounted.run OK OK (RefCounted.create 2) calls) in
  (RefCounted.occurrences RefCounted.WrappedPrepare log ≤ 1)%nat
  ∧ (RefCounted.occurrences RefCounted.WrappedOpen log ≤ 1)%nat
  ∧ (RefCounted.occurrences RefCounted.WrappedClose log ≤ 1)%nat
  ∧ (Z.of_nat (RefCounted.occurrences RefCounted.Prepare calls) < 2 →
     RefCounted.occurrences RefCounted.WrappedClose log = 0%nat)
  ∧ (Z.of_nat (RefCounted.occurrences RefCounted.Prepare calls) = 2 →
     Z.of_nat (RefCounted.occurrences RefCounted.Close calls) = 2 →
     ∀ before, calls = before ++ [RefCounted.Close] →
     ∃ log', log = log' ++ [RefCounted.WrappedClose]
             ∧ RefCounted.occurrences RefCounted.WrappedClose log' = 0%nat).
Proof.
  apply (refcounted_prepare_close_once OK OK 2
           [RefCounted.Prepare; RefCounted.Close; RefCounted.Prepare;
            RefCounted.Close]).
  - lia.
  - vm_compute. discriminate.
  - vm_compute. discriminate.
Defined.

(** C4. The code does not close the wrapped collector in the scenario of
    the claim: with four siblings, two prepares and then four closes, the
    wrapped collector is prepared and opened once, and none of the four
    closes reaches it. [close] compares the whole counter with [1 << 32]
    (line 174), so the last close fires only when the prepare half has come
    down to zero as well, whereas the class is meant to run the wrapped
    close exactly once (lines 149-153). *)
Lemma refcounted_close_skipped :
  let calls := [RefCounted.Prepare; RefCounted.Prepare; RefCounted.Close;
                RefCounted.Close; RefCounted.Close; RefCounted.Close] in
  let log :=
    RefCounted._rf_probe_collector
      (RefCounted.run OK OK (RefCounted.create 4) calls) in
  RefCounted.occurrences RefCounted.Prepare calls = 2%nat
  ∧ RefCounted.occurrences RefCounted.Close calls = 4%nat
  ∧ log = [RefCounted.WrappedPrepare; RefCounted.WrappedOpen]
  ∧ RefCounted.occurrences RefCounted.WrappedClose log ≠ 1%nat.
Proof. vm_compute. split_and!; done. Qed.

Section collector_facts.
Import Collector.

(** One visit rewrites the filter exactly when its column is the [to]
    column of the mapping. *)
Lemma rewrite_in_filter_spec m st a :
  rewrite_in_filter m st (Some a)
  = Some (if decide (column_of st a = coordinates_to m)
          then store_set a
                 (mkExprContext
                    (mkPredicate (coordinates_from m) (in_set (root (st a)))))
                 st
          else st).
Proof.
  unfold rewrite_in_filter, column_of, is_bound, coordinates_to,
    coordinates_from. simpl.
  destruct (get_child0 (root (st a))) as [t s]; simpl.
  destruct (decide (t = to_tuple_id m)) as [->|Ht].
  - rewrite bool_decide_eq_true_2 by apply list_elem_of_here. simpl.
    destruct (Z.eqb_spec s (to_slot_id m)) as [->|Hs].
    + by rewrite decide_True.
    + rewrite decide_False; [done|]. by intros [= ?].
  - rewrite bool_decide_eq_false_2; simpl.
    + rewrite decide_False; [done|]. by intros [= ? ?].
    + intros Hin. apply list_elem_of_singleton in Hin. done.
Qed.

Lemma pass_defined m fs st st' :
  rewrite_with_mapping m fs st = Some st' → None ∉ fs.
Proof.
  revert st. induction fs as [|p fs IH]; simpl; intros st Hp Hin.
  - by apply elem_of_nil in Hin.
  - destruct p as [a|]; [|done].
    rewrite rewrite_in_filter_spec in Hp. simpl in Hp.
    apply elem_of_cons in Hin as [?|Hin]; [done|]. eapply IH; eauto.
Qed.

Lemma rewrite_defined ms c st st' :
  rewrite_in_filters ms c st = Some st' → ms = [] ∨ None ∉ _in_filters c.
Proof.
  destruct ms as [|m ms]; simpl; [by left|]. intros Hr. right.
  destruct (rewrite_with_mapping m (_in_filters c) st) eqn:Hp; [|done].
  by eapply pass_defined.
Qed.

End collector_facts.

Section collector_frame.
Import Collector.

Lemma rewrite_column_step_twice col m :
  rewrite_column_step (rewrite_column_step col m) m
  = rewrite_column_step col m.
Proof.
  unfold rewrite_column_step.
  destruct (decide (col = coordinates_to m)) as [->|Hne].
  - by destruct (decide (coordinates_from m = coordinates_to m)).
  - by rewrite decide_False.
Qed.

Lemma visit_frame m st b st' :
  rewrite_in_filter m st (Some b) = Some st' →
  ∀ a, keys_of st' a = keys_of st a
       ∧ column_of st' a
         = (if decide (a = b) then rewrite_column_step (column_of st a) m
            else column_of st a)
       ∧ (a ≠ b → st' a = st a).
Proof.
  rewrite rewrite_in_filter_spec. intros [= <-] a.
  unfold rewrite_column_step.
  destruct (decide (column_of st b = coordinates_to m)) as [Hb|Hb].
  - unfold keys_of, column_of, store_set in *.
    destruct (decide (a = b)) as [->|Hab]; simpl.
    + by rewrite decide_True.
    + done.
  - destruct (decide (a = b)) as [->|Hab]; [|done].
    by rewrite decide_False.
Qed.

Lemma pass_frame m fs : ∀ st st',
  rewrite_with_mapping m fs st = Some st' →
  ∀ a, keys_of st' a = keys_of st a
       ∧ (Some a ∈ fs →
          column_of st' a = rewrite_column_step (column_of st a) m)
       ∧ (Some a ∉ fs → st' a = st a).
Proof.
  induction fs as [|p fs IH]; simpl; intros st st' Hp a.
  - injection Hp as <-. split_and!; [done| |done].
    intros Hin. by apply elem_of_nil in Hin.
  - destruct p as [b|]; [|done].
    destruct (rewrite_in_filter m st (Some b)) as [st1|] eqn:Hv; [|done].
    simpl in Hp.
    destruct (visit_frame m st b st1 Hv a) as (Hk1 & Hc1 & Hs1).
    destruct (IH st1 st' Hp a) as (Hk & Hc & Hs).
    split_and!.
    + by rewrite Hk, Hk1.
    + intros Hin.
      destruct (decide (Some a ∈ fs)) as [Hfs|Hfs].
      * rewrite (Hc Hfs), Hc1.
        destruct (decide (a = b)); [|done].
        apply rewrite_column_step_twice.
      * apply elem_of_cons in Hin as [[= <-]|?]; [|done].
        unfold column_of at 1. rewrite (Hs Hfs). fold (column_of st1 a).
        by rewrite Hc1, decide_True.
    + intros Hnot.
      rewrite Hs by (intros ?; apply Hnot; by apply list_elem_of_further).
      apply Hs1. intros ->. apply Hnot, list_elem_of_here.
Qed.

Lemma rewrite_frame ms c : ∀ st st',
  rewrite_in_filters ms c st = Some st' →
  ∀ a, keys_of st' a = keys_of st a
       ∧ (Some a ∈ _in_filters c →
          column_of st' a = rewrite_column ms (column_of st a))
       ∧ (Some a ∉ _in_filters c → st' a = st a).
Proof.
  induction ms as [|m ms IH]; simpl; intros st st' Hr a.
  - by injection Hr as <-.
  - destruct (rewrite_with_mapping m (_in_filters c) st) as [st1|] eqn:Hp;
      [|done].
    simpl in Hr.
    destruct (pass_frame m _ st st1 Hp a) as (Hk1 & Hc1 & Hs1).
    destruct (IH st1 st' Hr a) as (Hk & Hc & Hs).
    split_and!.
    + by rewrite Hk, Hk1.
    + intros Hin. by rewrite (Hc Hin), (Hc1 Hin).
    + intros Hnot. by rewrite (Hs Hnot), (Hs1 Hnot).
Qed.

Lemma selection_spec tuple_ids st fs :
  None ∉ fs →
  ∃ selected,
    get_in_filters_bounded_by_tuple_ids tuple_ids fs st = Some selected
    ∧ selected `sublist_of` fs
    ∧ (∀ a, Some a ∈ selected
            ↔ Some a ∈ fs ∧ tuple_id (column_of st a) ∈ tuple_ids).
Proof.
  induction fs as [|p fs IH]; simpl; intros Hnull.
  - exists []. split_and!; [done|done|].
    intros a. split; [intros Hin|intros [Hin _]]; by apply elem_of_nil in Hin.
  - destruct p as [b|]; [|by destruct Hnull; apply list_elem_of_here].
    destruct IH as (selected & -> & Hsub & Hsel).
    { intros Hin. apply Hnull. by apply list_elem_of_further. }
    simpl. unfold is_bound. fold (column_of st b).
    destruct (decide (tuple_id (column_of st b) ∈ tuple_ids)) as [Hb|Hb].
    + rewrite bool_decide_eq_true_2 by done.
      eexists. split_and!; [done|by apply sublist_skip|].
      intros a. rewrite !elem_of_cons, Hsel.
      split; [intros [[= ->]|[? ?]]; auto|intros [[[= ->]|?] ?]; auto].
    + rewrite bool_decide_eq_false_2 by done.
      eexists. split_and!; [done|by apply sublist_cons|].
      intros a. rewrite elem_of_cons, Hsel.
      split; [intros [? ?]; auto|intros [[[= ->]|?] ?]; [done|auto]].
Qed.

Lemma selection_defined tuple_ids st fs selected :
  get_in_filters_bounded_by_tuple_ids tuple_ids fs st = Some selected →
  None ∉ fs.
Proof.
  revert selected. induction fs as [|p fs IH]; simpl; intros selected Hs Hin.
  - by apply elem_of_nil in Hin.
  - destruct p as [b|]; [|done]. simpl in Hs.
    destruct (get_in_filters_bounded_by_tuple_ids tuple_ids fs st)
      as [rest|] eqn:Hrest; [|done].
    apply elem_of_cons in Hin as [?|Hin]; [done|]. by eapply IH.
Qed.

End collector_frame.

(** *** Applying the same mappings again *)

Section collector_again.
Import Collector.

Lemma pass_total m fs : ∀ st,
  None ∉ fs → is_Some (rewrite_with_mapping m fs st).
Proof.
  induction fs as [|p fs IH]; simpl; intros st Hnull; [by eexists|].
  destruct p as [a|]; [|by destruct Hnull; apply list_elem_of_here].
  rewrite rewrite_in_filter_spec. simpl. apply IH.
  intros Hin. apply Hnull. by apply list_elem_of_further.
Qed.

Lemma rewrite_total ms c : ∀ st,
  None ∉ _in_filters c → is_Some (rewrite_in_filters ms c st).
Proof.
  induction ms as [|m ms IH]; simpl; intros st Hnull; [by eexists|].
  destruct (pass_total m (_in_filters c) st Hnull) as [st1 ->]. simpl.
  by apply IH.
Qed.

(** A column rests at a mapping when the mapping does not move it: it is
    not the mapping's [to] column, or the mapping sends that column to
    itself. *)
Lemma rewrite_column_rests ms : ∀ done col,
  feeds_forward (done ++ ms) →
  (∀ m, m ∈ done →
        col ≠ coordinates_to m ∨ coordinates_from m = coordinates_to m) →
  ∀ m, m ∈ done ++ ms →
       rewrite_column ms col ≠ coordinates_to m
       ∨ coordinates_from m = coordinates_to m.
Proof.
  induction ms as [|m0 ms IH]; intros done col Hfwd Hrest m Hm.
  - rewrite app_nil_r in Hm. by apply Hrest.
  - change (rewrite_column (m0 :: ms) col)
      with (rewrite_column ms (rewrite_column_step col m0)).
    assert ((done ++ m0 :: ms) !! length done = Some m0) as Hat
      by (by rewrite list_lookup_middle).
    apply (IH (done ++ [m0])).
    + by rewrite <- app_assoc.
    + intros m' Hm'. unfold rewrite_column_step.
      apply elem_of_app in Hm' as [Hm'|Hm'].
      * destruct (decide (col = coordinates_to m0)) as [_|_];
          [|by apply Hrest].
        left. apply list_elem_of_lookup_1 in Hm' as [j Hj].
        apply (Hfwd (length done) j); [done| |].
        -- by apply lookup_app_l_Some.
        -- by apply lookup_lt_Some in Hj.
      * apply list_elem_of_singleton in Hm' as ->.
        destruct (decide (col = coordinates_to m0)) as [_|Hne];
          [|by left].
        destruct (decide (coordinates_from m0 = coordinates_to m0));
          [by right|by left].
    + by rewrite <- app_assoc.
Qed.

Lemma rewrite_column_at_rest ms : ∀ col,
  (∀ m, m ∈ ms →
        col ≠ coordinates_to m ∨ coordinates_from m = coordinates_to m) →
  rewrite_column ms col = col.
Proof.
  induction ms as [|m ms IH]; intros col Hrest; [done|].
  change (rewrite_column (m :: ms) col)
    with (rewrite_column ms (rewrite_column_step col m)).
  assert (rewrite_column_step col m = col) as ->.
  { unfold rewrite_column_step.
    destruct (decide (col = coordinates_to m)) as [Heq|_]; [|done].
    destruct (Hrest m (list_elem_of_here _ _)) as [?|Hself]; [done|].
    by rewrite Hself. }
  apply IH. intros m' Hm'. by apply Hrest, list_elem_of_further.
Qed.

Lemma rewrite_column_again ms col :
  feeds_forward ms →
  rewrite_column ms (rewrite_column ms col) = rewrite_column ms col.
Proof.
  intros Hfwd. apply rewrite_column_at_rest. intros m Hm.
  apply (rewrite_column_rests ms [] col); [done| |done].
  intros m' Hm'. by apply elem_of_nil in Hm'.
Qed.

(** An expression context is its column and its keys. *)
Lemma context_eq (st st' : store) a :
  column_of st a = column_of st' a →
  keys_of st a = keys_of st' a →
  st a = st' a.
Proof.
  unfold column_of, keys_of.
  destruct (st a) as [[col keys]], (st' a) as [[col' keys']]. simpl.
  by intros -> ->.
Qed.

End collector_again.

(** C8 (as the code has it). When no mapping of the list has as its
    [(from_tuple_id, from_slot_id)] the [(to_tuple_id, to_slot_id)] of an
    earlier mapping of the list (it may have its own, and that of a later
    mapping: the list then chains the two in one application), applying
    [rewrite_in_filters] twice with the list leaves every expression
    context as one application does; the second application has defined
    behaviour exactly when the first has. *)
Theorem rewrite_in_filters_idempotent
    (mappings : list Collector.TupleSlotMapping)
    (c : Collector.RuntimeFilterCollector) (st : store) :
  (∀ i j mi mj, mappings !! i = Some mi → mappings !! j = Some mj →
                (j < i)%nat →
                Collector.coordinates_from mi ≠ Collector.coordinates_to mj) →
  option_Forall2 same_store
    (Collector.rewrite_in_filters mappings c st
       ≫= Collector.rewrite_in_filters mappings c)
    (Collector.rewrite_in_filters mappings c st).
Proof.
  intros Hforward.
  destruct (Collector.rewrite_in_filters mappings c st) as [st1|] eqn:Hr;
    simpl; [|constructor].
  destruct (rewrite_defined mappings c st st1 Hr) as [->|Hnull].
  { simpl. by constructor. }
  destruct (rewrite_total mappings c st1 Hnull) as [st2 Hr2].
  rewrite Hr2. constructor. intros a.
  destruct (rewrite_frame mappings c st st1 Hr a) as (_ & Hcol1 & _).
  destruct (rewrite_frame mappings c st1 st2 Hr2 a) as (Hkeys & Hcol2 & Hout).
  destruct (decide (Some a ∈ Collector._in_filters c)) as [Hin|Hnot];
    [|by apply Hout].
  apply context_eq; [|done].
  rewrite (Hcol2 Hin), (Hcol1 Hin). by apply rewrite_column_again.
Qed.

Lemma rewrite_in_filters_idempotent_witness :
  let mappings := [Collector.mkMapping 1 3 1 3; Collector.mkMapping 2 5 1 3;
                   Collector.mkMapping 3 7 2 5] in
  let c := Collector.mkCollector [Some 0%nat; Some 1%nat] [] in
  let st := store_of_column (mkColumnRef 1 3) in
  option_Forall2 same_store
    (Collector.rewrite_in_filters mappings c st
       ≫= Collector.rewrite_in_filters mappings c)
    (Collector.rewrite_in_filters mappings c st).
Proof.
  apply (rewrite_in_filters_idempotent
           [Collector.mkMapping 1 3 1 3; Collector.mkMapping 2 5 1 3;
            Collector.mkMapping 3 7 2 5]
           (Collector.mkCollector [Some 0%nat; Some 1%nat] [])
           (store_of_column (mkColumnRef 1 3))).
  intros [|[|[|i]]] [|[|[|j]]] mi mj Hi Hj Hlt; simpl in Hi, Hj;
    simplify_eq; try lia; vm_compute; discriminate.
Defined.

(** C8, as stated, fails on a chain of mappings listed bottom-up: a filter
    on column (1,3) is taken to (2,5) by the first application and on to
    (3,7) by the second. *)
Lemma rewrite_in_filters_chain :
  let mappings := [Collector.mkMapping 3 7 2 5; Collector.mkMapping 2 5 1 3] in
  let c := Collector.mkCollector [Some 0%nat] [] in
  let st := store_of_column (mkColumnRef 1 3) in
  (Collector.rewrite_in_filters mappings c st
   ≫= λ st1, Some (column_of st1 0%nat)) = Some (mkColumnRef 2 5)
  ∧ ((Collector.rewrite_in_filters mappings c st
      ≫= Collector.rewrite_in_filters mappings c)
     ≫= λ st2, Some (column_of st2 0%nat)) = Some (mkColumnRef 3 7)
  ∧ Collector.rewrite_in_filters mappings c st
      ≫= Collector.rewrite_in_filters mappings c
    ≠ Collector.rewrite_in_filters mappings c st.
Proof.
  intros mappings c st. split_and!.
  - vm_compute. reflexivity.
  - vm_compute. reflexivity.
  - intros Heq.
    assert (((Collector.rewrite_in_filters mappings c st
              ≫= Collector.rewrite_in_filters mappings c)
             ≫= λ st2, Some (column_of st2 0%nat))
            = (Collector.rewrite_in_filters mappings c st
               ≫= λ st1, Some (column_of st1 0%nat))) as Hcol
      by (by rewrite Heq).
    vm_compute in Hcol. discriminate.
Qed.

Section merger_facts.
Context `{Collaborators}.
Import Merger.

(** *** The first loop *)

Lemma squeeze_spec counts : ∀ i s rest kept,
  length rest = length counts →
  drop i (filters s) = rest →
  take (length kept) (filters s) = kept →
  (length kept ≤ i)%nat →
  k s = Z.of_nat (length kept) - 1 →
  ∃ s',
    squeeze counts i s = Some s'
    ∧ length (filters s') = length (filters s)
    ∧ if poisoned counts rest then can_merge_in_filters s' = false
      else can_merge_in_filters s' = can_merge_in_filters s
           ∧ num_rows s' = max_rows (num_rows s) counts
           ∧ k s' = Z.of_nat (length (kept ++ retained counts rest)) - 1
           ∧ take (length (kept ++ retained counts rest)) (filters s')
             = kept ++ retained counts rest.
Proof.
  induction counts as [|count counts IH]; intros i s rest kept Hlen Hdrop Htake Hle Hk.
  - destruct rest; [|done]. exists s. simpl. rewrite app_nil_r. by split_and!.
  - destruct rest as [|l rest]; [done|]. simpl in Hlen.
    assert (filters s !! i = Some l) as Hi.
    { rewrite <- (Nat.add_0_r i), <- lookup_drop, Hdrop. done. }
    assert (drop (S i) (filters s) = rest) as Hdrop'.
    { rewrite (drop_S _ _ _ Hi) in Hdrop. by injection Hdrop. }
    simpl squeeze. rewrite Hi. simpl.
    destruct (Z.eqb_spec count 0) as [->|Hcount]; simpl.
    + destruct (IH (S i) s rest kept) as (s' & Hs' & Hlen' & Hspec);
        [lia|done|done|lia|done|].
      exists s'. split_and!; done.
    + destruct l as [|p l]; simpl.
      { eexists. split_and!; done. }
      set (l0 := p :: l) in *.
      set (filters' :=
             if k s + 1 <? Z.of_nat i
             then <[Z.to_nat (k s + 1) := l0]> (<[i := []]> (filters s))
             else filters s).
      assert (length (filters s) > i)%nat as Hilt
        by (apply lookup_lt_Some in Hi; lia).
      assert (length filters' = length (filters s)) as Hlenf.
      { unfold filters'. destruct (_ <? _); [|done].
        by rewrite !length_insert. }
      assert (drop (S i) filters' = rest) as Hdropf.
      { unfold filters'. destruct (Z.ltb_spec (k s + 1) (Z.of_nat i)); [|done].
        rewrite drop_insert_lt by lia. by rewrite drop_insert_lt by lia. }
      assert (take (length (kept ++ [l0])) filters' = kept ++ [l0]) as Htakef.
      { rewrite length_app. simpl. rewrite Nat.add_1_r.
        unfold filters'. destruct (Z.ltb_spec (k s + 1) (Z.of_nat i)) as [Hlt|Hge].
        - replace (Z.to_nat (k s + 1)) with (length kept) by lia.
          erewrite take_S_r.
          2:{ apply list_lookup_insert_eq. rewrite length_insert. lia. }
          rewrite take_insert_ge by lia. rewrite take_insert_ge by lia.
          by rewrite Htake.
        - assert (length kept = i) as Hki by lia.
          rewrite Hki in *. erewrite take_S_r by done. by rewrite Htake. }
      destruct (IH (S i)
                  (mkSqueeze (can_merge_in_filters s)
                             (Z.max (num_rows s) count) (k s + 1) filters')
                  rest (kept ++ [l0]))
        as (s' & Hs' & Hlen' & Hspec); simpl; try done.
      { lia. }
      { rewrite length_app. simpl. lia. }
      { rewrite length_app. simpl. lia. }
      exists s'. split; [exact Hs'|]. split; [simpl in Hlen'; congruence|].
      destruct (poisoned counts rest); [done|].
      simpl in Hspec. rewrite <- app_assoc in Hspec. simpl in Hspec.
      unfold max_rows in *. simpl.
      destruct (Z.eqb_spec count 0); [done|]. done.
Qed.

Lemma poisoned_intro counts : ∀ fs i c,
  counts !! i = Some c → c ≠ 0 → fs !! i = Some [] →
  poisoned counts fs = true.
Proof.
  induction counts as [|c0 counts IH]; intros fs i c Hc Hne Hf.
  - by rewrite lookup_nil in Hc.
  - destruct fs as [|f fs]; [by rewrite lookup_nil in Hf|].
    destruct i as [|i]; simpl in *.
    + injection Hc as ->. injection Hf as ->.
      destruct (Z.eqb_spec c 0); done.
    + rewrite (IH fs i c) by done. apply orb_true_r.
Qed.

Lemma poisoned_false counts : ∀ fs,
  (∀ i c l, counts !! i = Some c → c ≠ 0 → fs !! i = Some l → l ≠ []) →
  poisoned counts fs = false.
Proof.
  induction counts as [|c0 counts IH]; intros fs Hok; [done|].
  destruct fs as [|f fs]; [done|]. simpl.
  rewrite IH by (intros i c l; apply (Hok (S i) c l)).
  rewrite orb_false_r.
  destruct (Z.eqb_spec c0 0) as [|Hne]; [done|]. simpl.
  specialize (Hok 0%nat c0 f eq_refl Hne eq_refl). by destruct f.
Qed.

Lemma max_rows_bounds counts : ∀ acc,
  acc ≤ max_rows acc counts
  ∧ (∀ c, c ∈ counts → c ≠ 0 → c ≤ max_rows acc counts)
  ∧ (∀ b, acc ≤ b → (∀ c, c ∈ counts → c ≤ b) → max_rows acc counts ≤ b).
Proof.
  unfold max_rows.
  induction counts as [|c0 counts IH]; intros acc; simpl.
  - split_and!; [lia| |auto]. intros c Hc. by apply elem_of_nil in Hc.
  - destruct (IH (if c0 =? 0 then acc else Z.max acc c0)) as (H1 & H2 & H3).
    split_and!.
    + destruct (c0 =? 0); lia.
    + intros c Hc Hne. apply elem_of_cons in Hc as [->|Hc]; [|by apply H2].
      destruct (Z.eqb_spec c0 0); [done|]. lia.
    + intros b Hacc Hall. apply H3.
      * specialize (Hall c0 (list_elem_of_here _ _)).
        destruct (c0 =? 0); lia.
      * intros c Hc. apply Hall. by apply list_elem_of_further.
Qed.

Lemma retained_all_empty counts : ∀ fs,
  (∀ c, c ∈ counts → c = 0) → retained counts fs = [].
Proof.
  induction counts as [|c0 counts IH]; intros fs Hall; [done|].
  destruct fs as [|f fs]; [done|]. simpl.
  rewrite (Hall c0) by apply list_elem_of_here. simpl.
  apply IH. intros c Hc. apply Hall. by apply list_elem_of_further.
Qed.

Lemma retained_elem_of counts : ∀ fs l,
  l ∈ retained counts fs →
  ∃ i c, counts !! i = Some c ∧ c ≠ 0 ∧ fs !! i = Some l.
Proof.
  induction counts as [|c0 counts IH]; intros fs l Hl.
  - by apply elem_of_nil in Hl.
  - destruct fs as [|f fs]; [by apply elem_of_nil in Hl|]. simpl in Hl.
    destruct (Z.eqb_spec c0 0) as [->|Hne].
    + destruct (IH fs l Hl) as (i & c & ?). by exists (S i), c.
    + apply elem_of_cons in Hl as [->|Hl].
      * by exists 0%nat, c0.
      * destruct (IH fs l Hl) as (i & c & ?). by exists (S i), c.
Qed.

(** The first loop on the whole vector. *)
Lemma squeeze_start counts fs :
  length counts = length fs →
  ∃ s,
    squeeze counts 0 (mkSqueeze true 0 (-1) fs) = Some s
    ∧ length (filters s) = length fs
    ∧ if poisoned counts fs then can_merge_in_filters s = false
      else can_merge_in_filters s = true
           ∧ num_rows s = max_rows 0 counts
           ∧ k s = Z.of_nat (length (retained counts fs)) - 1
           ∧ take (length (retained counts fs)) (filters s)
             = retained counts fs.
Proof.
  intros Hlen.
  destruct (squeeze_spec counts 0 (mkSqueeze true 0 (-1) fs) fs [])
    as (s & Hs & Hl & Hspec); simpl; try done.
  exists s. by split_and!.
Qed.

Lemma merge_bloom_filters_in_filters m status m' :
  merge_bloom_filters m = Some (status, m') →
  _partial_in_filters m' = _partial_in_filters m.
Proof.
  unfold merge_bloom_filters.
  destruct (is_empty _); [by intros [= _ <-]|].
  destruct (fill_all_bloom_filters _ _); simpl; [|done].
  by intros [= _ <-].
Qed.

Lemma merge_in_filters_abort st m :
  length (_ht_row_counts m) = length (_partial_in_filters m) →
  (0 < length (_ht_row_counts m))%nat →
  poisoned (_ht_row_counts m) (_partial_in_filters m) = true
  ∨ 1024 < max_rows 0 (_ht_row_counts m)
  ∨ retained (_ht_row_counts m) (_partial_in_filters m) = [] →
  ∃ fs, merge_in_filters st m = Some (OK, st, with_in_filters ([] :: fs) m).
Proof.
  intros Hlen Hpos Hcase. unfold merge_in_filters.
  destruct (squeeze_start _ _ Hlen) as (s & -> & Hl & Hspec). simpl.
  assert (can_merge_in_filters s && (num_rows s <=? 1024) && (0 <=? k s)
          = false) as ->.
  { destruct (poisoned _ _).
    - by rewrite Hspec.
    - destruct Hspec as (-> & -> & -> & _). simpl.
      destruct Hcase as [?|[Hmax|Hnone]]; [done| |].
      + rewrite (proj2 (Z.leb_gt _ _)) by done. done.
      + rewrite Hnone. simpl. apply andb_false_r. }
  simpl. destruct (filters s) as [|f fs] eqn:Hf.
  { simpl in Hl. lia. }
  simpl. by exists fs.
Qed.

Lemma retained_intro counts : ∀ fs i c l,
  counts !! i = Some c → c ≠ 0 → fs !! i = Some l →
  l ∈ retained counts fs.
Proof.
  induction counts as [|c0 counts IH]; intros fs i c l Hc Hne Hl.
  - by rewrite lookup_nil in Hc.
  - destruct fs as [|f fs]; [by rewrite lookup_nil in Hl|].
    destruct i as [|i]; simpl in *.
    + injection Hc as ->. injection Hl as ->.
      destruct (Z.eqb_spec c 0); [done|]. apply list_elem_of_here.
    + specialize (IH fs i c l Hc Hne Hl).
      destruct (c0 =? 0); [done|]. by apply list_elem_of_further.
Qed.

(** *** The second loop *)

Lemma addrs_cons_Some a l : addrs (Some a :: l) = a :: addrs l.
Proof. reflexivity. Qed.

Lemma addrs_cons_None l : addrs (None :: l) = addrs l.
Proof. reflexivity. Qed.

Lemma elem_of_addrs a l : a ∈ addrs l ↔ Some a ∈ l.
Proof.
  unfold addrs. rewrite list_elem_of_omap. split.
  - intros (x & Hx & Hid). simpl in Hid. by subst.
  - intros Hin. by exists (Some a).
Qed.

Lemma merge_in_filter_list_defined total : ∀ ins st,
  (length total ≤ length ins)%nat →
  ∃ status st' total',
    merge_in_filter_list st total ins = Some (status, st', total')
    ∧ length total' = length total.
Proof.
  induction total as [|t total IH]; intros ins st Hlen; simpl.
  - by exists OK, st, [].
  - destruct ins as [|f ins]; simpl in Hlen; [lia|].
    destruct t as [t|], f as [f|];
      try (destruct (IH ins st) as (s1 & st1 & tot1 & -> & Hl); [lia|];
           simpl; eexists _, _, _; split; [done|]; simpl; lia).
    destruct (Predicate_merge _ _) as [status merged].
    destruct (Status_ok status).
    + destruct (IH ins (store_set t (mkExprContext merged) st))
        as (s1 & st1 & tot1 & -> & Hl); [lia|].
      simpl. eexists _, _, _. split; [done|]. simpl. lia.
    + by eexists _, _, _.
Qed.

Lemma merge_partial_lists_defined partial : ∀ total st,
  (∀ l, l ∈ partial → (length total ≤ length l)%nat) →
  ∃ status st' total',
    merge_partial_lists st total partial = Some (status, st', total')
    ∧ length total' = length total.
Proof.
  induction partial as [|l partial IH]; intros total st Hlen; simpl.
  - by exists OK, st, total.
  - destruct (merge_in_filter_list_defined total l st)
      as (s1 & st1 & tot1 & -> & Hl); [apply Hlen, list_elem_of_here|].
    simpl. destruct (Status_ok s1).
    + destruct (IH tot1 st1) as (s2 & st2 & tot2 & -> & Hl2).
      { intros l' Hl'. rewrite Hl. by apply Hlen, list_elem_of_further. }
      eexists _, _, _. split; [done|]. lia.
    + by eexists _, _, _.
Qed.

(** With lists of one length among the retained builders, the merge of the
    IN-filters has a defined behaviour, whatever the predicates answer. *)
Lemma merge_in_filters_defined st m :
  length (_ht_row_counts m) = length (_partial_in_filters m) →
  (0 < length (_ht_row_counts m))%nat →
  (∀ l l', l ∈ retained (_ht_row_counts m) (_partial_in_filters m) →
           l' ∈ retained (_ht_row_counts m) (_partial_in_filters m) →
           length l = length l') →
  ∃ status st' fs,
    merge_in_filters st m = Some (status, st', with_in_filters fs m).
Proof.
  intros Hlen Hpos Haligned. unfold merge_in_filters.
  destruct (squeeze_start _ _ Hlen) as (s & -> & Hl & Hspec). simpl.
  destruct (can_merge_in_filters s && (num_rows s <=? 1024) && (0 <=? k s))
    eqn:Hcan; simpl.
  - destruct (poisoned _ _); [by rewrite Hspec in Hcan|].
    destruct Hspec as (_ & _ & Hk & Htake).
    replace (Z.to_nat (k s + 1))
      with (length (retained (_ht_row_counts m) (_partial_in_filters m)))
      by lia.
    rewrite resize_le.
    2:{ rewrite <- Htake at 1. rewrite length_take. lia. }
    rewrite Htake.
    destruct (retained _ _) as [|total partial] eqn:HR.
    { simpl in Hk. rewrite Hk in Hcan. simpl in Hcan.
      by rewrite andb_false_r in Hcan. }
    simpl. rewrite drop_0.
    destruct (merge_partial_lists_defined partial total st)
      as (s1 & st1 & tot1 & -> & _).
    { intros l Hin. erewrite (Haligned total l); [done| |].
      - apply list_elem_of_here.
      - by apply list_elem_of_further. }
    simpl. destruct (Status_ok s1); by eexists _, _, _.
  - destruct (filters s) as [|f fs] eqn:Hf; [simpl in Hl; lia|].
    simpl. by eexists _, _, _.
Qed.

(** *** The union, when the predicates merge as the spec describes *)

Section union.
Hypothesis merge_union :
  ∀ p q, ∃ r, Predicate_merge p q = (OK, r) ∧ in_set r = in_set p ∪ in_set q.

Lemma merge_in_filter_list_union total : ∀ ins st,
  (length total ≤ length ins)%nat →
  NoDup (addrs total) →
  (∀ a, a ∈ addrs total → a ∉ addrs ins) →
  ∃ st',
    merge_in_filter_list st total ins = Some (OK, st', zip_with both total ins)
    ∧ (∀ b, b ∉ addrs total → st' b = st b)
    ∧ (∀ j t f, total !! j = Some (Some t) → ins !! j = Some (Some f) →
                keys_of st' t = keys_of st t ∪ keys_of st f).
Proof.
  induction total as [|t0 total IH]; intros ins st Hlen Hnodup Hdisj; simpl.
  - exists st. split_and!; [done|done|]. intros j t f Hj. by rewrite lookup_nil in Hj.
  - destruct ins as [|f0 ins]; simpl in Hlen; [lia|].
    destruct t0 as [t0|].
    + rewrite addrs_cons_Some in Hnodup, Hdisj.
      apply NoDup_cons in Hnodup as [Hfresh Hnodup].
      destruct f0 as [f0|].
      * destruct (merge_union (root (st t0)) (root (st f0))) as (r & -> & Hr).
        simpl.
        set (st1 := store_set t0 (mkExprContext r) st).
        destruct (IH ins st1) as (st' & -> & Hframe & Hkeys);
          [lia|done| |].
        { intros a Ha Hin. apply (Hdisj a); [by apply list_elem_of_further|].
          rewrite addrs_cons_Some. by apply list_elem_of_further. }
        simpl. exists st'. split_and!; [done| |].
        -- intros b Hb. rewrite ?addrs_cons_Some in Hb.
           apply not_elem_of_cons in Hb as [Hne Hb].
           rewrite Hframe by done. unfold st1, store_set.
           by rewrite decide_False.
        -- intros [|j] t f Ht Hf; simpl in Ht, Hf.
           ++ injection Ht as ->. injection Hf as ->.
              unfold keys_of. rewrite Hframe by done.
              unfold st1, store_set. rewrite decide_True by done. done.
           ++ assert (t ∈ addrs total) as Htin
                by (apply elem_of_addrs; by eapply list_elem_of_lookup_2).
              assert (f ∈ addrs ins) as Hfin
                by (apply elem_of_addrs; by eapply list_elem_of_lookup_2).
              rewrite (Hkeys j t f) by done.
              unfold keys_of, st1, store_set.
              rewrite !decide_False; [done| |].
              ** intros ->. apply (Hdisj t0); [apply list_elem_of_here|].
                 rewrite addrs_cons_Some. by apply list_elem_of_further.
              ** intros ->. done.
      * destruct (IH ins st) as (st' & -> & Hframe & Hkeys); [lia|done| |].
        { intros a Ha Hin. apply (Hdisj a); [by apply list_elem_of_further|].
          by rewrite addrs_cons_None. }
        simpl. exists st'. split_and!; [done| |].
        -- intros b Hb. rewrite ?addrs_cons_Some in Hb.
           apply not_elem_of_cons in Hb as [Hne Hb]. by apply Hframe.
        -- intros [|j] t f Ht Hf; simpl in Ht, Hf; [done|]. by eapply Hkeys.
    + rewrite addrs_cons_None in Hnodup, Hdisj.
      assert (∀ a, a ∈ addrs total → a ∉ addrs ins) as Hdisj'.
      { intros a Ha Hin. apply (Hdisj a Ha).
        destruct f0; [rewrite addrs_cons_Some; by apply list_elem_of_further|].
        by rewrite addrs_cons_None. }
      destruct (IH ins st) as (st' & Hm & Hframe & Hkeys); [lia|done|done|].
      exists st'. split_and!.
      * destruct f0; rewrite Hm; done.
      * intros b Hb. rewrite ?addrs_cons_None in Hb. by apply Hframe.
      * intros [|j] t f Ht Hf; simpl in Ht, Hf; [done|]. by eapply Hkeys.
Qed.

Lemma lookup_zip_with_both total l j t :
  zip_with both total l !! j = Some (Some t)
  ↔ total !! j = Some (Some t) ∧ ∃ f, l !! j = Some (Some f).
Proof.
  rewrite lookup_zip_with.
  destruct (total !! j) as [[a|]|], (l !! j) as [[f|]|]; simpl;
    split; try done; try (intros [? [? ?]]; done).
  intros [= ->]. eauto.
Qed.

Lemma lookup_foldl_both partial : ∀ total j t,
  foldl (zip_with both) total partial !! j = Some (Some t)
  ↔ total !! j = Some (Some t)
    ∧ ∀ l, l ∈ partial → ∃ f, l !! j = Some (Some f).
Proof.
  induction partial as [|l0 partial IH]; intros total j t; simpl.
  - split; [|by intros [? _]]. intros Ht. split; [done|].
    intros l Hl. by apply elem_of_nil in Hl.
  - rewrite IH, lookup_zip_with_both. split.
    + intros [[Ht Hf] Hall]. split; [done|]. intros l Hl.
      apply elem_of_cons in Hl as [->|Hl]; auto.
    + intros [Ht Hall]. split_and!; [done| |].
      * apply Hall, list_elem_of_here.
      * intros l Hl. by apply Hall, list_elem_of_further.
Qed.

Lemma addrs_zip_with_both total l a :
  a ∈ addrs (zip_with both total l) → a ∈ addrs total.
Proof.
  rewrite !elem_of_addrs. intros Hin.
  apply list_elem_of_lookup_1 in Hin as [j Hj].
  apply lookup_zip_with_both in Hj as [Hj _].
  by eapply list_elem_of_lookup_2.
Qed.

Lemma NoDup_addrs_zip_with_both total : ∀ l,
  NoDup (addrs total) → NoDup (addrs (zip_with both total l)).
Proof.
  induction total as [|t total IH]; intros l Hnodup; simpl; [constructor|].
  destruct l as [|f l]; [constructor|]. simpl.
  destruct t as [t|].
  - rewrite addrs_cons_Some in Hnodup.
    apply NoDup_cons in Hnodup as [Hfresh Hnodup].
    destruct f as [f|]; simpl.
    + rewrite ?addrs_cons_Some. apply NoDup_cons. split; [|by apply IH].
      intros Hin. by apply Hfresh, (addrs_zip_with_both total l).
    + rewrite ?addrs_cons_None. by apply IH.
  - rewrite ?addrs_cons_None in Hnodup |- *. by apply IH.
Qed.

Lemma merge_partial_lists_union partial : ∀ total st,
  (∀ l, l ∈ partial → (length total ≤ length l)%nat) →
  NoDup (addrs total) →
  (∀ a l, a ∈ addrs total → l ∈ partial → a ∉ addrs l) →
  ∃ st',
    merge_partial_lists st total partial
    = Some (OK, st', foldl (zip_with both) total partial)
    ∧ (∀ b, b ∉ addrs total → st' b = st b)
    ∧ (∀ j t, foldl (zip_with both) total partial !! j = Some (Some t) →
         ∀ x, x ∈ keys_of st' t
              ↔ x ∈ keys_of st t
                ∨ ∃ l f, l ∈ partial ∧ l !! j = Some (Some f)
                         ∧ x ∈ keys_of st f).
Proof.
  induction partial as [|l0 partial IH]; intros total st Hlen Hnodup Hdisj;
    simpl.
  - exists st. split_and!; [done|done|]. intros j t _ x. split; [by left|].
    intros [?|(l & f & Hl & _)]; [done|]. by apply elem_of_nil in Hl.
  - destruct (merge_in_filter_list_union total l0 st)
      as (st1 & -> & Hframe1 & Hkeys1).
    { apply Hlen, list_elem_of_here. }
    { done. }
    { intros a Ha. apply (Hdisj a l0 Ha), list_elem_of_here. }
    simpl.
    destruct (IH (zip_with both total l0) st1) as (st' & -> & Hframe & Hkeys).
    { intros l Hl. rewrite length_zip_with.
      pose proof (Hlen l (list_elem_of_further _ _ _ Hl)). lia. }
    { by apply NoDup_addrs_zip_with_both. }
    { intros a l Ha Hl. apply (Hdisj a l).
      - by eapply addrs_zip_with_both.
      - by apply list_elem_of_further. }
    exists st'. split_and!; [done| |].
    + intros b Hb. rewrite Hframe; [by apply Hframe1|].
      intros Hin. by apply Hb, (addrs_zip_with_both total l0).
    + intros j t Hj x. rewrite (Hkeys j t Hj x).
      apply lookup_foldl_both in Hj as [Hj Hall].
      apply lookup_zip_with_both in Hj as [Ht [f0 Hf0]].
      rewrite (Hkeys1 j t f0 Ht Hf0).
      assert (∀ l f, l ∈ partial → l !! j = Some (Some f) →
                     keys_of st1 f = keys_of st f) as Hsame.
      { intros l f Hl Hf. unfold keys_of. rewrite Hframe1; [done|].
        intros Hin. apply (Hdisj f l Hin (list_elem_of_further _ _ _ Hl)).
        apply elem_of_addrs. by eapply list_elem_of_lookup_2. }
      rewrite elem_of_union. split.
      * intros [[?|?]|(l & f & Hl & Hf & Hx)].
        -- by left.
        -- right. exists l0, f0. split_and!; [apply list_elem_of_here|done|done].
        -- right. exists l, f. rewrite <- (Hsame l f Hl Hf).
           split_and!; [by apply list_elem_of_further|done|done].
      * intros [?|(l & f & Hl & Hf & Hx)]; [by left; left|].
        apply elem_of_cons in Hl as [->|Hl].
        -- left; right. congruence.
        -- right. exists l, f. by rewrite (Hsame l f Hl Hf).
Qed.

Lemma erase_null_elem_of t l : Some t ∈ erase_null l ↔ Some t ∈ l.
Proof.
  unfold erase_null. rewrite list_elem_of_filter. simpl.
  split; [by intros [_ ?]|by split].
Qed.

Lemma erase_null_no_null l : None ∉ erase_null l.
Proof.
  unfold erase_null. rewrite list_elem_of_filter. simpl. by intros [[] _].
Qed.

Lemma erase_null_cons p l :
  erase_null (p :: l) = if is_null p then erase_null l else p :: erase_null l.
Proof.
  unfold erase_null. rewrite filter_cons. by destruct p.
Qed.

Lemma erase_null_zip_sublist total : ∀ l,
  erase_null (zip_with both total l) `sublist_of` erase_null total.
Proof.
  induction total as [|t total IH]; intros l; [done|].
  destruct l as [|f l]; [apply sublist_nil_l|].
  simpl zip_with. rewrite !erase_null_cons.
  destruct t as [t|], f as [f|]; simpl.
  - by apply sublist_skip.
  - by apply sublist_cons.
  - done.
  - done.
Qed.

Lemma erase_null_foldl_sublist partial : ∀ total,
  erase_null (foldl (zip_with both) total partial)
  `sublist_of` erase_null total.
Proof.
  induction partial as [|l partial IH]; intros total; simpl; [done|].
  etrans; [apply IH|]. apply erase_null_zip_sublist.
Qed.

Lemma merge_in_filters_union st m :
  let R := retained (_ht_row_counts m) (_partial_in_filters m) in
  length (_ht_row_counts m) = length (_partial_in_filters m) →
  (0 < length (_ht_row_counts m))%nat →
  poisoned (_ht_row_counts m) (_partial_in_filters m) = false →
  max_rows 0 (_ht_row_counts m) ≤ 1024 →
  (∀ l l', l ∈ R → l' ∈ R → length l = length l') →
  NoDup (addrs (mjoin R)) →
  ∃ st' m' total,
    merge_in_filters st m = Some (OK, st', m')
    ∧ get_total_in_filters m' = Some total
    ∧ total `sublist_of` (default [] (head R))
    ∧ (None ∉ total)
    ∧ (∀ t, Some t ∈ total
            ↔ ∃ j, default [] (head R) !! j = Some (Some t)
                   ∧ all_present R j)
    ∧ (∀ j t, default [] (head R) !! j = Some (Some t) → all_present R j →
         ∀ x, x ∈ keys_of st' t
              ↔ ∃ l f, l ∈ R ∧ l !! j = Some (Some f) ∧ x ∈ keys_of st f).
Proof.
  intros R Hlen Hpos Hpoison Hmax Haligned Hnodup.
  destruct R as [|total partial] eqn:HR; unfold R in HR.
  { destruct (merge_in_filters_abort st m Hlen Hpos) as (fs & Hm); [auto|].
    exists st, (with_in_filters ([] :: fs) m), []. simpl.
    split_and!; try done.
    - by apply not_elem_of_nil.
    - intros t. split; [intros Hin; by apply elem_of_nil in Hin|].
      intros (j & Hj & _). by rewrite lookup_nil in Hj. }
  simpl in Hnodup. unfold addrs in Hnodup. rewrite omap_app in Hnodup.
  apply NoDup_app in Hnodup as (Hnd & Hdisj & _).
  destruct (merge_partial_lists_union partial total st)
    as (st' & Hmerge & Hframe & Hkeys).
  { intros l Hl. erewrite (Haligned total l); [done| |].
    - apply list_elem_of_here.
    - by apply list_elem_of_further. }
  { done. }
  { intros a l Ha Hl Hin. apply (Hdisj a Ha).
    apply elem_of_addrs in Hin. apply elem_of_addrs.
    apply list_elem_of_join. eauto. }
  unfold merge_in_filters.
  destruct (squeeze_start _ _ Hlen) as (s & -> & Hl & Hspec). simpl.
  rewrite Hpoison, HR in Hspec. destruct Hspec as (-> & -> & Hk & Htake).
  change (length (total :: partial)) with (S (length partial)) in Hk, Htake.
  rewrite (proj2 (Z.leb_le _ _)) by done.
  rewrite (proj2 (Z.leb_le 0 (k s))) by lia. simpl.
  replace (Z.to_nat (k s + 1)) with (S (length partial)) by lia.
  rewrite resize_le.
  2:{ pose proof (f_equal length Htake) as Hx.
      rewrite length_take in Hx.
      change (length (total :: partial)) with (S (length partial)) in Hx.
      lia. }
  rewrite Htake. simpl. rewrite ?drop_0, Hmerge. simpl.
  eexists st', _, _. split; [done|]. simpl.
  split; [done|]. split_and!.
  - etrans; [apply erase_null_foldl_sublist|]. apply sublist_filter.
  - apply erase_null_no_null.
  - intros t. rewrite erase_null_elem_of. split.
    + intros Hin. apply list_elem_of_lookup_1 in Hin as [j Hj].
      exists j. apply lookup_foldl_both in Hj as [Hj Hall].
      split; [done|]. intros l Hin.
      apply elem_of_cons in Hin as [->|Hin]; eauto.
    + intros (j & Hj & Hall). apply (list_elem_of_lookup_2 _ j).
      apply lookup_foldl_both. split; [done|]. intros l Hin.
      by apply Hall, list_elem_of_further.
  - intros j t Hj Hall x.
    assert (foldl (zip_with both) total partial !! j = Some (Some t)) as Hfin.
    { apply lookup_foldl_both. split; [done|]. intros l Hin.
      by apply Hall, list_elem_of_further. }
    rewrite (Hkeys j t Hfin x). split.
    + intros [Hx|(l & f & Hin & Hf & Hx)].
      * exists total, t. split_and!; [apply list_elem_of_here|done|done].
      * exists l, f. split_and!; [by apply list_elem_of_further|done|done].
    + intros (l & f & Hin & Hf & Hx).
      apply elem_of_cons in Hin as [->|Hin].
      * left. congruence.
      * right. eauto.
Qed.

End union.

(** *** The bloom filters *)

Lemma fill_bloom_filters_defined descs : ∀ params,
  (length params ≤ length descs)%nat →
  ∃ descs', fill_bloom_filters descs params = Some descs'
            ∧ length descs' = length descs.
Proof.
  induction descs as [|desc descs IH]; intros params Hlen.
  - destruct params; simpl in Hlen; [|lia]. by exists [].
  - destruct params as [|param params]; simpl; [by eexists|].
    simpl in Hlen. destruct (IH params) as (rest & -> & Hl); [lia|].
    simpl. eexists. split; [done|]. simpl. lia.
Qed.

Lemma fill_all_bloom_filters_defined all_params : ∀ descs,
  (∀ params, params ∈ all_params → (length params ≤ length descs)%nat) →
  ∃ descs', fill_all_bloom_filters descs all_params = Some descs'
            ∧ length descs' = length descs.
Proof.
  induction all_params as [|params all_params IH]; intros descs Hlen; simpl.
  - by exists descs.
  - destruct (fill_bloom_filters_defined descs params) as (descs1 & -> & Hl);
      [apply Hlen, list_elem_of_here|].
    simpl. destruct (IH descs1) as (descs2 & -> & Hl2).
    { intros ps Hps. rewrite Hl. by apply Hlen, list_elem_of_further. }
    exists descs2. split; [done|]. lia.
Qed.

Lemma merge_bloom_filters_defined m :
  (∀ params, params ∈ _partial_bloom_filter_build_params m →
             (length params ≤ length (_bloom_filter_descriptors m))%nat) →
  ∃ descs, merge_bloom_filters m = Some (OK, with_descriptors descs m).
Proof.
  intros Hlen. unfold merge_bloom_filters.
  destruct (is_empty _).
  - exists (_bloom_filter_descriptors m). by destruct m.
  - destruct (fill_all_bloom_filters_defined
                (_partial_bloom_filter_build_params m)
                (init_bloom_filter (_limit m)
                   (total_row_count (_ht_row_counts m))
                 <$> _bloom_filter_descriptors m)) as (descs & -> & _).
    { intros ps Hps. rewrite length_fmap. by apply Hlen. }
    by exists descs.
Qed.

Lemma filled_from_refl d : filled_from d d.
Proof. by unfold filled_from. Qed.

Lemma filled_from_trans d1 d2 d3 :
  filled_from d1 d2 → filled_from d2 d3 → filled_from d1 d3.
Proof.
  unfold filled_from.
  intros (-> & -> & -> & -> & -> & H12) (-> & -> & -> & -> & -> & H23).
  split_and!; auto.
Qed.

Lemma fill_bloom_filter_filled desc param :
  filled_from desc (fill_bloom_filter desc param).
Proof.
  unfold fill_bloom_filter.
  destruct (runtime_filter desc) as [filter|] eqn:Hf;
    [|apply filled_from_refl].
  destruct (column param) as [col|]; [|apply filled_from_refl].
  destruct (fill_runtime_bloom_filter _ _ _ _ _) as [status filter'].
  unfold filled_from.
  destruct (Status_ok status); simpl; split_and!; try done; by rewrite Hf.
Qed.

Lemma fill_bloom_filters_filled descs : ∀ params descs',
  fill_bloom_filters descs params = Some descs' →
  Forall2 filled_from descs descs'.
Proof.
  induction descs as [|desc descs IH]; intros params descs' Hfill.
  - destruct params; simpl in Hfill; [|done]. injection Hfill as <-.
    constructor.
  - destruct params as [|param params]; simpl in Hfill.
    + injection Hfill as <-. apply Forall2_same_length_lookup_2; [done|].
      intros i x y Hx Hy. rewrite Hx in Hy. injection Hy as <-.
      apply filled_from_refl.
    + destruct (fill_bloom_filters descs params) as [rest|] eqn:Hrest;
        simpl in Hfill; [|done].
      injection Hfill as <-. constructor.
      * apply fill_bloom_filter_filled.
      * by eapply IH.
Qed.

Lemma fill_all_bloom_filters_filled all_params : ∀ descs descs',
  fill_all_bloom_filters descs all_params = Some descs' →
  Forall2 filled_from descs descs'.
Proof.
  induction all_params as [|params all_params IH]; intros descs descs' Hfill;
    simpl in Hfill.
  - injection Hfill as <-. apply Forall2_same_length_lookup_2; [done|].
    intros i x y Hx Hy. rewrite Hx in Hy. injection Hy as <-.
    apply filled_from_refl.
  - destruct (fill_bloom_filters descs params) as [descs1|] eqn:H1;
      simpl in Hfill; [|done].
    apply fill_bloom_filters_filled in H1. apply IH in Hfill.
    eapply Forall2_trans; [|exact H1|exact Hfill].
    apply filled_from_trans.
Qed.

(** *** The slots after a history of calls *)

Lemma write_calls_fields calls : ∀ m,
  _limit (foldl write_call m calls) = _limit m
  ∧ _bloom_filter_descriptors (foldl write_call m calls)
    = _bloom_filter_descriptors m
  ∧ length (_ht_row_counts (foldl write_call m calls))
    = length (_ht_row_counts m)
  ∧ length (_partial_in_filters (foldl write_call m calls))
    = length (_partial_in_filters m)
  ∧ length (_partial_bloom_filter_build_params (foldl write_call m calls))
    = length (_partial_bloom_filter_build_params m).
Proof.
  induction calls as [|c calls IH]; intros m; simpl; [done|].
  destruct (IH (write_call m c)) as (-> & -> & -> & -> & ->).
  simpl. by rewrite !length_insert.
Qed.

Lemma write_calls_active calls : ∀ m n,
  _num_active_builders m = Z.of_nat n →
  Z.of_nat n < two64 →
  (length calls ≤ n)%nat →
  _num_active_builders (foldl write_call m calls)
  = Z.of_nat (n - length calls).
Proof.
  induction calls as [|c calls IH]; intros m n Hn Hlt Hlen; simpl.
  - by rewrite Nat.sub_0_r.
  - simpl in Hlen. destruct n as [|n]; [lia|].
    rewrite (IH (write_call m c) n); [done| |lia|lia].
    simpl. rewrite Hn. unfold wrap64. rewrite Z.mod_small; lia.
Qed.

Lemma write_calls_untouched calls : ∀ m i,
  (∀ c, c ∈ calls → call_idx c ≠ i) →
  _ht_row_counts (foldl write_call m calls) !! i = _ht_row_counts m !! i
  ∧ _partial_in_filters (foldl write_call m calls) !! i
    = _partial_in_filters m !! i.
Proof.
  induction calls as [|c calls IH]; intros m i Hne; simpl; [done|].
  destruct (IH (write_call m c) i) as [-> ->].
  { intros c' Hc'. by apply Hne, list_elem_of_further. }
  simpl. rewrite !list_lookup_insert_ne; [done| |];
    apply Hne, list_elem_of_here.
Qed.

Lemma write_calls_lookup calls : ∀ m c,
  NoDup (call_idx <$> calls) →
  c ∈ calls →
  (call_idx c < length (_ht_row_counts m))%nat →
  (call_idx c < length (_partial_in_filters m))%nat →
  _ht_row_counts (foldl write_call m calls) !! call_idx c
  = Some (call_ht_row_count c)
  ∧ _partial_in_filters (foldl write_call m calls) !! call_idx c
    = Some (call_in_filters c).
Proof.
  induction calls as [|c0 calls IH]; intros m c Hnodup Hin Hi1 Hi2.
  - by apply elem_of_nil in Hin.
  - rewrite fmap_cons in Hnodup. apply NoDup_cons in Hnodup as [Hfresh Hnodup].
    simpl. apply elem_of_cons in Hin as [->|Hin].
    + destruct (write_calls_untouched calls (write_call m c0) (call_idx c0))
        as [-> ->].
      { intros c' Hc' Heq. apply Hfresh. rewrite <- Heq.
        by apply list_elem_of_fmap_2. }
      simpl. by rewrite !list_lookup_insert_eq.
    + apply IH; simpl; rewrite ?length_insert; done.
Qed.

Lemma write_calls_params calls : ∀ m params,
  params ∈ _partial_bloom_filter_build_params (foldl write_call m calls) →
  params ∈ _partial_bloom_filter_build_params m
  ∨ ∃ c, c ∈ calls ∧ params = call_params c.
Proof.
  induction calls as [|c calls IH]; intros m params Hin; simpl in Hin.
  - by left.
  - destruct (IH _ _ Hin) as [Hm|(c' & Hc' & ->)].
    + simpl in Hm. apply list_elem_of_lookup_1 in Hm as [i Hi].
      destruct (decide (i = call_idx c)) as [->|Hne].
      * destruct (decide (call_idx c
                          < length (_partial_bloom_filter_build_params m))%nat).
        -- rewrite list_lookup_insert_eq in Hi by done. injection Hi as <-.
           right. exists c. split; [apply list_elem_of_here|done].
        -- rewrite list_insert_ge in Hi by lia. left.
           by eapply list_elem_of_lookup_2.
      * rewrite list_lookup_insert_ne in Hi by done. left.
        by eapply list_elem_of_lookup_2.
    + right. exists c'. split; [by apply list_elem_of_further|done].
Qed.

(** *** Histories of calls *)

Lemma run_app calls1 : ∀ calls2 st m,
  run (calls1 ++ calls2) st m
  = '(rs1, st1, m1) ← run calls1 st m;
    '(rs2, st2, m2) ← run calls2 st1 m1;
    Some (rs1 ++ rs2, st2, m2).
Proof.
  induction calls1 as [|c calls1 IH]; intros calls2 st m; simpl.
  - destruct (run calls2 st m) as [[[rs2 st2] m2]|]; done.
  - destruct (add_call c st m) as [[[r st1] m1]|]; simpl; [|done].
    rewrite IH. destruct (run calls1 st1 m1) as [[[rs1 st2] m2]|]; simpl; [|done].
    destruct (run calls2 st2 m2) as [[[rs2 st3] m3]|]; done.
Qed.

(** A call that is not the last one writes its slot and does nothing else. *)
Lemma add_call_not_last c st m :
  (call_idx c < length (_ht_row_counts m))%nat →
  (call_idx c < length (_partial_in_filters m))%nat →
  (call_idx c < length (_partial_bloom_filter_build_params m))%nat →
  _num_active_builders m ≠ 1 →
  add_call c st m = Some (Value false, st, write_call m c).
Proof.
  intros H1 H2 H3 Hne. unfold add_call, add_partial_filters, store_partial.
  assert ((1 =? _num_active_builders m) = false) as ->
    by (apply Z.eqb_neq; congruence).
  by rewrite decide_True.
Qed.

Lemma run_not_last calls : ∀ st m n,
  _num_active_builders m = Z.of_nat n →
  Z.of_nat n < two64 →
  (length calls < n)%nat →
  (∀ c, c ∈ calls →
        (call_idx c < length (_ht_row_counts m))%nat
        ∧ (call_idx c < length (_partial_in_filters m))%nat
        ∧ (call_idx c < length (_partial_bloom_filter_build_params m))%nat) →
  run calls st m
  = Some (replicate (length calls) (Value false), st, foldl write_call m calls).
Proof.
  induction calls as [|c calls IH]; intros st m n Hn Hlt Hlen Hidx; simpl.
  - done.
  - simpl in Hlen. destruct (Hidx c (list_elem_of_here _ _)) as (H1 & H2 & H3).
    rewrite add_call_not_last by (auto; lia). simpl.
    rewrite (IH st (write_call m c) (n - 1)%nat); [done| | | |].
    + simpl. rewrite Hn. unfold wrap64. rewrite Z.mod_small; lia.
    + lia.
    + lia.
    + intros c' Hc'. simpl. rewrite !length_insert.
      by apply Hidx, list_elem_of_further.
Qed.

(** The last call writes its slot, stores the descriptors and merges; the
    statuses of the two merges are dropped (lines 222-224). *)
Lemma add_call_last c st m :
  (call_idx c < length (_ht_row_counts m))%nat →
  (call_idx c < length (_partial_in_filters m))%nat →
  (call_idx c < length (_partial_bloom_filter_build_params m))%nat →
  _num_active_builders m = 1 →
  add_call c st m
  = '(_, st1, m1) ←
      merge_in_filters st
        (with_descriptors (call_descriptors c) (write_call m c));
    '(_, m2) ← merge_bloom_filters m1;
    Some (Value true, st1, m2).
Proof.
  intros H1 H2 H3 Hone. unfold add_call, add_partial_filters, store_partial.
  rewrite Hone. change (1 =? 1) with true. by rewrite decide_True.
Qed.

Lemma add_partial_filters_never_fails idx ht_row_count partial_in_filters
    params descs st m r st' m' :
  add_partial_filters idx ht_row_count partial_in_filters params descs st m
  = Some (r, st', m') →
  r = Value true ∨ r = Value false.
Proof.
  unfold add_partial_filters.
  destruct (1 =? _num_active_builders m);
    (destruct (store_partial _ _ _ _ _) as [m1|]; simpl; [|done]).
  - destruct (merge_in_filters _ _) as [[[s1 st1] m2]|]; simpl; [|done].
    destruct (merge_bloom_filters _) as [[s2 m3]|]; simpl; [|done].
    intros [= <- _ _]. by left.
  - intros [= <- _ _]. by right.
Qed.

Lemma create_fields limit n :
  _limit (create limit n) = limit
  ∧ _bloom_filter_descriptors (create limit n) = []
  ∧ length (_ht_row_counts (create limit n)) = n
  ∧ length (_partial_in_filters (create limit n)) = n
  ∧ length (_partial_bloom_filter_build_params (create limit n)) = n.
Proof. simpl. by rewrite !length_replicate. Qed.

(** C2. Let [n] builders call [add_partial_filters] once each, in any order
    (the indices of the calls are a permutation of 0..n-1). Every call
    before the last returns merged=false, leaves the store and the
    descriptors alone and only writes its slot. The last call stores its
    descriptors, runs [merge_in_filters] and [merge_bloom_filters] on the
    slots that the [n] calls have written, and returns merged=true; the two
    merges have a defined behaviour when the lists are positionally aligned
    (IN-filter lists of one length among the builders with a non-empty hash
    table, no more bloom parameters than descriptors). *)
Theorem add_partial_filters_rendezvous limit n calls st :
  Z.of_nat n < 2 ^ 64 →
  call_idx <$> calls ≡ₚ seq 0 n →
  (∀ j, (j < n)%nat →
        run (take j calls) st (create limit n)
        = Some (replicate j (Value false), st,
                foldl write_call (create limit n) (take j calls))
        ∧ _bloom_filter_descriptors
            (foldl write_call (create limit n) (take j calls)) = [])
  ∧ (∀ pre c, calls = pre ++ [c] →
       let collected :=
         with_descriptors (call_descriptors c)
           (foldl write_call (create limit n) calls) in
       run calls st (create limit n)
       = ('(_, st1, m1) ← merge_in_filters st collected;
          '(_, m2) ← merge_bloom_filters m1;
          Some (replicate (length pre) (Value false) ++ [Value true], st1, m2))
       ∧ ((∀ c1 c2, c1 ∈ calls → c2 ∈ calls →
                    call_ht_row_count c1 ≠ 0 → call_ht_row_count c2 ≠ 0 →
                    length (call_in_filters c1) = length (call_in_filters c2)) →
          (∀ c1, c1 ∈ calls →
                 (length (call_params c1) ≤ length (call_descriptors c))%nat) →
          ∃ status st1 m1 status' m2,
            merge_in_filters st collected = Some (status, st1, m1)
            ∧ merge_bloom_filters m1 = Some (status', m2)
            ∧ run calls st (create limit n)
              = Some (replicate (length pre) (Value false) ++ [Value true],
                      st1, m2))).
Proof.
  intros Hn Hperm.
  assert (length calls = n) as Hlen.
  { rewrite <- (length_fmap call_idx), Hperm. apply length_seq. }
  assert (∀ c, c ∈ calls → (call_idx c < n)%nat) as Hidx.
  { intros c Hc. apply (list_elem_of_fmap_2 call_idx) in Hc.
    rewrite Hperm in Hc. apply elem_of_seq in Hc. lia. }
  assert (NoDup (call_idx <$> calls)) as Hnodup
    by (rewrite Hperm; apply NoDup_seq).
  destruct (create_fields limit n) as (_ & Hd0 & Hl1 & Hl2 & Hl3).
  assert (_num_active_builders (create limit n) = Z.of_nat n) as Hactive.
  { simpl. unfold wrap64, two64. apply Z.mod_small. lia. }
  assert (∀ pre, (length pre < n)%nat → (∀ c, c ∈ pre → c ∈ calls) →
                 run pre st (create limit n)
                 = Some (replicate (length pre) (Value false), st,
                         foldl write_call (create limit n) pre)) as Hpre.
  { intros pre Hpl Hsub. apply (run_not_last pre st _ n); auto.
    intros c Hc. rewrite Hl1, Hl2, Hl3. split_and!; by apply Hidx, Hsub. }
  split.
  - intros j Hj. split.
    + specialize (Hpre (take j calls)). rewrite length_take in Hpre.
      rewrite Nat.min_l in Hpre by lia. apply Hpre; [lia|].
      intros c Hc. apply elem_of_take in Hc as (i & Hi & _).
      by eapply list_elem_of_lookup_2.
    + by destruct (write_calls_fields (take j calls) (create limit n))
        as (_ & -> & _).
  - intros pre c -> collected. rewrite length_app in Hlen. simpl in Hlen.
    set (m_pre := foldl write_call (create limit n) pre).
    set (m_all := foldl write_call (create limit n) (pre ++ [c])) in *.
    assert (m_all = write_call m_pre c) as Hsnoc
      by (unfold m_all, m_pre; by rewrite foldl_app).
    destruct (write_calls_fields pre (create limit n))
      as (_ & _ & Hp1 & Hp2 & Hp3). fold m_pre in Hp1, Hp2, Hp3.
    destruct (write_calls_fields (pre ++ [c]) (create limit n))
      as (_ & Hdall & Ha1 & Ha2 & Ha3). fold m_all in Hdall, Ha1, Ha2, Ha3.
    assert (_num_active_builders m_pre = 1) as Hone.
    { unfold m_pre. rewrite (write_calls_active pre _ n) by (auto; lia). lia. }
    assert (call_idx c < n)%nat as Hc
      by (apply Hidx, elem_of_app; right; apply list_elem_of_here).
    assert (run (pre ++ [c]) st (create limit n)
            = ('(_, st1, m1) ← merge_in_filters st collected;
               '(_, m2) ← merge_bloom_filters m1;
               Some (replicate (length pre) (Value false) ++ [Value true],
                     st1, m2))) as Hrun.
    { rewrite run_app, Hpre; [|lia|].
      2:{ intros c' Hc'. apply elem_of_app. by left. }
      simpl. fold m_pre. rewrite add_call_last by (auto; lia).
      rewrite <- Hsnoc. fold collected.
      destruct (merge_in_filters st collected) as [[[s1 st1] m1]|]; [|done].
      simpl. by destruct (merge_bloom_filters m1) as [[s2 m2]|]. }
    split; [exact Hrun|].
    intros Hin_aligned Hbloom_aligned.
    destruct (merge_in_filters_defined st collected)
      as (status & st1 & fs1 & Hmerge).
    { simpl. lia. }
    { simpl. lia. }
    { simpl. intros l l' Hl Hl'.
      assert (∀ l, l ∈ retained (_ht_row_counts m_all)
                         (_partial_in_filters m_all) →
                   ∃ c', c' ∈ pre ++ [c] ∧ call_ht_row_count c' ≠ 0
                         ∧ call_in_filters c' = l) as Hfrom.
      { intros l0 Hl0.
        apply retained_elem_of in Hl0 as (i & cnt & Hcnt & Hne & Hfs).
        assert (i < n)%nat as Hi by (apply lookup_lt_Some in Hcnt; lia).
        assert (i ∈ call_idx <$> pre ++ [c]) as Hiin
          by (rewrite Hperm; apply elem_of_seq; lia).
        apply list_elem_of_fmap in Hiin as (c' & -> & Hc').
        destruct (write_calls_lookup (pre ++ [c]) (create limit n) c')
          as [Hc1 Hc2]; [done|done|lia|lia|].
        fold m_all in Hc1, Hc2. exists c'. split_and!; [done| |congruence].
        congruence. }
      destruct (Hfrom l Hl) as (c1 & Hc1 & Hne1 & <-).
      destruct (Hfrom l' Hl') as (c2 & Hc2 & Hne2 & <-).
      by apply Hin_aligned. }
    set (m1 := with_in_filters fs1 collected) in *.
    destruct (merge_bloom_filters_defined m1) as (descs & Hbloom).
    { simpl. intros params Hparams. fold m_all in Hparams.
      apply write_calls_params in Hparams as [Hinit|(c' & Hc' & ->)].
      - simpl in Hinit. apply elem_of_replicate in Hinit as [-> _].
        simpl. lia.
      - by apply Hbloom_aligned. }
    exists status, st1, m1, OK, (with_descriptors descs m1).
    split_and!; [done|done|].
    rewrite Hrun, Hmerge. simpl. by rewrite Hbloom.
Qed.

(** *** The limit *)

Lemma total_row_count_sum counts : ∀ acc,
  0 ≤ acc →
  (∀ c, c ∈ counts → 0 ≤ c) →
  acc + sum_rows counts < two64 →
  foldl (λ row_count count, wrap64 (row_count + count)) acc counts
  = acc + sum_rows counts.
Proof.
  induction counts as [|c counts IH]; intros acc Hacc Hpos Hsum; simpl in *.
  - lia.
  - assert (0 ≤ c) by apply Hpos, list_elem_of_here.
    assert (∀ c', c' ∈ counts → 0 ≤ c') as Hpos'
      by (intros c' Hc'; by apply Hpos, list_elem_of_further).
    assert (0 ≤ sum_rows counts) as Hs.
    { clear -Hpos'. induction counts as [|c' counts IH]; simpl; [lia|].
      pose proof (Hpos' c' (list_elem_of_here _ _)).
      assert (0 ≤ sum_rows counts); [|lia].
      apply IH. intros c'' Hc''. by apply Hpos', list_elem_of_further. }
    unfold wrap64 at 2. rewrite Z.mod_small by (unfold two64 in *; lia).
    rewrite IH; [lia|lia|done|lia].
Qed.

Lemma merge_in_filters_with_limit st m limit :
  merge_in_filters st (with_limit limit m)
  = (λ '(status, st', m'), (status, st', with_limit limit m'))
      <$> merge_in_filters st m.
Proof.
  unfold merge_in_filters. simpl.
  destruct (squeeze _ _ _) as [s|]; simpl; [|done].
  destruct (can_merge_in_filters s && (num_rows s <=? 1024) && (0 <=? k s));
    simpl.
  - destruct (resize _ _ _ !! 0%nat) as [total|]; simpl; [|done].
    destruct (merge_partial_lists _ _ _) as [[[status st'] total']|];
      simpl; [|done].
    by destruct (Status_ok status).
  - by destruct (filters s !! 0%nat).
Qed.

Lemma init_bloom_filter_limit limit1 limit2 row_count desc :
  (has_consumer desc = true → has_remote_targets desc = false →
   (limit1 <? row_count) = (limit2 <? row_count)) →
  init_bloom_filter limit1 row_count desc
  = init_bloom_filter limit2 row_count desc.
Proof.
  unfold init_bloom_filter. simpl.
  destruct (has_consumer desc); simpl; [|done].
  destruct (has_remote_targets desc); simpl; [done|].
  intros Hsame. by rewrite Hsame.
Qed.

Lemma merge_bloom_filters_with_limit m limit :
  (∀ desc, desc ∈ _bloom_filter_descriptors m →
           has_consumer desc = true → has_remote_targets desc = false →
           (limit <? total_row_count (_ht_row_counts m))
           = (_limit m <? total_row_count (_ht_row_counts m))) →
  merge_bloom_filters (with_limit limit m)
  = (λ '(status, m'), (status, with_limit limit m'))
      <$> merge_bloom_filters m.
Proof.
  intros Hsame. unfold merge_bloom_filters. simpl.
  destruct (is_empty _); [done|].
  assert (init_bloom_filter limit (total_row_count (_ht_row_counts m))
            <$> _bloom_filter_descriptors m
          = init_bloom_filter (_limit m) (total_row_count (_ht_row_counts m))
              <$> _bloom_filter_descriptors m) as ->.
  { apply list_fmap_ext. intros i desc Hi.
    apply init_bloom_filter_limit. apply Hsame.
    by eapply list_elem_of_lookup_2. }
  by destruct (fill_all_bloom_filters _ _).
Qed.

Lemma write_calls_with_limit calls : ∀ m limit,
  foldl write_call (with_limit limit m) calls
  = with_limit limit (foldl write_call m calls).
Proof.
  induction calls as [|c calls IH]; intros m limit; simpl; [done|].
  by rewrite <- IH.
Qed.

End merger_facts.

(** C1. Whatever the merger's [limit]: when some builder with a non-empty
    hash table supplied an empty IN-filter list, or the largest row count
    exceeds 1024 (the IN-list limit of line 257), or no builder has a
    non-empty hash table, [merge_in_filters] clears the IN-filter list of
    slot 0 and returns OK, so that [get_total_in_filters] returns the empty
    list, also after [merge_bloom_filters] has run. *)
Theorem merge_in_filters_unsound_is_empty `{Collaborators}
    (st : store) (m : Merger.PartialRuntimeFilterMerger) :
  length (Merger._ht_row_counts m) = length (Merger._partial_in_filters m) →
  (0 < length (Merger._ht_row_counts m))%nat →
  (∃ i c, Merger._ht_row_counts m !! i = Some c ∧ 0 < c
          ∧ Merger._partial_in_filters m !! i = Some [])
  ∨ (∃ c, c ∈ Merger._ht_row_counts m ∧ 1024 < c)
  ∨ (∀ c, c ∈ Merger._ht_row_counts m → c = 0) →
  ∃ m',
    Merger.merge_in_filters st m = Some (OK, st, m')
    ∧ Merger._partial_in_filters m' !! 0%nat = Some []
    ∧ Merger.get_total_in_filters m' = Some []
    ∧ ∀ status m'', Merger.merge_bloom_filters m' = Some (status, m'') →
                    Merger.get_total_in_filters m'' = Some [].
Proof.
  intros Hlen Hpos Hcase.
  destruct (merge_in_filters_abort st m Hlen Hpos) as (fs & Hm).
  { destruct Hcase as [(i & c & Hc & Hlt & Hf)|[(c & Hc & Hlt)|Hnone]].
    - left. apply (poisoned_intro _ _ i c); auto with lia.
    - right; left.
      pose proof (max_rows_bounds (Merger._ht_row_counts m) 0) as (_ & Hmax & _).
      specialize (Hmax c Hc). lia.
    - right; right. by apply retained_all_empty. }
  eexists. split; [exact Hm|]. split_and!; try done.
  intros status m'' Hb. unfold Merger.get_total_in_filters.
  by rewrite (merge_bloom_filters_in_filters _ _ _ Hb).
Qed.

(** C5. When every builder with a non-empty hash table supplied a non-empty
    IN-filter list and no row count exceeds 1024, [merge_in_filters] leaves
    in slot 0 the positional union of the retained lists (those of the
    builders with a non-empty hash table), provided the lists are aligned
    (of one length), the filters are distinct objects and [Predicate::merge]
    is the union of the IN-sets: the result keeps, in order, the filters of
    the first retained list at the positions where no retained list is null;
    each filter kept holds every key that a retained list holds at its
    position, and no other key. Builders with an empty hash table are
    skipped, so when they hold no key, "a retained list" is "a list of any
    builder". *)
Theorem merge_in_filters_positional_union `{Collaborators}
    (st : store) (m : Merger.PartialRuntimeFilterMerger) :
  let counts := Merger._ht_row_counts m in
  let fs := Merger._partial_in_filters m in
  let R := retained counts fs in
  (∀ p q, ∃ r, Predicate_merge p q = (OK, r)
               ∧ in_set r = in_set p ∪ in_set q) →
  length counts = length fs →
  (0 < length counts)%nat →
  (∀ i c l, counts !! i = Some c → c ≠ 0 → fs !! i = Some l → l ≠ []) →
  (∀ c, c ∈ counts → c ≤ 1024) →
  (∀ l l', l ∈ R → l' ∈ R → length l = length l') →
  NoDup (addrs (mjoin R)) →
  ∃ st' m' total,
    Merger.merge_in_filters st m = Some (OK, st', m')
    ∧ Merger.get_total_in_filters m' = Some total
    ∧ total `sublist_of` (default [] (head R))
    ∧ (None ∉ total)
    ∧ (∀ t, Some t ∈ total
            ↔ ∃ j, default [] (head R) !! j = Some (Some t)
                   ∧ all_present R j)
    ∧ (∀ j t, default [] (head R) !! j = Some (Some t) → all_present R j →
         (∀ x, x ∈ keys_of st' t
               ↔ ∃ l f, l ∈ R ∧ l !! j = Some (Some f) ∧ x ∈ keys_of st f)
         ∧ ((∀ i l f, counts !! i = Some 0 → fs !! i = Some l →
                      Some f ∈ l → keys_of st f = ∅) →
            ∀ x, x ∈ keys_of st' t
                 ↔ ∃ l f, l ∈ fs ∧ l !! j = Some (Some f)
                          ∧ x ∈ keys_of st f)).
Proof.
  intros counts fs R Hunion Hlen Hpos Hfilled Hsmall Haligned Hnodup.
  destruct (merge_in_filters_union Hunion st m)
    as (st' & m' & total & Hm & Htotal & Hsub & Hnull & Hin & Hkeys); auto.
  { by apply poisoned_false. }
  { pose proof (max_rows_bounds counts 0) as (_ & _ & Hmax).
    apply Hmax; [lia|done]. }
  exists st', m', total. split_and!; try done.
  intros j t Hj Hall. split; [by apply Hkeys|].
  intros Hempty x. rewrite (Hkeys j t Hj Hall x). split.
  - intros (l & f & Hl & Hf & Hx). exists l, f. split_and!; [|done|done].
    apply retained_elem_of in Hl as (i & c & _ & _ & Hl).
    by eapply list_elem_of_lookup_2.
  - intros (l & f & Hl & Hf & Hx). exists l, f. split_and!; [|done|done].
    apply list_elem_of_lookup_1 in Hl as [i Hi].
    destruct (counts !! i) as [c|] eqn:Hc.
    + destruct (decide (c = 0)) as [->|Hne].
      * rewrite (Hempty i l f Hc Hi) in Hx; [by apply not_elem_of_empty in Hx|].
        by eapply list_elem_of_lookup_2.
      * by eapply retained_intro.
    + apply lookup_ge_None in Hc. apply lookup_lt_Some in Hi.
      unfold counts, fs in *. lia.
Qed.

Lemma merge_in_filters_positional_union_witness :
  let counts := Merger._ht_row_counts S1_merger in
  let fs := Merger._partial_in_filters S1_merger in
  let R := retained counts fs in
  ∃ st' m' total,
    Merger.merge_in_filters S1_store S1_merger = Some (OK, st', m')
    ∧ Merger.get_total_in_filters m' = Some total
    ∧ total `sublist_of` (default [] (head R))
    ∧ (None ∉ total)
    ∧ (∀ t, Some t ∈ total
            ↔ ∃ j, default [] (head R) !! j = Some (Some t)
                   ∧ all_present R j)
    ∧ (∀ j t, default [] (head R) !! j = Some (Some t) → all_present R j →
         (∀ x, x ∈ keys_of st' t
               ↔ ∃ l f, l ∈ R ∧ l !! j = Some (Some f)
                        ∧ x ∈ keys_of S1_store f)
         ∧ ((∀ i l f, counts !! i = Some 0 → fs !! i = Some l →
                      Some f ∈ l → keys_of S1_store f = ∅) →
            ∀ x, x ∈ keys_of st' t
                 ↔ ∃ l f, l ∈ fs ∧ l !! j = Some (Some f)
                          ∧ x ∈ keys_of S1_store f)).
Proof.
  apply (@merge_in_filters_positional_union (sample_collaborators OK)
           S1_store S1_merger).
  - intros p q. eexists. split; reflexivity.
  - reflexivity.
  - simpl. lia.
  - intros [|[|[|i]]] c l Hc Hne Hl; simpl in Hc, Hl; by simplify_eq.
  - intros c Hc. simpl in Hc.
    repeat (apply elem_of_cons in Hc as [->|Hc]); try lia.
    by apply elem_of_nil in Hc.
  - intros l l' Hl Hl'. simpl in Hl, Hl'.
    repeat (apply elem_of_cons in Hl as [->|Hl]);
      try (by apply elem_of_nil in Hl);
      repeat (apply elem_of_cons in Hl' as [->|Hl']);
      try (by apply elem_of_nil in Hl'); reflexivity.
  - simpl. apply (bool_decide_unpack _). vm_compute. exact I.
Defined.

(** Scenario S1, evaluated: the merged list is the filter of builder 0, and
    it holds the keys 1 to 5. *)
Example merge_in_filters_S1 :
  (λ '(status, st', m'),
     (status, Merger.get_total_in_filters m', keys_of st' 0%nat))
    <$> Merger.merge_in_filters S1_store S1_merger
  = Some (OK, Some [Some 0%nat], {[1; 2; 3; 4; 5]}).
Proof. vm_compute. reflexivity. Qed.

Lemma merge_in_filters_unsound_is_empty_witness :
  ∃ m',
    Merger.merge_in_filters S1_store S3_merger = Some (OK, S1_store, m')
    ∧ Merger._partial_in_filters m' !! 0%nat = Some []
    ∧ Merger.get_total_in_filters m' = Some []
    ∧ ∀ status m'', Merger.merge_bloom_filters m' = Some (status, m'') →
                    Merger.get_total_in_filters m'' = Some [].
Proof.
  apply (@merge_in_filters_unsound_is_empty (sample_collaborators OK)
           S1_store S3_merger).
  - reflexivity.
  - simpl. lia.
  - left. exists 1%nat, 500. split_and!; [reflexivity|lia|reflexivity].
Defined.

Lemma add_partial_filters_rendezvous_witness :
  let calls := S1_calls OK in
  (∀ j, (j < 3)%nat →
        Merger.run (take j calls) S1_store (Merger.create 1024 3)
        = Some (replicate j (Value false), S1_store,
                foldl Merger.write_call (Merger.create 1024 3) (take j calls))
        ∧ Merger._bloom_filter_descriptors
            (foldl Merger.write_call (Merger.create 1024 3) (take j calls))
          = [])
  ∧ (∀ pre c, calls = pre ++ [c] →
       let collected :=
         Merger.with_descriptors (Merger.call_descriptors c)
           (foldl Merger.write_call (Merger.create 1024 3) calls) in
       Merger.run calls S1_store (Merger.create 1024 3)
       = ('(_, st1, m1) ← Merger.merge_in_filters S1_store collected;
          '(_, m2) ← Merger.merge_bloom_filters m1;
          Some (replicate (length pre) (Value false) ++ [Value true], st1, m2))
       ∧ ((∀ c1 c2, c1 ∈ calls → c2 ∈ calls →
                    Merger.call_ht_row_count c1 ≠ 0 →
                    Merger.call_ht_row_count c2 ≠ 0 →
                    length (Merger.call_in_filters c1)
                    = length (Merger.call_in_filters c2)) →
          (∀ c1, c1 ∈ calls →
                 (length (Merger.call_params c1)
                  ≤ length (Merger.call_descriptors c))%nat) →
          ∃ status st1 m1 status' m2,
            Merger.merge_in_filters S1_store collected = Some (status, st1, m1)
            ∧ Merger.merge_bloom_filters m1 = Some (status', m2)
            ∧ Merger.run calls S1_store (Merger.create 1024 3)
              = Some (replicate (length pre) (Value false) ++ [Value true],
                      st1, m2))).
Proof.
  apply (@add_partial_filters_rendezvous (sample_collaborators OK)
           1024 3 (S1_calls OK) S1_store).
  - vm_compute. reflexivity.
  - simpl. etrans; [apply perm_swap|]. apply perm_skip, perm_swap.
Defined.

(** Scenario S1 as a history of calls: the first two calls return
    merged=false and the third merged=true; the merged IN-filter list is the
    filter of builder 0 with the keys 1 to 5, and the bloom filter of the
    descriptor has size 30 and the values of the three builders. *)
Example run_S1 :
  (λ '(results, st', m'),
     (results, Merger.get_total_in_filters m', keys_of st' 0%nat,
      Merger.runtime_filter <$> Merger.get_total_bloom_filters m'))
    <$> Merger.run (S1_calls OK) S1_store (Merger.create 1024 3)
  = Some ([Value false; Value false; Value true], Some [Some 0%nat],
          {[1; 2; 3; 4; 5]},
          [Some (mkSampleFilter 30 2 [1; 2; 3; 3; 4; 5])]).
Proof. vm_compute. reflexivity. Qed.

(** C3, on the code: what the last call does when a predicate merge fails.
    With two builders of five rows and one IN-filter each, and a predicate
    whose [merge] answers error 7, [merge_in_filters] returns that error on
    the collected slots, and the second (last) call of [add_partial_filters]
    still returns merged=true: the status of [merge_in_filters] is dropped
    at line 222. No call of [add_partial_filters] returns an error status,
    whatever its inputs. *)
Theorem add_partial_filters_drops_merge_error :
  (let calls := two_builder_calls (NotOK 7) in
   let collected :=
     Merger.with_descriptors (sample_descriptors (NotOK 7))
       (foldl Merger.write_call (Merger.create 1024 2) calls) in
   (λ '(status, _, _), status)
     <$> Merger.merge_in_filters S1_store collected = Some (NotOK 7)
   ∧ (λ '(results, _, _), results)
       <$> Merger.run calls S1_store (Merger.create 1024 2)
     = Some [Value false; Value true])
  ∧ (∀ (H : Collaborators) idx ht_row_count partial_in_filters params descs
       st m,
       match Merger.add_partial_filters idx ht_row_count partial_in_filters
               params descs st m with
       | Some (Failed _, _, _) => False
       | _ => True
       end).
Proof.
  split.
  - vm_compute. split; reflexivity.
  - intros H idx ht_row_count partial_in_filters params descs st m.
    destruct (Merger.add_partial_filters _ _ _ _ _ _ _)
      as [[[r st'] m']|] eqn:Hadd; [|done].
    by destruct (add_partial_filters_never_fails _ _ _ _ _ _ _ _ _ _ Hadd)
      as [-> | ->].
Qed.

(** C6. For a merger with at least one builder, whose row counts add up
    below 2^64: [merge_bloom_filters] computes [row_count] as the sum of all
    row counts, and its first loop treats every descriptor as follows: the
    descriptor is marked pipeline-originated; its filter is left as it was
    if it has no consumer, or if it has no remote targets and [row_count]
    exceeds the limit; otherwise the filter that the helper creates for the
    build type is initialised to [row_count], given the join mode of the
    descriptor and installed (the descriptor is left as it was when the
    helper returns null). The second loop then fills these filters or drops
    them, changes nothing else, and gives no filter to a descriptor that
    the first loop left without one; the status returned is OK. *)
Theorem merge_bloom_filters_builds `{Collaborators}
    (m : Merger.PartialRuntimeFilterMerger) :
  let counts := Merger._ht_row_counts m in
  let row_count := sum_rows counts in
  Merger._partial_bloom_filter_build_params m ≠ [] →
  (∀ c, c ∈ counts → 0 ≤ c) →
  row_count < 2 ^ 64 →
  Merger.total_row_count counts = row_count
  ∧ Merger.merge_bloom_filters m
    = (descs ← Merger.fill_all_bloom_filters
                 (Merger.init_bloom_filter (Merger._limit m) row_count
                  <$> Merger._bloom_filter_descriptors m)
                 (Merger._partial_bloom_filter_build_params m);
       Some (OK, Merger.with_descriptors descs m))
  ∧ (∀ desc, desc ∈ Merger._bloom_filter_descriptors m →
      let desc' := Merger.init_bloom_filter (Merger._limit m) row_count desc in
      Merger.is_pipeline desc' = true
      ∧ Merger.has_consumer desc' = Merger.has_consumer desc
      ∧ Merger.has_remote_targets desc' = Merger.has_remote_targets desc
      ∧ Merger.build_expr_type desc' = Merger.build_expr_type desc
      ∧ Merger.join_mode desc' = Merger.join_mode desc
      ∧ (Merger.has_consumer desc = false →
         Merger.runtime_filter desc' = Merger.runtime_filter desc)
      ∧ (Merger.has_remote_targets desc = false →
         Merger._limit m < row_count →
         Merger.runtime_filter desc' = Merger.runtime_filter desc)
      ∧ (Merger.has_consumer desc = true →
         Merger.has_remote_targets desc = true ∨ row_count ≤ Merger._limit m →
         match create_runtime_bloom_filter (Merger.build_expr_type desc) with
         | Some filter =>
             Merger.runtime_filter desc'
             = Some (filter_set_join_mode (Merger.join_mode desc)
                       (filter_init row_count filter))
         | None => Merger.runtime_filter desc' = Merger.runtime_filter desc
         end))
  ∧ (∀ status m', Merger.merge_bloom_filters m = Some (status, m') →
       status = OK
       ∧ Forall2 filled_from
           (Merger.init_bloom_filter (Merger._limit m) row_count
            <$> Merger._bloom_filter_descriptors m)
           (Merger.get_total_bloom_filters m')).
Proof.
  intros counts row_count Hbuilders Hpos Hsum.
  assert (Merger.total_row_count counts = row_count) as Hrows.
  { unfold Merger.total_row_count.
    rewrite total_row_count_sum; [fold row_count; lia|lia|done|].
    fold row_count. unfold two64. lia. }
  assert (Merger.merge_bloom_filters m
          = (descs ← Merger.fill_all_bloom_filters
                       (Merger.init_bloom_filter (Merger._limit m) row_count
                        <$> Merger._bloom_filter_descriptors m)
                       (Merger._partial_bloom_filter_build_params m);
             Some (OK, Merger.with_descriptors descs m))) as Hmerge.
  { unfold Merger.merge_bloom_filters. fold counts. rewrite Hrows.
    by destruct (Merger._partial_bloom_filter_build_params m). }
  split; [done|]. split; [done|]. split.
  2:{ intros status m' Hm. rewrite Hmerge in Hm.
      destruct (Merger.fill_all_bloom_filters _ _) as [descs|] eqn:Hfill;
        simpl in Hm; [|done].
      injection Hm as <- <-. split; [done|]. simpl.
      by eapply fill_all_bloom_filters_filled. }
  - intros desc _ desc'. unfold desc', Merger.init_bloom_filter. simpl.
    destruct (Merger.has_consumer desc) eqn:Hcons; simpl.
    2:{ split_and!; try done. }
    destruct (Merger.has_remote_targets desc) eqn:Hremote; simpl.
    + destruct (create_runtime_bloom_filter _); simpl; split_and!; done.
    + destruct (Z.ltb_spec (Merger._limit m) row_count) as [Hlt|Hge]; simpl.
      * split_and!; try done. intros _ [?|?]; [done|lia].
      * destruct (create_runtime_bloom_filter _); simpl; split_and!;
          try done; intros; lia.
Qed.

Lemma merge_bloom_filters_builds_witness :
  let m := Merger.with_descriptors (sample_descriptors OK) S1_merger in
  let counts := Merger._ht_row_counts m in
  let row_count := sum_rows counts in
  Merger.total_row_count counts = row_count
  ∧ Merger.merge_bloom_filters m
    = (descs ← Merger.fill_all_bloom_filters
                 (Merger.init_bloom_filter (Merger._limit m) row_count
                  <$> Merger._bloom_filter_descriptors m)
                 (Merger._partial_bloom_filter_build_params m);
       Some (OK, Merger.with_descriptors descs m))
  ∧ (∀ desc, desc ∈ Merger._bloom_filter_descriptors m →
      let desc' := Merger.init_bloom_filter (Merger._limit m) row_count desc in
      Merger.is_pipeline desc' = true
      ∧ Merger.has_consumer desc' = Merger.has_consumer desc
      ∧ Merger.has_remote_targets desc' = Merger.has_remote_targets desc
      ∧ Merger.build_expr_type desc' = Merger.build_expr_type desc
      ∧ Merger.join_mode desc' = Merger.join_mode desc
      ∧ (Merger.has_consumer desc = false →
         Merger.runtime_filter desc' = Merger.runtime_filter desc)
      ∧ (Merger.has_remote_targets desc = false →
         Merger._limit m < row_count →
         Merger.runtime_filter desc' = Merger.runtime_filter desc)
      ∧ (Merger.has_consumer desc = true →
         Merger.has_remote_targets desc = true ∨ row_count ≤ Merger._limit m →
         match create_runtime_bloom_filter (Merger.build_expr_type desc) with
         | Some filter =>
             Merger.runtime_filter desc'
             = Some (filter_set_join_mode (Merger.join_mode desc)
                       (filter_init row_count filter))
         | None => Merger.runtime_filter desc' = Merger.runtime_filter desc
         end))
  ∧ (∀ status m', Merger.merge_bloom_filters m = Some (status, m') →
       status = OK
       ∧ Forall2 filled_from
           (Merger.init_bloom_filter (Merger._limit m) row_count
            <$> Merger._bloom_filter_descriptors m)
           (Merger.get_total_bloom_filters m')).
Proof.
  apply (@merge_bloom_filters_builds (sample_collaborators OK)
           (Merger.with_descriptors (sample_descriptors OK) S1_merger)).
  - discriminate.
  - intros c Hc. simpl in Hc.
    repeat (apply elem_of_cons in Hc as [->|Hc]); try lia.
    by apply elem_of_nil in Hc.
  - vm_compute. reflexivity.
Defined.

(** C9. The limit of the merger plays no part in [merge_in_filters]: two
    mergers that differ in their limit only give the same status, store and
    slots, and two mergers constructed with different limits differ in their
    limit only after the same calls have written their slots. The threshold of the IN-filters is the constant 1024: a single
    builder with a non-empty list keeps it (nulls erased) exactly when its
    row count is not zero and at most 1024, whatever the limit. In
    [merge_bloom_filters] the limit is read in one test only, the one that
    skips a descriptor with a consumer and without remote targets. *)
Theorem merge_in_filters_ignores_limit `{Collaborators}
    (st : store) (m : Merger.PartialRuntimeFilterMerger) (limit : Z) :
  Merger.merge_in_filters st (Merger.with_limit limit m)
  = (λ '(status, st', m'), (status, st', Merger.with_limit limit m'))
      <$> Merger.merge_in_filters st m
  ∧ (∀ limit' n calls,
       foldl Merger.write_call (Merger.create limit n) calls
       = Merger.with_limit limit
           (foldl Merger.write_call (Merger.create limit' n) calls))
  ∧ (∀ active count p l params descs,
       Merger.merge_in_filters st
         (Merger.mkMerger limit active [count] [p :: l] params descs)
       = Some (OK, st,
               Merger.mkMerger limit active [count]
                 [if negb (count =? 0) && (count <=? 1024)
                  then Merger.erase_null (p :: l) else []]
                 params descs))
  ∧ (∀ row_count desc,
       Merger.init_bloom_filter limit row_count desc
       = if Merger.has_consumer desc && negb (Merger.has_remote_targets desc)
            && (limit <? row_count)
         then Merger.set_is_pipeline true desc
         else Merger.init_bloom_filter row_count row_count desc)
  ∧ ((∀ desc, desc ∈ Merger._bloom_filter_descriptors m →
              Merger.has_consumer desc = false
              ∨ Merger.has_remote_targets desc = true) →
     Merger.merge_bloom_filters (Merger.with_limit limit m)
     = (λ '(status, m'), (status, Merger.with_limit limit m'))
         <$> Merger.merge_bloom_filters m).
Proof.
  split_and!.
  - apply merge_in_filters_with_limit.
  - intros limit' n calls. by rewrite <- write_calls_with_limit.
  - intros active count p l params descs.
    unfold Merger.merge_in_filters. simpl.
    destruct (Z.eqb_spec count 0) as [->|Hne]; simpl; [done|].
    destruct (Z.leb_spec (Z.max 0 count) 1024), (Z.leb_spec count 1024);
      try lia; simpl; done.
  - intros row_count desc. unfold Merger.init_bloom_filter. simpl.
    destruct (Merger.has_consumer desc); simpl; [|done].
    destruct (Merger.has_remote_targets desc); simpl; [done|].
    destruct (Z.ltb_spec limit row_count); simpl; [done|].
    by rewrite Z.ltb_irrefl.
  - intros Hremote. apply merge_bloom_filters_with_limit.
    intros desc Hdesc Hcons Hlocal.
    destruct (Hremote desc Hdesc); congruence.
Qed.

(** Scenarios S2, S3 and S5 of the specification, and a null position,
    evaluated on [merge_in_filters]: the merged list, and the keys of the
    filter at address 0. *)
Example merge_in_filters_scenarios :
  let outcome m :=
    (λ '(status, st', m'),
       (status, Merger.get_total_in_filters m', keys_of st' 0%nat))
      <$> Merger.merge_in_filters S1_store m in
  outcome S2_merger = Some (OK, Some [], {[1; 2; 3]})
  ∧ outcome S3_merger = Some (OK, Some [], {[1; 2; 3]})
  ∧ outcome S5_merger = Some (OK, Some [Some 0%nat], {[1; 2; 3]})
  ∧ outcome two_key_merger = Some (OK, Some [Some 0%nat], {[1; 2; 3; 4; 5]}).
Proof. vm_compute. split_and!; reflexivity. Qed.

(** * Further properties of the code *)

Section tablet_sink_facts.
Import TabletSink.

Lemma size_mark_as_failed node_id s :
  (size (_failed_channels s)
   ≤ size (_failed_channels (mark_as_failed node_id s)))%nat.
Proof. simpl. apply subseteq_size. set_solver. Qed.

End tablet_sink_facts.

(** X1. Marking a node channel as failed never makes a load tolerable
    again: once [has_intolerable_failure] answers true, it answers true
    after every further [mark_as_failed], for each write quorum. *)
Theorem has_intolerable_failure_monotone
    (node_id : Z) (s : TabletSink.OlapTableSink) :
  TabletSink.has_intolerable_failure s = Some true →
  TabletSink.has_intolerable_failure (TabletSink.mark_as_failed node_id s)
  = Some true.
Proof.
  pose proof (size_mark_as_failed node_id s) as Hsize.
  unfold TabletSink.has_intolerable_failure.
  change (TabletSink._write_quorum_type (TabletSink.mark_as_failed node_id s))
    with (TabletSink._write_quorum_type s).
  change (TabletSink._num_repicas (TabletSink.mark_as_failed node_id s))
    with (TabletSink._num_repicas s).
  destruct (TabletSink._write_quorum_type s).
  - intros [= Hlt]. f_equal. apply Z.ltb_lt in Hlt. apply Z.ltb_lt. lia.
  - intros [= Hle]. f_equal. apply Z.leb_le in Hle. apply Z.leb_le. lia.
  - destruct (TabletSink.int_add _ _) as [sum|]; simpl; [|done].
    intros [= Hle]. f_equal. apply Z.leb_le in Hle. apply Z.leb_le.
    simpl in Hsize. lia.
Qed.

Lemma has_intolerable_failure_monotone_witness :
  TabletSink.has_intolerable_failure
    (TabletSink.mark_as_failed 12
       (TabletSink.mkSink 3 TabletSink.MAJORITY {[10; 11]}))
  = Some true.
Proof.
  apply (has_intolerable_failure_monotone 12
           (TabletSink.mkSink 3 TabletSink.MAJORITY {[10; 11]})).
  vm_compute. reflexivity.
Defined.

(** X2. With [n] replicas (0 <= n < 2^31 - 1) and [f] failed node
    channels: quorum ALL tolerates no failure, quorum ONE tolerates fewer
    than [n], and quorum MAJORITY tolerates the failures exactly as long as
    they are fewer than half of the replicas (2 f < n). For [n >= 1] a
    failure that quorum ONE does not tolerate is not tolerated by MAJORITY,
    and one that MAJORITY does not tolerate is not tolerated by ALL. *)
Theorem has_intolerable_failure_thresholds
    (n : Z) (failed : gset Z) :
  0 ≤ n < 2 ^ 31 - 1 →
  let f := Z.of_nat (size failed) in
  let answer q :=
    TabletSink.has_intolerable_failure (TabletSink.mkSink n q failed) in
  answer TabletSink.ALL = Some (bool_decide (1 ≤ f))
  ∧ answer TabletSink.ONE = Some (bool_decide (n ≤ f))
  ∧ answer TabletSink.MAJORITY = Some (bool_decide (n ≤ 2 * f))
  ∧ (1 ≤ n →
     (answer TabletSink.ONE = Some true →
      answer TabletSink.MAJORITY = Some true)
     ∧ (answer TabletSink.MAJORITY = Some true →
        answer TabletSink.ALL = Some true)).
Proof.
  intros Hn f answer.
  assert (answer TabletSink.ALL = Some (bool_decide (1 ≤ f))) as Hall.
  { unfold answer, TabletSink.has_intolerable_failure. simpl. fold f.
    f_equal. destruct (Z.ltb_spec 0 f).
    - by rewrite bool_decide_eq_true_2 by lia.
    - by rewrite bool_decide_eq_false_2 by lia. }
  assert (answer TabletSink.ONE = Some (bool_decide (n ≤ f))) as Hone.
  { unfold answer, TabletSink.has_intolerable_failure. simpl. fold f.
    unfold wrap64, two64. rewrite Z.mod_small by lia.
    f_equal. destruct (Z.leb_spec n f).
    - by rewrite bool_decide_eq_true_2 by lia.
    - by rewrite bool_decide_eq_false_2 by lia. }
  assert (answer TabletSink.MAJORITY = Some (bool_decide (n ≤ 2 * f)))
    as Hmajority.
  { unfold answer, TabletSink.has_intolerable_failure, TabletSink.int_add.
    simpl. fold f. rewrite decide_True by lia. simpl.
    assert (0 ≤ (n + 1) ÷ 2 ≤ n + 1) as Hq.
    { split; [apply Z.quot_pos; lia|]. apply Z.quot_le_upper_bound; lia. }
    unfold wrap64, two64. rewrite Z.mod_small by lia.
    pose proof (Z.quot_rem' (n + 1) 2) as Hqr.
    pose proof (Z.rem_bound_pos (n + 1) 2) as Hr.
    f_equal. destruct (Z.leb_spec ((n + 1) ÷ 2) f).
    - by rewrite bool_decide_eq_true_2 by lia.
    - by rewrite bool_decide_eq_false_2 by lia. }
  split_and!; try done.
  intros Hpos. rewrite Hall, Hone, Hmajority. split.
  - intros [= Hb]. apply bool_decide_eq_true_1 in Hb.
    f_equal. apply bool_decide_eq_true_2. unfold f in *. lia.
  - intros [= Hb]. apply bool_decide_eq_true_1 in Hb.
    f_equal. apply bool_decide_eq_true_2. lia.
Qed.

Lemma has_intolerable_failure_thresholds_witness :
  let f := Z.of_nat (size ({[10; 11]} : gset Z)) in
  let answer q :=
    TabletSink.has_intolerable_failure (TabletSink.mkSink 3 q {[10; 11]}) in
  answer TabletSink.ALL = Some (bool_decide (1 ≤ f))
  ∧ answer TabletSink.ONE = Some (bool_decide (3 ≤ f))
  ∧ answer TabletSink.MAJORITY = Some (bool_decide (3 ≤ 2 * f))
  ∧ (1 ≤ 3 →
     (answer TabletSink.ONE = Some true →
      answer TabletSink.MAJORITY = Some true)
     ∧ (answer TabletSink.MAJORITY = Some true →
        answer TabletSink.ALL = Some true)).
Proof.
  apply (has_intolerable_failure_thresholds 3 {[10; 11]}). lia.
Defined.


(** X3. [rewrite_in_filters] changes nothing but the column references of
    the collector's own in-filters: every filter keeps its keys, an
    expression context that the collector does not hold is left as it was,
    and a filter of the collector ends on the column obtained by sending
    its column through the mappings in list order (a mapping moves the
    column when it is the mapping's [to] column, to its [from] column). *)
Theorem rewrite_in_filters_columns
    (ms : list Collector.TupleSlotMapping)
    (c : Collector.RuntimeFilterCollector) (st st' : store) :
  Collector.rewrite_in_filters ms c st = Some st' →
  (∀ a, keys_of st' a = keys_of st a)
  ∧ (∀ a, Some a ∈ Collector._in_filters c →
          column_of st' a = rewrite_column ms (column_of st a))
  ∧ (∀ a, Some a ∉ Collector._in_filters c → st' a = st a).
Proof.
  intros Hr. split_and!; intros a.
  - by destruct (rewrite_frame ms c st st' Hr a) as (Hk & _ & _).
  - intros Hin. destruct (rewrite_frame ms c st st' Hr a) as (_ & Hc & _).
    by apply Hc.
  - intros Hnot. destruct (rewrite_frame ms c st st' Hr a) as (_ & _ & Hs).
    by apply Hs.
Qed.

Lemma rewrite_in_filters_columns_witness :
  let ms := [Collector.mkMapping 2 5 1 3; Collector.mkMapping 3 7 2 5] in
  let c := Collector.mkCollector [Some 0%nat; Some 1%nat] [] in
  let st := store_of_column (mkColumnRef 1 3) in
  let st' := default st (Collector.rewrite_in_filters ms c st) in
  (∀ a, keys_of st' a = keys_of st a)
  ∧ (∀ a, Some a ∈ Collector._in_filters c →
          column_of st' a = rewrite_column ms (column_of st a))
  ∧ (∀ a, Some a ∉ Collector._in_filters c → st' a = st a).
Proof.
  apply (rewrite_in_filters_columns
           [Collector.mkMapping 2 5 1 3; Collector.mkMapping 3 7 2 5]
           (Collector.mkCollector [Some 0%nat; Some 1%nat] [])
           (store_of_column (mkColumnRef 1 3))).
  reflexivity.
Defined.

(** X4. [get_in_filters_bounded_by_tuple_ids] has defined behaviour exactly
    when the collector holds no null in-filter; it then returns the
    in-filters whose column belongs to one of the given tuples, and only
    those, in the order of the collector. *)
Theorem get_in_filters_bounded_by_tuple_ids_selects
    (tuple_ids : list Z) (in_filters : list ptr) (st : store) :
  (is_Some (Collector.get_in_filters_bounded_by_tuple_ids
              tuple_ids in_filters st)
   ↔ None ∉ in_filters)
  ∧ ∀ selected,
      Collector.get_in_filters_bounded_by_tuple_ids tuple_ids in_filters st
      = Some selected →
      selected `sublist_of` in_filters
      ∧ (∀ a, Some a ∈ selected
              ↔ Some a ∈ in_filters
                ∧ tuple_id (column_of st a) ∈ tuple_ids).
Proof.
  split.
  - split.
    + intros [selected Hs]. by eapply selection_defined.
    + intros Hnull.
      destruct (selection_spec tuple_ids st in_filters Hnull)
        as (selected & -> & _). by eexists.
  - intros selected Hs.
    pose proof (selection_defined _ _ _ _ Hs) as Hnull.
    destruct (selection_spec tuple_ids st in_filters Hnull)
      as (selected' & Hs' & Hsub & Hsel).
    rewrite Hs in Hs'. injection Hs' as <-. by split.
Qed.

(** X5. Rewriting, then selecting: after [rewrite_in_filters] with the
    mappings [ms], [get_in_filters_bounded_by_tuple_ids] selects the
    in-filters whose column, sent through [ms], belongs to one of the given
    tuples. With a single mapping, a filter that referred to the mapping's
    [to] column is selected for the mapping's [from] tuple. *)
Theorem rewrite_in_filters_then_select
    (ms : list Collector.TupleSlotMapping)
    (c : Collector.RuntimeFilterCollector) (st st' : store)
    (tuple_ids : list Z) :
  Collector.rewrite_in_filters ms c st = Some st' →
  None ∉ Collector._in_filters c →
  ∃ selected,
    Collector.get_in_filters_bounded_by_tuple_ids
      tuple_ids (Collector._in_filters c) st' = Some selected
    ∧ (∀ a, Some a ∈ selected
            ↔ Some a ∈ Collector._in_filters c
              ∧ tuple_id (rewrite_column ms (column_of st a)) ∈ tuple_ids)
    ∧ (∀ m a, ms = [m] → Some a ∈ Collector._in_filters c →
              column_of st a = Collector.coordinates_to m →
              Collector.from_tuple_id m ∈ tuple_ids →
              Some a ∈ selected).
Proof.
  intros Hr Hnull.
  destruct (selection_spec tuple_ids st' (Collector._in_filters c) Hnull)
    as (selected & Hs & _ & Hsel).
  assert (∀ a, Some a ∈ selected
               ↔ Some a ∈ Collector._in_filters c
                 ∧ tuple_id (rewrite_column ms (column_of st a)) ∈ tuple_ids)
    as Hchar.
  { intros a. rewrite Hsel. split; intros [Hin Ht]; (split; [done|]).
    - destruct (rewrite_frame ms c st st' Hr a) as (_ & Hc & _).
      by rewrite <- (Hc Hin).
    - destruct (rewrite_frame ms c st st' Hr a) as (_ & Hc & _).
      by rewrite (Hc Hin). }
  exists selected. split_and!; [done|done|].
  intros m a -> Hin Hcol Hfrom. apply Hchar. split; [done|].
  unfold rewrite_column. simpl. unfold rewrite_column_step.
  by rewrite decide_True.
Qed.

Lemma rewrite_in_filters_then_select_witness :
  let ms := [Collector.mkMapping 2 5 1 3] in
  let c := Collector.mkCollector [Some 0%nat; Some 1%nat] [] in
  let st :=
    store_set 1%nat (mkExprContext (mkPredicate (mkColumnRef 4 4) ∅))
              (store_of_column (mkColumnRef 1 3)) in
  let st' := default st (Collector.rewrite_in_filters ms c st) in
  ∃ selected,
    Collector.get_in_filters_bounded_by_tuple_ids
      [2] (Collector._in_filters c) st' = Some selected
    ∧ (∀ a, Some a ∈ selected
            ↔ Some a ∈ Collector._in_filters c
              ∧ tuple_id (rewrite_column ms (column_of st a)) ∈ [2])
    ∧ (∀ m a, ms = [m] → Some a ∈ Collector._in_filters c →
              column_of st a = Collector.coordinates_to m →
              Collector.from_tuple_id m ∈ [2] →
              Some a ∈ selected).
Proof.
  apply (rewrite_in_filters_then_select
           [Collector.mkMapping 2 5 1 3]
           (Collector.mkCollector [Some 0%nat; Some 1%nat] [])
           (store_set 1%nat (mkExprContext (mkPredicate (mkColumnRef 4 4) ∅))
                      (store_of_column (mkColumnRef 1 3)))).
  - reflexivity.
  - simpl. intros Hin. apply elem_of_cons in Hin as [?|Hin]; [done|].
    apply elem_of_cons in Hin as [?|Hin]; [done|]. by apply elem_of_nil in Hin.
Defined.

Section hub_collectors_facts.
Import Holder Hub HubCollectors.

Lemma close_in_filters_Some fs : ∀ closed closed',
  close_in_filters fs closed = Some closed'
  ↔ (None ∉ fs) ∧ closed' = closed ++ addrs fs.
Proof.
  induction fs as [|p fs IH]; intros closed closed'.
  - change (addrs []) with (@nil addr). rewrite app_nil_r. simpl. split.
    + intros [= <-]. split; [|done]. intros Hin. by apply elem_of_nil in Hin.
    + by intros [_ ->].
  - destruct p as [a|].
    + change (close_in_filters (Some a :: fs) closed)
        with (close_in_filters fs (closed ++ [a])).
      rewrite IH, addrs_cons_Some, <- app_assoc.
      change ([a] ++ addrs fs) with (a :: addrs fs).
      split; intros [Hnull ->]; (split; [|done]).
      * intros Hin. by apply elem_of_cons in Hin as [?|?].
      * intros Hin. apply Hnull. by apply list_elem_of_further.
    + simpl. split; [done|]. intros [Hnull _]. destruct Hnull.
      apply list_elem_of_here.
Qed.

(** The addresses that closing one holder adds. *)
Lemma close_holder_Some cs closed h closed' :
  close_holder cs closed h = Some closed'
  ↔ (∀ ca, get_collector h = Some ca →
           None ∉ Collector.get_in_filters (cs ca))
    ∧ closed'
      = closed
        ++ match get_collector h with
           | Some ca => addrs (Collector.get_in_filters (cs ca))
           | None => []
           end.
Proof.
  unfold close_holder. destruct (get_collector h) as [ca|].
  - rewrite close_in_filters_Some. split.
    + intros [Hnull ->]. split; [|done]. by intros ? [= <-].
    + intros [Hnull ->]. split; [|done]. by apply Hnull.
  - rewrite app_nil_r. split.
    + intros [= <-]. by split.
    + by intros [_ ->].
Qed.

Lemma close_holders_Some cs hs : ∀ closed closed',
  close_holders cs hs closed = Some closed' →
  (∀ h ca, h ∈ hs → get_collector h = Some ca →
           None ∉ Collector.get_in_filters (cs ca))
  ∧ ∀ a, a ∈ closed'
         ↔ a ∈ closed
           ∨ ∃ h ca, h ∈ hs ∧ get_collector h = Some ca
                     ∧ Some a ∈ Collector.get_in_filters (cs ca).
Proof.
  induction hs as [|h hs IH]; simpl; intros closed closed' Hc.
  - injection Hc as <-. split.
    + intros h ca Hin. by apply elem_of_nil in Hin.
    + intros a. split; [by left|]. intros [?|(h & ca & Hin & _)]; [done|].
      by apply elem_of_nil in Hin.
  - destruct (close_holder cs closed h) as [closed1|] eqn:Hh; [|done].
    simpl in Hc. apply close_holder_Some in Hh as [Hnull1 ->].
    destruct (IH _ _ Hc) as [Hnull Hmem]. split.
    + intros h' ca Hin Hget. apply elem_of_cons in Hin as [->|Hin].
      * by apply Hnull1.
      * by apply (Hnull h').
    + intros a. rewrite Hmem, elem_of_app. split.
      * intros [[Hin|Hin]|(h' & ca & Hin & Hget & Ha)].
        -- by left.
        -- right. destruct (get_collector h) as [ca|] eqn:Hget.
           ++ exists h, ca. split_and!; [apply list_elem_of_here|done|].
              by apply elem_of_addrs.
           ++ by apply elem_of_nil in Hin.
        -- right. exists h', ca. split_and!; [|done|done].
           by apply list_elem_of_further.
      * intros [Hin|(h' & ca & Hin & Hget & Ha)]; [by left; left|].
        apply elem_of_cons in Hin as [->|Hin].
        -- left; right. rewrite Hget. by apply elem_of_addrs.
        -- right. by exists h', ca.
Qed.

Lemma close_holders_defined cs hs : ∀ closed,
  (∀ h ca, h ∈ hs → get_collector h = Some ca →
           None ∉ Collector.get_in_filters (cs ca)) →
  is_Some (close_holders cs hs closed).
Proof.
  induction hs as [|h hs IH]; simpl; intros closed Hnull; [by eexists|].
  destruct (close_holder cs closed h) as [closed1|] eqn:Hh; simpl.
  - apply IH. intros h' ca Hin. apply Hnull. by apply list_elem_of_further.
  - assert (is_Some (close_holder cs closed h)) as [? Hsome]; [|congruence].
    eexists. apply close_holder_Some. split; [|done].
    intros ca. apply Hnull, list_elem_of_here.
Qed.

Lemma elem_of_holders hub h :
  h ∈ (snd <$> map_to_list (_holders hub))
  ↔ ∃ id, _holders hub !! id = Some h.
Proof.
  rewrite list_elem_of_fmap. split.
  - intros ([id h'] & -> & Hin). exists id. by apply elem_of_map_to_list.
  - intros [id Hid]. exists (id, h). split; [done|].
    by apply elem_of_map_to_list.
Qed.

Lemma gather_holders_Some ids hub : ∀ hs,
  gather_holders ids hub = Some hs
  ↔ Forall2 (λ id h, get_holder id hub = Some h) ids hs.
Proof.
  induction ids as [|id ids IH]; simpl; intros hs.
  - split; [intros [= <-]; constructor|]. intros Hall. by inversion Hall.
  - split.
    + destruct (get_holder id hub) as [h|] eqn:Hh; [|done]. simpl.
      destruct (gather_holders ids hub) as [rest|] eqn:Hrest; [|done].
      simpl. intros [= <-]. constructor; [done|]. by apply IH.
    + intros Hall. inversion Hall as [|? h ? rest Hh Hrest]; subst.
      rewrite Hh. simpl. apply IH in Hrest. by rewrite Hrest.
Qed.

End hub_collectors_facts.

(** X6. The life of a holder in the hub. For an id that the hub does not
    know: after [add_holder] the holder is there and not ready, and
    [get_bloom_filters] has no defined behaviour (it goes through a null
    collector); after [set_collector] the holder is ready and
    [get_bloom_filters] returns the bloom filters of the collector that was
    published. The holders of the other ids, and what [get_bloom_filters]
    returns for them, are the same as before. *)
Theorem hub_publication
    (id : Z) (collector : addr) (hub : Hub.RuntimeFilterHub)
    (cs : HubCollectors.collectors) :
  Hub.get_holder id hub = None →
  let added := Hub.add_holder id hub in
  (∃ h, Hub.get_holder id added = Some h ∧ Holder.is_ready h = false)
  ∧ HubCollectors.get_bloom_filters id added cs = None
  ∧ ∃ published,
      Hub.set_collector id (Some collector) added = Some published
      ∧ (∃ h, Hub.get_holder id published = Some h
              ∧ Holder.is_ready h = true)
      ∧ HubCollectors.get_bloom_filters id published cs
        = Some (Collector.get_bloom_filters (cs collector))
      ∧ ∀ id', id' ≠ id →
          Hub.get_holder id' published = Hub.get_holder id' hub
          ∧ HubCollectors.get_bloom_filters id' published cs
            = HubCollectors.get_bloom_filters id' hub cs.
Proof.
  intros Hnew added.
  assert (Hub._holders added = <[id := Holder.fresh]> (Hub._holders hub))
    as Hadded.
  { unfold added, Hub.add_holder. unfold Hub.get_holder in Hnew.
    by rewrite Hnew. }
  assert (Hub.get_holder id added = Some Holder.fresh) as Hget.
  { unfold Hub.get_holder. rewrite Hadded. apply lookup_insert_eq. }
  split_and!.
  - by exists Holder.fresh.
  - unfold HubCollectors.get_bloom_filters. by rewrite Hget.
  - unfold Hub.set_collector. rewrite Hget. simpl. eexists.
    split; [reflexivity|].
    unfold HubCollectors.get_bloom_filters, Hub.get_holder. simpl.
    split_and!.
    + eexists. by rewrite lookup_insert_eq.
    + by rewrite lookup_insert_eq.
    + intros id' Hne.
      rewrite lookup_insert_ne, Hadded, lookup_insert_ne by done. done.
Qed.

Lemma hub_publication_witness :
  let hub := Hub.add_holder 4 Hub.empty_hub in
  let cs : HubCollectors.collectors :=
    λ _, Collector.mkCollector [Some 0%nat] [Some 1%nat; None] in
  let added := Hub.add_holder 7 hub in
  (∃ h, Hub.get_holder 7 added = Some h ∧ Holder.is_ready h = false)
  ∧ HubCollectors.get_bloom_filters 7 added cs = None
  ∧ ∃ published,
      Hub.set_collector 7 (Some 2%nat) added = Some published
      ∧ (∃ h, Hub.get_holder 7 published = Some h
              ∧ Holder.is_ready h = true)
      ∧ HubCollectors.get_bloom_filters 7 published cs
        = Some (Collector.get_bloom_filters (cs 2%nat))
      ∧ ∀ id', id' ≠ 7 →
          Hub.get_holder id' published = Hub.get_holder id' hub
          ∧ HubCollectors.get_bloom_filters id' published cs
            = HubCollectors.get_bloom_filters id' hub cs.
Proof.
  apply (hub_publication 7 2%nat (Hub.add_holder 4 Hub.empty_hub)
           (λ _, Collector.mkCollector [Some 0%nat] [Some 1%nat; None])).
  reflexivity.
Defined.

(** X7. [gather_holders] has defined behaviour exactly when every id has
    been added to the hub; it returns one holder per id, in the order of
    the ids, each being the holder that [get_holder] finds for its id. *)
Theorem gather_holders_positional
    (ids : list Z) (hub : Hub.RuntimeFilterHub) :
  (is_Some (Hub.gather_holders ids hub)
   ↔ ∀ id, id ∈ ids → is_Some (Hub.get_holder id hub))
  ∧ ∀ holders,
      Hub.gather_holders ids hub = Some holders →
      length holders = length ids
      ∧ ∀ i id, ids !! i = Some id →
                holders !! i = Hub.get_holder id hub.
Proof.
  split.
  - induction ids as [|id ids IH]; simpl.
    + split; [|by eexists]. intros _ id Hin. by apply elem_of_nil in Hin.
    + destruct (Hub.get_holder id hub) as [h|] eqn:Hh; simpl.
      * destruct (Hub.gather_holders ids hub) as [rest|]; simpl.
        -- split; [|by eexists]. intros _ id' Hin.
           apply elem_of_cons in Hin as [->|Hin]; [by rewrite Hh|].
           by apply IH.
        -- split; [by intros [? ?]|]. intros Hall.
           destruct IH as [_ IH]. destruct IH as [? ?]; [|done].
           intros id' Hin. apply Hall. by apply list_elem_of_further.
      * split; [by intros [? ?]|]. intros Hall.
        destruct (Hall id) as [? ?]; [apply list_elem_of_here|congruence].
  - intros holders Hg. apply gather_holders_Some in Hg.
    split; [symmetry; by eapply Forall2_length|].
    intros i id Hi.
    destruct (Forall2_lookup_l _ _ _ _ _ Hg Hi) as (h & Hh & Hget).
    by rewrite Hh, Hget.
Qed.

(** X8. [close_all_in_filters] closes the in-filters of the collectors
    that have been published, and nothing else: an expression context is
    closed exactly when it is an in-filter of the collector of some holder
    of the hub, so a holder that is not ready contributes nothing. The
    call has defined behaviour exactly when no published collector holds a
    null in-filter. *)
Theorem close_all_in_filters_closes
    (hub : Hub.RuntimeFilterHub) (cs : HubCollectors.collectors) :
  (is_Some (HubCollectors.close_all_in_filters hub cs)
   ↔ ∀ id h collector,
       Hub.get_holder id hub = Some h →
       Holder.get_collector h = Some collector →
       None ∉ Collector.get_in_filters (cs collector))
  ∧ ∀ closed,
      HubCollectors.close_all_in_filters hub cs = Some closed →
      ∀ a, a ∈ closed
           ↔ ∃ id h collector,
               Hub.get_holder id hub = Some h
               ∧ Holder.get_collector h = Some collector
               ∧ Some a ∈ Collector.get_in_filters (cs collector).
Proof.
  unfold HubCollectors.close_all_in_filters, Hub.get_holder. split.
  - split.
    + intros [closed Hc] id h ca Hid Hget.
      destruct (close_holders_Some _ _ _ _ Hc) as [Hnull _].
      apply (Hnull h ca); [|done]. apply elem_of_holders. by exists id.
    + intros Hnull. apply close_holders_defined.
      intros h ca Hin Hget. apply elem_of_holders in Hin as [id Hid].
      by apply (Hnull id h ca).
  - intros closed Hc a.
    destruct (close_holders_Some _ _ _ _ Hc) as [_ Hmem].
    rewrite Hmem. split.
    + intros [Hin|(h & ca & Hin & Hget & Ha)]; [by apply elem_of_nil in Hin|].
      apply elem_of_holders in Hin as [id Hid]. by exists id, h, ca.
    + intros (id & h & ca & Hid & Hget & Ha). right. exists h, ca.
      split_and!; [|done|done]. apply elem_of_holders. by exists id.
Qed.

Section refcounted_reports.
Import RefCounted.
Variable prepare_status open_status : Status.

Local Abbreviation prepare := (prepare prepare_status open_status).
Local Abbreviation run := (run prepare_status open_status).
Local Abbreviation prepare_results :=
  (prepare_results prepare_status open_status).

(** What one [prepare] returns and what it makes the wrapped collector
    do, by the number of prepares counted before. *)
Lemma prepare_reports n pr cl c :
  0 ≤ n < two32 → counted n pr cl c → Z.of_nat pr < n →
  fst (prepare c)
  = (if decide (pr = 0%nat) then wrapped_status prepare_status open_status
     else OK)
  ∧ _rf_probe_collector (snd (prepare c))
    = _rf_probe_collector c
      ++ (if decide (pr = 0%nat)
          then WrappedPrepare
               :: (if Status_ok prepare_status then [WrappedOpen] else [])
          else []).
Proof.
  intros Hn (HN & Hp & Hcl & Hc) Hpr.
  unfold RefCounted.prepare, fetch_sub.
  assert (Z.land (_count c) 0xffffffff = n - Z.of_nat pr) as Hlow.
  { change 0xffffffff with (Z.ones 32). rewrite Z.land_ones by lia.
    rewrite Hc. unfold two32 in *.
    rewrite Z.add_comm, Z.mod_add by lia. apply Z.mod_small. lia. }
  rewrite Hlow. simpl _num_operators_generated. rewrite HN.
  destruct (Z.eqb_spec (n - Z.of_nat pr) n) as [Heq|Hne].
  - assert (pr = 0%nat) as -> by lia. simpl decide.
    destruct prepare_status; [destruct open_status|]; simpl;
      by rewrite <- ?app_assoc.
  - destruct (decide (pr = 0%nat)) as [->|_]; [simpl in Hne; lia|].
    simpl. by rewrite app_nil_r.
Qed.

Lemma prepare_results_prepare c calls :
  prepare_results c (Prepare :: calls)
  = fst (prepare c) :: prepare_results (snd (prepare c)) calls.
Proof. simpl. by destruct (prepare c). Qed.

Lemma run_reports n calls : ∀ pr cl c,
  0 ≤ n < two32 → counted n pr cl c →
  Z.of_nat pr + Z.of_nat (occurrences Prepare calls) ≤ n →
  Z.of_nat cl + Z.of_nat (occurrences Close calls) ≤ n →
  prepare_results c calls
  = (if decide (pr = 0%nat)
     then match occurrences Prepare calls with
          | O => []
          | S later =>
              wrapped_status prepare_status open_status :: replicate later OK
          end
     else replicate (occurrences Prepare calls) OK)
  ∧ (Status_ok prepare_status = false →
     occurrences WrappedOpen (_rf_probe_collector (run c calls))
     = occurrences WrappedOpen (_rf_probe_collector c)).
Proof.
  induction calls as [|o calls IH]; intros pr cl c Hn Hc Hp Hcl.
  - simpl. change (occurrences Prepare []) with 0%nat.
    by destruct (decide (pr = 0%nat)).
  - rewrite !occurrences_cons in *. destruct o.
    + rewrite decide_True in * by done.
      rewrite (decide_False (P := Prepare = Close)) in * by done.
      rewrite prepare_results_prepare, run_prepare.
      destruct (prepare_counted prepare_status open_status n pr cl c Hn Hc)
        as (Hc' & _); [lia|].
      destruct (prepare_reports n pr cl c Hn Hc) as (Hst & Hlog); [lia|].
      destruct (IH (S pr) cl _ Hn Hc') as (Hrs & Hopen); [lia|lia|].
      rewrite (decide_False (P := S pr = 0%nat)) in Hrs by lia.
      split.
      * rewrite Hst, Hrs. simpl. by destruct (decide (pr = 0%nat)).
      * intros Hfail. rewrite (Hopen Hfail), Hlog, occurrences_app, Hfail.
        assert (occurrences WrappedOpen
                  (if decide (pr = 0%nat)
                   then WrappedPrepare :: (if false then [WrappedOpen] else [])
                   else []) = 0%nat) as ->
          by (by destruct (decide (pr = 0%nat))).
        lia.
    + rewrite decide_True in * by done.
      rewrite (decide_False (P := Close = Prepare)) in * by done.
      rewrite run_close. simpl prepare_results.
      destruct (close_counted n pr cl c Hn Hc) as (Hc' & Hlog); [lia|].
      destruct (IH pr (S cl) _ Hn Hc') as (Hrs & Hopen); [lia|lia|].
      split; [done|].
      intros Hfail. rewrite (Hopen Hfail), Hlog, occurrences_app.
      assert (occurrences WrappedOpen
                (if decide (Z.of_nat (S cl) = n ∧ Z.of_nat pr = n)
                 then [WrappedClose] else []) = 0%nat) as ->
        by (by destruct (decide (Z.of_nat (S cl) = n ∧ Z.of_nat pr = n))).
      lia.
Qed.

End refcounted_reports.

(** X9. With [n] siblings ([n] below 2^32), at most [n] prepare calls and
    at most [n] close calls, in any interleaving: only the first [prepare]
    reports what the wrapped collector answered (the error of its prepare,
    or else the status of its open); every later [prepare] returns OK, also
    when the wrapped prepare or open failed. When the wrapped prepare
    fails, the wrapped open is never called. *)
Theorem refcounted_prepare_reports_once
    (prepare_status open_status : Status) (n : Z)
    (calls : list RefCounted.call) :
  0 ≤ n < 2 ^ 32 →
  Z.of_nat (RefCounted.occurrences RefCounted.Prepare calls) ≤ n →
  Z.of_nat (RefCounted.occurrences RefCounted.Close calls) ≤ n →
  prepare_results prepare_status open_status (RefCounted.create n) calls
  = match RefCounted.occurrences RefCounted.Prepare calls with
    | O => []
    | S later =>
        wrapped_status prepare_status open_status :: replicate later OK
    end
  ∧ (Status_ok prepare_status = false →
     RefCounted.occurrences RefCounted.WrappedOpen
       (RefCounted._rf_probe_collector
          (RefCounted.run prepare_status open_status
             (RefCounted.create n) calls))
     = 0%nat).
Proof.
  intros Hn Hp Hc.
  assert (counted n 0 0 (RefCounted.create n)) as Hinit.
  { unfold counted. rewrite create_count by done. simpl. split_and!; lia. }
  destruct (run_reports prepare_status open_status n calls 0 0 _ Hn Hinit)
    as (Hrs & Hopen); [lia|lia|].
  split; [by rewrite Hrs|].
  intros Hfail. by rewrite (Hopen Hfail).
Qed.

Lemma refcounted_prepare_reports_once_witness :
  let calls := [RefCounted.Prepare; RefCounted.Close; RefCounted.Prepare] in
  prepare_results (NotOK 3) OK (RefCounted.create 2) calls
  = match RefCounted.occurrences RefCounted.Prepare calls with
    | O => []
    | S later => wrapped_status (NotOK 3) OK :: replicate later OK
    end
  ∧ (Status_ok (NotOK 3) = false →
     RefCounted.occurrences RefCounted.WrappedOpen
       (RefCounted._rf_probe_collector
          (RefCounted.run (NotOK 3) OK (RefCounted.create 2) calls))
     = 0%nat).
Proof.
  apply (refcounted_prepare_reports_once (NotOK 3) OK 2
           [RefCounted.Prepare; RefCounted.Close; RefCounted.Prepare]).
  - lia.
  - vm_compute. discriminate.
  - vm_compute. discriminate.
Defined.

(** X10. The packed counter keeps both counts. With [n] siblings ([n]
    below 2^32), after any interleaving of at most [n] prepare calls and at
    most [n] close calls, the low 32 bits of [_count] hold the number of
    prepares still to come and the high 32 bits the number of closes still
    to come; neither half borrows from the other. *)
Theorem refcounted_count_halves
    (prepare_status open_status : Status) (n : Z)
    (calls : list RefCounted.call) :
  0 ≤ n < 2 ^ 32 →
  Z.of_nat (RefCounted.occurrences RefCounted.Prepare calls) ≤ n →
  Z.of_nat (RefCounted.occurrences RefCounted.Close calls) ≤ n →
  let count :=
    RefCounted._count
      (RefCounted.run prepare_status open_status (RefCounted.create n) calls) in
  Z.land count 0xffffffff
  = n - Z.of_nat (RefCounted.occurrences RefCounted.Prepare calls)
  ∧ Z.shiftr count 32
    = n - Z.of_nat (RefCounted.occurrences RefCounted.Close calls).
Proof.
  intros Hn Hp Hc count.
  assert (counted n 0 0 (RefCounted.create n)) as Hinit.
  { unfold counted. rewrite create_count by done. simpl. split_and!; lia. }
  destruct (run_counted prepare_status open_status n calls 0 0 _ Hn Hinit)
    as ((_ & _ & _ & Hcount) & _); [lia|lia|].
  simpl in Hcount. fold count in Hcount. rewrite Hcount.
  unfold two32. split.
  - change 0xffffffff with (Z.ones 32). rewrite Z.land_ones by lia.
    rewrite Z.add_comm, Z.mod_add by lia. apply Z.mod_small. lia.
  - rewrite Z.shiftr_div_pow2 by lia.
    rewrite Z.add_comm, Z.div_add by lia.
    rewrite Z.div_small by lia. lia.
Qed.

Lemma refcounted_count_halves_witness :
  let calls := [RefCounted.Prepare; RefCounted.Close; RefCounted.Prepare] in
  let count :=
    RefCounted._count (RefCounted.run OK OK (RefCounted.create 3) calls) in
  Z.land count 0xffffffff
  = 3 - Z.of_nat (RefCounted.occurrences RefCounted.Prepare calls)
  ∧ Z.shiftr count 32
    = 3 - Z.of_nat (RefCounted.occurrences RefCounted.Close calls).
Proof.
  apply (refcounted_count_halves OK OK 3
           [RefCounted.Prepare; RefCounted.Close; RefCounted.Prepare]).
  - lia.
  - vm_compute. discriminate.
  - vm_compute. discriminate.
Defined.

Section merger_any.
Context `{Collaborators}.
Import Merger.

(** *** merge_in_filters, whatever [Predicate::merge] does *)

Lemma merge_in_filter_list_any total : ∀ ins st status st' total',
  merge_in_filter_list st total ins = Some (status, st', total') →
  (∀ b, b ∉ addrs total → st' b = st b)
  ∧ (status = OK → total' = zip_with both total ins)
  ∧ (status ≠ OK → ∃ p q, fst (Predicate_merge p q) = status).
Proof.
  induction total as [|t rest IH]; intros ins st status st' total' Hm.
  - simpl in Hm. injection Hm as <- <- <-. by split_and!.
  - destruct ins as [|i irest]; [done|].
    assert (∀ st0,
              ('(status, st, total_rest) ←
                 merge_in_filter_list st0 rest irest;
               Some (status, st, both t i :: total_rest))
              = Some (status, st', total') →
              (∀ b, b ∉ addrs rest → st' b = st0 b)
              ∧ (status = OK → total' = both t i :: zip_with both rest irest)
              ∧ (status ≠ OK → ∃ p q, fst (Predicate_merge p q) = status))
      as Hrest.
    { intros st0 Hrec.
      destruct (merge_in_filter_list st0 rest irest)
        as [[[s1 st1] tot1]|] eqn:Hr; [|done].
      simpl in Hrec. injection Hrec as <- <- <-.
      destruct (IH _ _ _ _ _ Hr) as (Hf & Hz & He).
      split_and!; [done| |done]. intros Hok. by rewrite Hz. }
    destruct t as [a|], i as [f|].
    + simpl in Hm.
      destruct (Predicate_merge (root (st a)) (root (st f)))
        as [s merged] eqn:Hpm.
      destruct (Status_ok s) eqn:Hok.
      * destruct (Hrest _ Hm) as (Hf & Hz & He).
        split_and!; [|done|done].
        intros b Hb. rewrite addrs_cons_Some in Hb.
        apply not_elem_of_cons in Hb as [Hne Hb].
        rewrite Hf by done. unfold store_set. by rewrite decide_False.
      * injection Hm as <- <- <-. split_and!.
        -- intros b Hb. rewrite addrs_cons_Some in Hb.
           apply not_elem_of_cons in Hb as [Hne Hb].
           unfold store_set. by rewrite decide_False.
        -- by intros ->.
        -- intros _. exists (root (st a)), (root (st f)). by rewrite Hpm.
    + destruct (Hrest _ Hm) as (Hf & Hz & He). split_and!; [|done|done].
      intros b Hb. rewrite addrs_cons_Some in Hb.
      apply not_elem_of_cons in Hb as [Hne Hb]. by apply Hf.
    + destruct (Hrest _ Hm) as (Hf & Hz & He). by split_and!.
    + destruct (Hrest _ Hm) as (Hf & Hz & He). by split_and!.
Qed.

Lemma merge_partial_lists_any partial : ∀ total st status st' total',
  merge_partial_lists st total partial = Some (status, st', total') →
  (∀ b, b ∉ addrs total → st' b = st b)
  ∧ (status = OK → total' = foldl (zip_with both) total partial)
  ∧ (status ≠ OK → ∃ p q, fst (Predicate_merge p q) = status).
Proof.
  induction partial as [|l partial IH]; intros total st status st' total' Hm.
  - simpl in Hm. injection Hm as <- <- <-. by split_and!.
  - simpl in Hm.
    destruct (merge_in_filter_list st total l) as [[[s1 st1] tot1]|] eqn:Hl;
      [|done].
    simpl in Hm.
    destruct (merge_in_filter_list_any _ _ _ _ _ _ Hl) as (Hf1 & Hz1 & He1).
    destruct s1 as [|e]; simpl in Hm.
    + destruct (IH _ _ _ _ _ Hm) as (Hf & Hz & He).
      rewrite (Hz1 eq_refl) in *. split_and!; [|done|done].
      intros b Hb. rewrite Hf; [by apply Hf1|].
      intros Hin. by apply Hb, (addrs_zip_with_both total l).
    + injection Hm as <- <- <-. split_and!; [done|done|].
      intros _. by apply He1.
Qed.

Lemma merge_in_filters_any st m status st' m' :
  merge_in_filters st m = Some (status, st', m') →
  length (_ht_row_counts m) = length (_partial_in_filters m) →
  let R := retained (_ht_row_counts m) (_partial_in_filters m) in
  m' = with_in_filters (_partial_in_filters m') m
  ∧ (∀ b, b ∉ addrs (default [] (head R)) → st' b = st b)
  ∧ (status ≠ OK → ∃ p q, fst (Predicate_merge p q) = status)
  ∧ (status = OK →
     ∃ total, get_total_in_filters m' = Some total
              ∧ (None ∉ total)
              ∧ total `sublist_of` default [] (head R)).
Proof.
  intros Hm Hlen R. unfold merge_in_filters in Hm.
  destruct (squeeze_start _ _ Hlen) as (s & Hs & Hl & Hspec).
  rewrite Hs in Hm. simpl in Hm.
  destruct (can_merge_in_filters s && (num_rows s <=? 1024) && (0 <=? k s))
    eqn:Hcan; simpl in Hm.
  - destruct (poisoned _ _); [by rewrite Hspec in Hcan|].
    destruct Hspec as (_ & _ & Hk & Htake). fold R in Hk, Htake.
    replace (Z.to_nat (k s + 1)) with (length R) in Hm by lia.
    rewrite resize_le in Hm.
    2:{ rewrite <- Htake at 1. rewrite length_take. lia. }
    rewrite Htake in Hm.
    destruct R as [|total partial] eqn:HR.
    { simpl in Hk. rewrite Hk in Hcan. simpl in Hcan.
      by rewrite andb_false_r in Hcan. }
    simpl in Hm. rewrite drop_0 in Hm.
    destruct (merge_partial_lists st total partial)
      as [[[s1 st1] tot1]|] eqn:Hp; [|done].
    simpl in Hm.
    destruct (merge_partial_lists_any _ _ _ _ _ _ Hp) as (Hf & Hz & He).
    destruct s1 as [|e]; simpl in Hm; injection Hm as <- <- <-.
    + split_and!; [done|done|done|]. intros _. simpl.
      eexists. split_and!; [done|apply erase_null_no_null|].
      rewrite (Hz eq_refl).
      etrans; [apply erase_null_foldl_sublist|]. apply sublist_filter.
    + split_and!; [done|done| |done]. intros _. by apply He.
  - destruct (filters s) as [|f fs] eqn:Hfs; [done|].
    simpl in Hm. injection Hm as <- <- <-.
    split_and!; [done|done|done|]. intros _. simpl.
    exists []. split_and!; [done|apply not_elem_of_nil|apply sublist_nil_l].
Qed.

(** *** The calls of Predicate::merge that are made *)

Lemma not_elem_of_addrs_cons b t rest :
  b ∉ addrs (t :: rest) → b ∉ addrs rest.
Proof.
  intros Hnot Hin. apply Hnot. apply elem_of_addrs.
  apply list_elem_of_further. by apply elem_of_addrs.
Qed.

Lemma merge_in_filter_list_trace total : ∀ ins st status st' total',
  merge_in_filter_list st total ins = Some (status, st', total') →
  let calls := merge_in_filter_list_calls st total ins in
  (∀ c, c ∈ calls →
        ∃ j, total !! j = Some (Some (receiver_at c))
             ∧ ins !! j = Some (Some (argument_at c))
             ∧ (argument_at c ∉ addrs total →
                argument c = root (st (argument_at c))))
  ∧ (status = OK → ∀ c, c ∈ calls → merge_call_status c = OK)
  ∧ (status ≠ OK →
     ∃ before c, calls = before ++ [c]
                 ∧ merge_call_status c = status
                 ∧ ∀ c', c' ∈ before → merge_call_status c' = OK).
Proof.
  induction total as [|t rest IH]; intros ins st status st' total' Hm calls.
  - simpl in Hm. injection Hm as <- <- <-. unfold calls. simpl.
    split_and!; [|by intros _ c Hc%elem_of_nil|done].
    intros c Hc. by apply elem_of_nil in Hc.
  - destruct ins as [|i irest]; [done|].
    assert (∀ st0,
              ('(status, st, total_rest) ←
                 merge_in_filter_list st0 rest irest;
               Some (status, st, both t i :: total_rest))
              = Some (status, st', total') →
              (∀ b, b ∉ addrs (t :: rest) → st0 b = st b) →
              let calls0 := merge_in_filter_list_calls st0 rest irest in
              (∀ c, c ∈ calls0 →
                 ∃ j, (t :: rest) !! j = Some (Some (receiver_at c))
                      ∧ (i :: irest) !! j = Some (Some (argument_at c))
                      ∧ (argument_at c ∉ addrs (t :: rest) →
                         argument c = root (st (argument_at c))))
              ∧ (status = OK → ∀ c, c ∈ calls0 → merge_call_status c = OK)
              ∧ (status ≠ OK →
                 ∃ before c, calls0 = before ++ [c]
                             ∧ merge_call_status c = status
                             ∧ ∀ c', c' ∈ before → merge_call_status c' = OK))
      as Hrest.
    { intros st0 Hrec Hsame calls0.
      destruct (merge_in_filter_list st0 rest irest)
        as [[[s1 st1] tot1]|] eqn:Hr; [|done].
      simpl in Hrec. injection Hrec as <- <- <-.
      destruct (IH _ _ _ _ _ Hr) as (Hpos & Hok & Herr).
      split_and!; [|done|done].
      intros c Hc. destruct (Hpos c Hc) as (j & Hj1 & Hj2 & Harg).
      exists (S j). split_and!; [done|done|].
      intros Hnot. rewrite Harg by (by eapply not_elem_of_addrs_cons).
      by rewrite Hsame. }
    destruct t as [a|], i as [f|].
    + simpl in Hm. unfold calls. simpl.
      destruct (Predicate_merge (root (st a)) (root (st f)))
        as [s merged] eqn:Hpm.
      assert (merge_call_status
                (mkMergeCall a f (root (st a)) (root (st f))) = s) as Hs0
        by (unfold merge_call_status; simpl; by rewrite Hpm).
      destruct (Status_ok s) eqn:Hok.
      * destruct s; [|done].
        destruct (Hrest _ Hm) as (Hpos & Hall & Herr).
        { intros b Hb. rewrite addrs_cons_Some in Hb.
          apply not_elem_of_cons in Hb as [Hne _].
          unfold store_set. by rewrite decide_False. }
        split_and!.
        -- intros c Hc. apply elem_of_cons in Hc as [->|Hc].
           ++ exists 0%nat. by split_and!.
           ++ by apply Hpos.
        -- intros Hst c Hc. apply elem_of_cons in Hc as [->|Hc]; [done|].
           by apply Hall.
        -- intros Hst. destruct (Herr Hst) as (before & c & -> & Hc & Hb).
           exists (mkMergeCall a f (root (st a)) (root (st f)) :: before), c.
           split_and!; [done|done|].
           intros c' Hc'. apply elem_of_cons in Hc' as [->|Hc']; [done|].
           by apply Hb.
      * injection Hm as <- <- <-. split_and!.
        -- intros c Hc. apply list_elem_of_singleton in Hc as ->.
           exists 0%nat. by split_and!.
        -- intros ->. done.
        -- intros _. exists [], (mkMergeCall a f (root (st a)) (root (st f))).
           split_and!; [done|done|].
           intros c' Hc'. by apply elem_of_nil in Hc'.
    + by apply (Hrest st Hm).
    + by apply (Hrest st Hm).
    + by apply (Hrest st Hm).
Qed.

Lemma merge_partial_lists_trace partial : ∀ total st status st' total',
  merge_partial_lists st total partial = Some (status, st', total') →
  let calls := merge_partial_lists_calls st total partial in
  (∀ c, c ∈ calls →
        ∃ j l, total !! j = Some (Some (receiver_at c))
               ∧ l ∈ partial
               ∧ l !! j = Some (Some (argument_at c))
               ∧ (argument_at c ∉ addrs total →
                  argument c = root (st (argument_at c))))
  ∧ (status = OK → ∀ c, c ∈ calls → merge_call_status c = OK)
  ∧ (status ≠ OK →
     ∃ before c, calls = before ++ [c]
                 ∧ merge_call_status c = status
                 ∧ ∀ c', c' ∈ before → merge_call_status c' = OK).
Proof.
  induction partial as [|l partial IH];
    intros total st status st' total' Hm calls.
  - simpl in Hm. injection Hm as <- <- <-. unfold calls. simpl.
    split_and!; [|by intros _ c Hc%elem_of_nil|done].
    intros c Hc. by apply elem_of_nil in Hc.
  - simpl in Hm. unfold calls. simpl.
    destruct (merge_in_filter_list st total l) as [[[s1 st1] tot1]|] eqn:Hl;
      [|done].
    simpl in Hm.
    destruct (merge_in_filter_list_any _ _ _ _ _ _ Hl) as (Hf1 & Hz1 & _).
    destruct (merge_in_filter_list_trace _ _ _ _ _ _ Hl)
      as (Hpos1 & Hok1 & Herr1).
    assert (∀ c, c ∈ merge_in_filter_list_calls st total l →
              ∃ j l0, total !! j = Some (Some (receiver_at c))
                      ∧ l0 ∈ l :: partial
                      ∧ l0 !! j = Some (Some (argument_at c))
                      ∧ (argument_at c ∉ addrs total →
                         argument c = root (st (argument_at c)))) as Hfirst.
    { intros c Hc. destruct (Hpos1 c Hc) as (j & Hj1 & Hj2 & Harg).
      exists j, l. split_and!; [done|apply list_elem_of_here|done|done]. }
    destruct s1 as [|e]; simpl in Hm |- *.
    + destruct (IH _ _ _ _ _ Hm) as (Hpos & Hok & Herr).
      rewrite (Hz1 eq_refl) in *.
      split_and!.
      * intros c Hc. apply elem_of_app in Hc as [Hc|Hc]; [by apply Hfirst|].
        destruct (Hpos c Hc) as (j & l0 & Hj1 & Hl0 & Hj2 & Harg).
        exists j, l0. split_and!.
        -- by apply lookup_zip_with_both in Hj1 as [? _].
        -- by apply list_elem_of_further.
        -- done.
        -- intros Hnot. rewrite Harg.
           ++ by rewrite Hf1.
           ++ intros Hin. by apply Hnot, (addrs_zip_with_both total l).
      * intros Hst c Hc. apply elem_of_app in Hc as [Hc|Hc].
        -- by apply Hok1.
        -- by apply Hok.
      * intros Hst. destruct (Herr Hst) as (before & c & -> & Hc & Hb).
        exists (merge_in_filter_list_calls st total l ++ before), c.
        split_and!; [by rewrite app_assoc|done|].
        intros c' Hc'. apply elem_of_app in Hc' as [Hc'|Hc'].
        -- by apply Hok1.
        -- by apply Hb.
    + injection Hm as <- <- <-. rewrite app_nil_r.
      split_and!; [done|done|]. intros Hst. by apply Herr1.
Qed.

Lemma merge_in_filters_trace st m status st' m' :
  merge_in_filters st m = Some (status, st', m') →
  length (_ht_row_counts m) = length (_partial_in_filters m) →
  let R := retained (_ht_row_counts m) (_partial_in_filters m) in
  let calls := merge_in_filters_calls st m in
  (∀ c, c ∈ calls →
        ∃ j l, default [] (head R) !! j = Some (Some (receiver_at c))
               ∧ l ∈ tail R
               ∧ l !! j = Some (Some (argument_at c))
               ∧ (argument_at c ∉ addrs (default [] (head R)) →
                  argument c = root (st (argument_at c))))
  ∧ (status = OK → ∀ c, c ∈ calls → merge_call_status c = OK)
  ∧ (status ≠ OK →
     ∃ before c, calls = before ++ [c]
                 ∧ merge_call_status c = status
                 ∧ ∀ c', c' ∈ before → merge_call_status c' = OK).
Proof.
  intros Hm Hlen R calls. unfold merge_in_filters in Hm.
  unfold calls, merge_in_filters_calls.
  destruct (squeeze_start _ _ Hlen) as (s & Hs & Hl & Hspec).
  rewrite Hs in Hm |- *. simpl in Hm.
  destruct (can_merge_in_filters s && (num_rows s <=? 1024) && (0 <=? k s))
    eqn:Hcan; simpl in Hm.
  - destruct (poisoned _ _); [by rewrite Hspec in Hcan|].
    destruct Hspec as (_ & _ & Hk & Htake). fold R in Hk, Htake.
    replace (Z.to_nat (k s + 1)) with (length R) in Hm |- * by lia.
    rewrite resize_le in Hm |- *.
    2,3: rewrite <- Htake at 1; rewrite length_take; lia.
    rewrite Htake in Hm |- *.
    destruct R as [|total partial] eqn:HR.
    { simpl in Hk. rewrite Hk in Hcan. simpl in Hcan.
      by rewrite andb_false_r in Hcan. }
    simpl in Hm |- *. rewrite drop_0 in Hm |- *.
    destruct (merge_partial_lists st total partial)
      as [[[s1 st1] tot1]|] eqn:Hp; [|done].
    simpl in Hm.
    destruct (merge_partial_lists_trace _ _ _ _ _ _ Hp) as (Hpos & Hok & Herr).
    destruct s1 as [|e]; simpl in Hm; injection Hm as <- <- <-.
    + by split_and!.
    + by split_and!.
  - destruct (filters s) as [|f fs] eqn:Hfs; [done|].
    simpl in Hm. injection Hm as <- <- <-.
    split_and!; [|by intros _ c Hc%elem_of_nil|done].
    intros c Hc. by apply elem_of_nil in Hc.
Qed.

(** *** merge_bloom_filters, descriptor by descriptor *)

Lemma fill_bloom_filters_lookup descs : ∀ params descs' j d,
  fill_bloom_filters descs params = Some descs' →
  descs !! j = Some d →
  descs' !! j = Some (from_option (fill_bloom_filter d) d (params !! j)).
Proof.
  induction descs as [|desc descs IH]; intros params descs' j d Hf Hd.
  - by rewrite lookup_nil in Hd.
  - destruct params as [|param params]; simpl in Hf.
    + injection Hf as <-. by rewrite lookup_nil.
    + destruct (fill_bloom_filters descs params) as [rest|] eqn:Hr; [|done].
      simpl in Hf. injection Hf as <-.
      destruct j as [|j]; simpl in *.
      * by injection Hd as ->.
      * by eapply IH.
Qed.

Lemma fill_all_bloom_filters_lookup all_params : ∀ descs descs' j d,
  fill_all_bloom_filters descs all_params = Some descs' →
  descs !! j = Some d →
  descs' !! j
  = Some (foldl fill_bloom_filter d (omap (λ params, params !! j) all_params)).
Proof.
  induction all_params as [|params all_params IH];
    intros descs descs' j d Hf Hd; simpl in Hf.
  - injection Hf as <-. done.
  - destruct (fill_bloom_filters descs params) as [descs1|] eqn:H1; [|done].
    simpl in Hf.
    pose proof (fill_bloom_filters_lookup _ _ _ _ _ H1 Hd) as Hd1.
    rewrite (IH _ _ _ _ Hf Hd1). simpl.
    by destruct (params !! j).
Qed.




Lemma merge_bloom_filters_lookup m status m' :
  merge_bloom_filters m = Some (status, m') →
  _partial_bloom_filter_build_params m ≠ [] →
  status = OK
  ∧ m' = with_descriptors (_bloom_filter_descriptors m') m
  ∧ ∀ j d, _bloom_filter_descriptors m !! j = Some d →
      _bloom_filter_descriptors m' !! j
      = Some (foldl fill_bloom_filter
                (init_bloom_filter (_limit m)
                   (total_row_count (_ht_row_counts m)) d)
                (omap (λ params, params !! j)
                      (_partial_bloom_filter_build_params m))).
Proof.
  intros Hm Hne. unfold merge_bloom_filters in Hm.
  destruct (_partial_bloom_filter_build_params m) as [|ps all] eqn:Hall;
    [done|].
  change (is_empty (ps :: all)) with false in Hm. cbv iota in Hm.
  destruct (fill_all_bloom_filters _ (ps :: all)) as [descs|] eqn:Hf; [|done].
  simpl in Hm. injection Hm as <- <-. split_and!; [done|done|].
  intros j d Hd. simpl.
  apply (fill_all_bloom_filters_lookup _ _ _ _ _ Hf).
  by rewrite list_lookup_fmap, Hd.
Qed.

(** *** The order of arrival *)

Lemma write_call_swap m c1 c2 :
  call_idx c1 ≠ call_idx c2 →
  write_call (write_call m c1) c2 = write_call (write_call m c2) c1.
Proof.
  intros Hne. unfold write_call, write_slot. simpl.
  f_equal; by apply list_insert_insert_ne.
Qed.

Lemma write_calls_permutation calls1 calls2 :
  calls1 ≡ₚ calls2 →
  NoDup (call_idx <$> calls1) →
  ∀ m, foldl write_call m calls1 = foldl write_call m calls2.
Proof.
  induction 1 as [|c l1 l2 Hp IH|c1 c2 l|l1 l2 l3 Hp1 IH1 Hp2 IH2];
    intros Hnd m.
  - done.
  - simpl. apply IH. rewrite fmap_cons in Hnd. by apply NoDup_cons in Hnd as [_ ?].
  - simpl. rewrite write_call_swap; [done|].
    rewrite !fmap_cons in Hnd. apply NoDup_cons in Hnd as [Hnot _].
    intros Heq. apply Hnot. rewrite Heq. apply list_elem_of_here.
  - rewrite IH1 by done. apply IH2. by rewrite <- Hp1.
Qed.

Lemma run_complete limit n pre c st :
  Z.of_nat n < two64 →
  call_idx <$> pre ++ [c] ≡ₚ seq 0 n →
  run (pre ++ [c]) st (create limit n)
  = ('(_, st1, m1) ←
       merge_in_filters st
         (with_descriptors (call_descriptors c)
            (foldl write_call (create limit n) (pre ++ [c])));
     '(_, m2) ← merge_bloom_filters m1;
     Some (replicate (length pre) (Value false) ++ [Value true], st1, m2)).
Proof.
  intros Hn Hperm.
  assert (length (pre ++ [c]) = n) as Hlen.
  { rewrite <- (length_fmap call_idx), Hperm. apply length_seq. }
  rewrite length_app in Hlen. simpl in Hlen.
  assert (∀ c', c' ∈ pre ++ [c] → (call_idx c' < n)%nat) as Hidx.
  { intros c' Hc. apply (list_elem_of_fmap_2 call_idx) in Hc.
    rewrite Hperm in Hc. apply elem_of_seq in Hc. lia. }
  destruct (create_fields limit n) as (_ & _ & Hl1 & Hl2 & Hl3).
  assert (_num_active_builders (create limit n) = Z.of_nat n) as Hactive.
  { simpl. unfold wrap64. apply Z.mod_small. lia. }
  rewrite run_app, (run_not_last pre st _ n); [|done|done|lia|].
  2:{ intros c' Hc'. rewrite Hl1, Hl2, Hl3.
      split_and!; apply Hidx, elem_of_app; by left. }
  simpl.
  destruct (write_calls_fields pre (create limit n))
    as (_ & _ & Hp1 & Hp2 & Hp3).
  assert (call_idx c < n)%nat as Hc
    by (apply Hidx, elem_of_app; right; apply list_elem_of_here).
  rewrite add_call_last.
  2-4: lia.
  2:{ rewrite (write_calls_active pre _ n) by (auto; lia). lia. }
  rewrite foldl_app. simpl.
  destruct (merge_in_filters st _) as [[[s1 st1] m1]|]; [|done].
  simpl. by destruct (merge_bloom_filters m1) as [[s2 m2]|].
Qed.

End merger_any.

Lemma merge_bloom_filters_length `{Collaborators} m status m' :
  Merger.merge_bloom_filters m = Some (status, m') →
  length (Merger._bloom_filter_descriptors m')
  = length (Merger._bloom_filter_descriptors m).
Proof.
  unfold Merger.merge_bloom_filters.
  destruct (Merger.is_empty _); [by intros [= <- <-]|].
  destruct (Merger.fill_all_bloom_filters _ _) as [descs|] eqn:Hf; [|done].
  simpl. intros [= <- <-]. simpl.
  apply fill_all_bloom_filters_filled, Forall2_length in Hf.
  by rewrite <- Hf, length_fmap.
Qed.

(** X11. [merge_in_filters] writes nothing but the in-filter vector of
    the merger and the total in-filters: the row counts, the bloom-filter
    parameters, the descriptors and the limit are as before, and the only
    expression contexts it may change are the in-filters of the first
    builder with a non-empty hash table. The filters of the other builders
    are read, never written, whatever [Predicate::merge] does to its
    receiver. *)
Theorem merge_in_filters_frame `{Collaborators}
    (st st' : store) (m m' : Merger.PartialRuntimeFilterMerger)
    (status : Status) :
  Merger.merge_in_filters st m = Some (status, st', m') →
  length (Merger._ht_row_counts m) = length (Merger._partial_in_filters m) →
  let R := retained (Merger._ht_row_counts m) (Merger._partial_in_filters m) in
  m' = Merger.with_in_filters (Merger._partial_in_filters m') m
  ∧ ∀ b, b ∉ addrs (default [] (head R)) → st' b = st b.
Proof.
  intros Hm Hlen R.
  destruct (merge_in_filters_any st m status st' m' Hm Hlen)
    as (Hfields & Hstore & _).
  split; [exact Hfields|]. intros b Hb. by apply Hstore.
Qed.

Lemma merge_in_filters_frame_witness :
  let result :=
    default (OK, S1_store, S1_merger)
            (Merger.merge_in_filters S1_store S1_merger) in
  let st' := result.1.2 in
  let m' := result.2 in
  let R := retained (Merger._ht_row_counts S1_merger)
                    (Merger._partial_in_filters S1_merger) in
  m' = Merger.with_in_filters (Merger._partial_in_filters m') S1_merger
  ∧ ∀ b, b ∉ addrs (default [] (head R)) → st' b = S1_store b.
Proof.
  apply (@merge_in_filters_frame (sample_collaborators OK)
           S1_store _ S1_merger _ OK).
  - reflexivity.
  - reflexivity.
Defined.

(** X12. Where the status of [merge_in_filters] comes from, and what an OK
    result holds. Every call of [Predicate::merge] that is made has as
    receiver an in-filter of the first builder with a non-empty hash table
    and as argument the in-filter at the same position of a later such
    builder (with its root as the builder supplied it, when it is not one
    of the receivers). An error is the status of the last call made, and
    all calls before it returned OK; the merge is OK exactly when every
    call that is made returns OK. On OK the total in-filter list (slot 0)
    holds no null pointer and is a sub-list, in order, of the in-filters of
    that first builder. *)
Theorem merge_in_filters_status `{Collaborators}
    (st st' : store) (m m' : Merger.PartialRuntimeFilterMerger)
    (status : Status) :
  Merger.merge_in_filters st m = Some (status, st', m') →
  length (Merger._ht_row_counts m) = length (Merger._partial_in_filters m) →
  let R := retained (Merger._ht_row_counts m) (Merger._partial_in_filters m) in
  let calls := merge_in_filters_calls st m in
  (∀ c, c ∈ calls →
        ∃ j l, default [] (head R) !! j = Some (Some (receiver_at c))
               ∧ l ∈ tail R
               ∧ l !! j = Some (Some (argument_at c))
               ∧ (argument_at c ∉ addrs (default [] (head R)) →
                  argument c = root (st (argument_at c))))
  ∧ (status ≠ OK →
     ∃ before c, calls = before ++ [c]
                 ∧ merge_call_status c = status
                 ∧ ∀ c', c' ∈ before → merge_call_status c' = OK)
  ∧ (status = OK ↔ ∀ c, c ∈ calls → merge_call_status c = OK)
  ∧ (status = OK →
     ∃ total, Merger.get_total_in_filters m' = Some total
              ∧ (None ∉ total)
              ∧ total `sublist_of` default [] (head R)).
Proof.
  intros Hm Hlen R calls.
  destruct (merge_in_filters_any st m status st' m' Hm Hlen)
    as (_ & _ & _ & Hshape).
  destruct (merge_in_filters_trace st m status st' m' Hm Hlen)
    as (Hpos & Hok & Herr).
  split_and!; [done|done| |done].
  split; [done|]. intros Hall.
  destruct status as [|e]; [done|].
  destruct Herr as (before & c & Hcalls & Hc & _); [done|].
  rewrite Hall in Hc; [done|].
  unfold calls. rewrite Hcalls. apply elem_of_app. right.
  apply list_elem_of_here.
Qed.

Lemma merge_in_filters_status_witness :
  let failing := sample_collaborators (NotOK 7) in
  let m := S1_failing_merger in
  let result :=
    default (OK, S1_store, m) (Merger.merge_in_filters S1_store m) in
  let status := result.1.1 in
  let m' := result.2 in
  let R := retained (Merger._ht_row_counts m) (Merger._partial_in_filters m) in
  let calls := @merge_in_filters_calls failing S1_store m in
  (∀ c, c ∈ calls →
        ∃ j l, default [] (head R) !! j = Some (Some (receiver_at c))
               ∧ l ∈ tail R
               ∧ l !! j = Some (Some (argument_at c))
               ∧ (argument_at c ∉ addrs (default [] (head R)) →
                  argument c = root (S1_store (argument_at c))))
  ∧ (status ≠ OK →
     ∃ before c, calls = before ++ [c]
                 ∧ @merge_call_status failing c = status
                 ∧ ∀ c', c' ∈ before → @merge_call_status failing c' = OK)
  ∧ (status = OK ↔ ∀ c, c ∈ calls → @merge_call_status failing c = OK)
  ∧ (status = OK →
     ∃ total, Merger.get_total_in_filters m' = Some total
              ∧ (None ∉ total)
              ∧ total `sublist_of` default [] (head R)).
Proof.
  apply (@merge_in_filters_status (sample_collaborators (NotOK 7))
           S1_store
           (default (OK, S1_store, S1_failing_merger)
              (Merger.merge_in_filters S1_store S1_failing_merger)).1.2
           S1_failing_merger).
  - reflexivity.
  - reflexivity.
Defined.

Section descriptor_heap_facts.
Context `{Collaborators}.
Import Merger.

Lemma init_bloom_filter_twice limit row_count d :
  init_bloom_filter limit row_count (init_bloom_filter limit row_count d)
  = init_bloom_filter limit row_count d.
Proof.
  destruct d as [p c r ty jm f]. unfold init_bloom_filter. simpl.
  destruct c; simpl; [|done].
  destruct (negb r && (limit <? row_count)) eqn:Hskip; simpl.
  { by rewrite Hskip. }
  destruct (create_runtime_bloom_filter ty) as [filter|] eqn:Hnew; simpl.
  - by rewrite Hskip, Hnew.
  - by rewrite Hskip, Hnew.
Qed.

Lemma init_bloom_filters_at limit row_count descs : ∀ ds ds',
  DescriptorHeap.init_bloom_filters limit row_count descs ds = Some ds' →
  ∀ a, ds' a = if decide (Some a ∈ descs)
               then init_bloom_filter limit row_count (ds a) else ds a.
Proof.
  induction descs as [|desc descs IH]; intros ds ds' Hi a; simpl in Hi.
  - injection Hi as <-. rewrite decide_False; [done|]. apply not_elem_of_nil.
  - destruct desc as [b|]; [|done]. simpl in Hi.
    rewrite (IH _ _ Hi a). unfold DescriptorHeap.descriptors_set.
    destruct (decide (a = b)) as [->|Hne].
    + rewrite (decide_True (P := Some b ∈ Some b :: descs))
        by apply list_elem_of_here.
      destruct (decide (Some b ∈ descs)); [|done].
      apply init_bloom_filter_twice.
    + destruct (decide (Some a ∈ descs)) as [Hin|Hnot].
      * by rewrite decide_True by (by apply list_elem_of_further).
      * rewrite decide_False; [done|].
        intros Hin. apply elem_of_cons in Hin as [[= ->]|Hin]; done.
Qed.

Lemma fill_bloom_filters_at descs : ∀ params ds ds',
  DescriptorHeap.fill_bloom_filters descs params ds = Some ds' →
  ∀ a, ds' a = foldl fill_bloom_filter (ds a) (aimed_at descs a params).
Proof.
  induction descs as [|desc descs IH]; intros params ds ds' Hf a.
  - destruct params; [|done]. simpl in Hf. by injection Hf as <-.
  - destruct params as [|param params]; simpl in Hf.
    { by injection Hf as <-. }
    destruct desc as [b|]; [|done]. simpl in Hf.
    rewrite (IH _ _ _ Hf a). simpl. unfold DescriptorHeap.descriptors_set.
    destruct (decide (a = b)) as [->|Hne].
    + by rewrite decide_True.
    + rewrite decide_False; [done|]. by intros [= ->].
Qed.

Lemma fill_all_bloom_filters_at descs all_params : ∀ ds ds',
  DescriptorHeap.fill_all_bloom_filters descs all_params ds = Some ds' →
  ∀ a, ds' a
       = foldl fill_bloom_filter (ds a)
           (mjoin (aimed_at descs a <$> all_params)).
Proof.
  induction all_params as [|params all_params IH]; simpl; intros ds ds' Hf a.
  - by injection Hf as <-.
  - destruct (DescriptorHeap.fill_bloom_filters descs params ds)
      as [ds1|] eqn:H1; [|done].
    simpl in Hf. rewrite (IH _ _ Hf a), foldl_app.
    by rewrite (fill_bloom_filters_at _ _ _ _ H1 a).
Qed.


Lemma aimed_at_absent descs a : ∀ params,
  Some a ∉ descs → aimed_at descs a params = [].
Proof.
  induction descs as [|desc descs IH]; intros params Hnot; [done|].
  destruct params as [|p params]; [done|]. simpl.
  apply not_elem_of_cons in Hnot as [Hne Hnot].
  rewrite decide_False by done. by apply IH.
Qed.


Lemma aimed_at_position descs a : ∀ j params,
  NoDup descs → descs !! j = Some (Some a) →
  aimed_at descs a params = option_list (params !! j).
Proof.
  induction descs as [|desc descs IH]; intros j params Hnd Hj; [done|].
  apply NoDup_cons in Hnd as [Hnot Hnd].
  destruct params as [|p params]; [done|].
  destruct j as [|j]; simpl in *.
  - injection Hj as ->. rewrite decide_True by done.
    by rewrite aimed_at_absent.
  - rewrite decide_False; [by apply IH|].
    intros ->. apply Hnot. by eapply list_elem_of_lookup_2.
Qed.

Lemma join_option_list {A} (ls : list (list A)) j :
  mjoin ((λ l, option_list (l !! j)) <$> ls) = omap (λ l, l !! j) ls.
Proof.
  induction ls as [|l ls IH]; [done|]. simpl.
  destruct (l !! j); simpl; [f_equal|]; exact IH.
Qed.

Lemma fill_bloom_filters_fits descs : ∀ params ds ds',
  DescriptorHeap.fill_bloom_filters descs params ds = Some ds' →
  (length params ≤ length descs)%nat.
Proof.
  induction descs as [|desc descs IH]; intros params ds ds' Hf.
  - destruct params; [done|done].
  - destruct params as [|param params]; simpl; [lia|].
    simpl in Hf. destruct desc as [b|]; [|done]. simpl in Hf.
    apply IH in Hf. lia.
Qed.

Lemma fill_all_bloom_filters_fits descs all_params : ∀ ds ds',
  DescriptorHeap.fill_all_bloom_filters descs all_params ds = Some ds' →
  ∀ params, params ∈ all_params → (length params ≤ length descs)%nat.
Proof.
  induction all_params as [|ps all_params IH]; simpl;
    intros ds ds' Hf params Hin; [by apply elem_of_nil in Hin|].
  destruct (DescriptorHeap.fill_bloom_filters descs ps ds)
    as [ds1|] eqn:H1; [|done].
  simpl in Hf. apply elem_of_cons in Hin as [->|Hin].
  - by eapply fill_bloom_filters_fits.
  - by eapply IH.
Qed.

(** Each descriptor after the two loops: initialised when the list names
    it, then filled with the parameters aimed at it, builder after
    builder. *)
Lemma merge_bloom_filters_at m descs ds status ds' :
  DescriptorHeap.merge_bloom_filters m descs ds = Some (status, ds') →
  _partial_bloom_filter_build_params m ≠ [] →
  status = OK
  ∧ ∀ a, ds' a
         = foldl fill_bloom_filter
             (if decide (Some a ∈ descs)
              then init_bloom_filter (_limit m)
                     (total_row_count (_ht_row_counts m)) (ds a)
              else ds a)
             (mjoin (aimed_at descs a
                       <$> _partial_bloom_filter_build_params m)).
Proof.
  intros Hm Hne. unfold DescriptorHeap.merge_bloom_filters in Hm.
  destruct (_partial_bloom_filter_build_params m) as [|ps all] eqn:Hall;
    [done|].
  change (is_empty (ps :: all)) with false in Hm. cbv iota in Hm.
  apply bind_Some in Hm as (ds1 & Hi & Hm).
  apply bind_Some in Hm as (ds2 & Hf & Hm).
  injection Hm as <- <-. split; [done|]. intros a.
  rewrite (fill_all_bloom_filters_at _ _ _ _ Hf a).
  by rewrite (init_bloom_filters_at _ _ _ _ _ Hi a).
Qed.

End descriptor_heap_facts.





(** X18. On distinct descriptors the two readings of
    [merge_bloom_filters] agree. When the list points to distinct
    descriptors, the descriptors read through the pointers after the call
    are, position by position, the descriptors that [Merger] computes
    from the descriptors read before the call, and [Merger] has defined
    behaviour whenever the call on the heap has. *)
Theorem merge_bloom_filters_distinct `{Collaborators}
    (m : Merger.PartialRuntimeFilterMerger) (addresses : list addr)
    (ds ds' : DescriptorHeap.descriptors) (status : Status) :
  DescriptorHeap.merge_bloom_filters m (Some <$> addresses) ds
  = Some (status, ds') →
  NoDup addresses →
  Merger.merge_bloom_filters (Merger.with_descriptors (ds <$> addresses) m)
  = Some (status, Merger.with_descriptors (ds' <$> addresses) m).
Proof.
  intros Hm Hnd.
  destruct (Merger._partial_bloom_filter_build_params m) as [|ps all] eqn:Hall.
  { unfold DescriptorHeap.merge_bloom_filters in Hm.
    unfold Merger.merge_bloom_filters. simpl. rewrite Hall in Hm |- *.
    simpl in Hm |- *. by injection Hm as <- <-. }
  assert (Merger._partial_bloom_filter_build_params m ≠ []) as Hne
    by (by rewrite Hall).
  assert (NoDup (Some <$> addresses : list ptr)) as Hnd'.
  { apply NoDup_fmap; [|done]. by intros ?? [= ->]. }
  destruct (merge_bloom_filters_at m _ ds status ds' Hm Hne) as (-> & Hat).
  set (values := Merger.with_descriptors (ds <$> addresses) m).
  destruct (merge_bloom_filters_defined values) as (descs' & Hvalues).
  { unfold DescriptorHeap.merge_bloom_filters in Hm.
    rewrite Hall in Hm. change (Merger.is_empty (ps :: all)) with false in Hm.
    cbv iota in Hm.
    apply bind_Some in Hm as (ds1 & _ & Hm).
    apply bind_Some in Hm as (ds2 & Hfill & _).
    intros params Hparams. simpl in Hparams |- *. rewrite Hall in Hparams.
    pose proof (fill_all_bloom_filters_fits _ _ _ _ Hfill params Hparams)
      as Hfit.
    rewrite length_fmap in Hfit. rewrite length_fmap. exact Hfit. }
  rewrite Hvalues. do 2 f_equal.
  change (Merger.with_descriptors descs' values)
    with (Merger.with_descriptors descs' m).
  f_equal.
  pose proof (merge_bloom_filters_length values OK _ Hvalues) as Hlen.
  simpl in Hlen. rewrite length_fmap in Hlen.
  assert (values_ne : Merger._partial_bloom_filter_build_params values ≠ [])
    by done.
  destruct (merge_bloom_filters_lookup values OK _ Hvalues values_ne)
    as (_ & _ & Hlookup).
  simpl in Hlookup.
  apply list_eq. intros j. rewrite list_lookup_fmap.
  destruct (addresses !! j) as [a|] eqn:Ha; simpl.
  - rewrite (Hlookup j (ds a)) by (by rewrite list_lookup_fmap, Ha).
    f_equal. rewrite Hat.
    assert ((Some <$> addresses) !! j = Some (Some a)) as Hj
      by (by rewrite list_lookup_fmap, Ha).
    rewrite decide_True by (by eapply list_elem_of_lookup_2).
    f_equal. rewrite <- join_option_list. f_equal.
    apply list_fmap_ext. intros _ params _.
    symmetry. by apply aimed_at_position.
  - apply lookup_ge_None. apply lookup_ge_None in Ha. lia.
Qed.

Lemma merge_bloom_filters_distinct_witness :
  let m := fragile_merger in
  let addresses := [0%nat; 1%nat] in
  let ds := fragile_heap in
  let ds' :=
    (default (OK, ds)
       (DescriptorHeap.merge_bloom_filters m (Some <$> addresses) ds)).2 in
  Merger.merge_bloom_filters (Merger.with_descriptors (ds <$> addresses) m)
  = Some (OK, Merger.with_descriptors (ds' <$> addresses) m).
Proof.
  apply (@merge_bloom_filters_distinct fragile_collaborators
           fragile_merger [0%nat; 1%nat] fragile_heap).
  - reflexivity.
  - apply NoDup_cons. split.
    + intros Hin. apply list_elem_of_singleton in Hin. discriminate.
    + apply NoDup_singleton.
Defined.

(** X15. The outcome of the rendezvous does not depend on the order in
    which the builders arrive. For [n] builders (below 2^64) that call
    [add_partial_filters] once each with the same descriptors, any two
    orders of the calls give the same results (false for every call but the
    last, true for the last), the same merged filters and the same
    store. *)
Theorem add_partial_filters_arrival_order `{Collaborators}
    (limit : Z) (n : nat) (calls1 calls2 : list Merger.call) (st : store) :
  Z.of_nat n < 2 ^ 64 →
  Merger.call_idx <$> calls1 ≡ₚ seq 0 n →
  calls1 ≡ₚ calls2 →
  (∀ c c', c ∈ calls1 → c' ∈ calls1 →
           Merger.call_descriptors c = Merger.call_descriptors c') →
  Merger.run calls1 st (Merger.create limit n)
  = Merger.run calls2 st (Merger.create limit n).
Proof.
  intros Hn Hperm Hsame Hdescs.
  assert (Merger.call_idx <$> calls2 ≡ₚ seq 0 n) as Hperm2
    by (by rewrite <- Hsame).
  assert (NoDup (Merger.call_idx <$> calls1)) as Hnodup
    by (rewrite Hperm; apply NoDup_seq).
  destruct (decide (calls1 = [])) as [->|Hne1].
  { apply Permutation_nil_l in Hsame. by subst. }
  assert (calls2 ≠ []) as Hne2.
  { intros ->. by apply Permutation_nil_r in Hsame. }
  destruct (exists_last Hne1) as (pre1 & c1 & ->).
  destruct (exists_last Hne2) as (pre2 & c2 & ->).
  rewrite !run_complete by done.
  rewrite <- (write_calls_permutation _ _ Hsame Hnodup).
  assert (Merger.call_descriptors c2 = Merger.call_descriptors c1) as ->.
  { apply Hdescs.
    - rewrite Hsame. apply elem_of_app. right. apply list_elem_of_here.
    - apply elem_of_app. right. apply list_elem_of_here. }
  assert (length pre1 = length pre2) as ->; [|done].
  apply Permutation_length in Hsame. rewrite !length_app in Hsame.
  simpl in Hsame. lia.
Qed.

Lemma add_partial_filters_arrival_order_witness :
  Merger.run (S1_calls OK) S1_store (Merger.create 1024 3)
  = Merger.run (reverse (S1_calls OK)) S1_store (Merger.create 1024 3).
Proof.
  apply (@add_partial_filters_arrival_order (sample_collaborators OK)
           1024 3 (S1_calls OK) (reverse (S1_calls OK)) S1_store).
  - lia.
  - simpl. rewrite (perm_swap 0%nat 2%nat). apply perm_skip, perm_swap.
  - symmetry. apply reverse_Permutation.
  - intros c c' Hc Hc'.
    assert (∀ x, x ∈ S1_calls OK →
                 Merger.call_descriptors x = sample_descriptors OK) as Hall.
    { intros x Hx. unfold S1_calls in Hx.
      repeat (apply elem_of_cons in Hx as [->|Hx]; [reflexivity|]).
      by apply elem_of_nil in Hx. }
    by rewrite (Hall c Hc), (Hall c' Hc').
Defined.

(** X16. The failed node channels form a set: after [mark_as_failed] a
    node is reported by [is_failed_channel], a node that was not marked is
    reported as before, marking a node twice is the same as marking it
    once, and the order of two marks does not matter. Before any mark no
    node is reported. *)
Theorem mark_as_failed_is_failed_channel
    (node_id other : Z) (s : TabletSink.OlapTableSink) :
  TabletSink.is_failed_channel other (TabletSink.mark_as_failed node_id s)
  = bool_decide (other = node_id) || TabletSink.is_failed_channel other s
  ∧ TabletSink.mark_as_failed node_id (TabletSink.mark_as_failed node_id s)
    = TabletSink.mark_as_failed node_id s
  ∧ TabletSink.mark_as_failed node_id (TabletSink.mark_as_failed other s)
    = TabletSink.mark_as_failed other (TabletSink.mark_as_failed node_id s)
  ∧ TabletSink.is_failed_channel other TabletSink.initial = false.
Proof.
  unfold TabletSink.is_failed_channel, TabletSink.mark_as_failed. simpl.
  split_and!.
  - destruct (decide (other = node_id)) as [->|Hne].
    + rewrite (bool_decide_eq_true_2 (node_id = node_id)) by done. simpl.
      apply bool_decide_eq_true_2, elem_of_union_l. by apply elem_of_singleton.
    + rewrite (bool_decide_eq_false_2 (other = node_id)) by done. simpl.
      apply bool_decide_ext. rewrite elem_of_union, elem_of_singleton.
      split; [by intros [?|?]|by right].
  - f_equal. by rewrite (assoc_L (∪)), (idemp_L (∪)).
  - f_equal. by rewrite !(assoc_L (∪)), (comm_L (∪) {[node_id]}).
  - apply bool_decide_eq_false_2, not_elem_of_empty.
Qed.

(** X17. A negative replica count, as [_num_repicas] has before the sink
    is initialised (-1): converted to [size_t] it is a huge threshold, so
    quorum ONE tolerates every set of failed channels; with quorum
    MAJORITY the counts -1 and -2 give the threshold 0 (the division
    truncates towards zero) and the answer is always true, also with no
    failed channel, while a count below -2 tolerates every set. *)
Theorem has_intolerable_failure_negative_replicas
    (n : Z) (failed : gset Z) :
  - 2 ^ 31 ≤ n < 0 →
  Z.of_nat (size failed) < 2 ^ 63 →
  TabletSink.has_intolerable_failure
    (TabletSink.mkSink n TabletSink.ONE failed) = Some false
  ∧ TabletSink.has_intolerable_failure
      (TabletSink.mkSink n TabletSink.MAJORITY failed)
    = Some (bool_decide (- 2 ≤ n)).
Proof.
  intros Hn Hsize.
  unfold TabletSink.has_intolerable_failure, TabletSink.int_add. simpl.
  rewrite decide_True by lia. simpl.
  pose proof (Z.quot_rem' (n + 1) 2) as Hqr.
  pose proof (Z.rem_bound_pos_neg (n + 1) 2) as Hr.
  unfold wrap64, two64.
  change (2 ^ 64) with 18446744073709551616.
  change (2 ^ 63) with 9223372036854775808 in Hsize.
  change (2 ^ 31) with 2147483648 in Hn.
  split; f_equal.
  - apply Z.leb_gt.
    rewrite <- (Z_mod_plus_full n 1 18446744073709551616).
    rewrite Z.mod_small by lia. lia.
  - destruct (decide (- 2 ≤ n)) as [Hsmall|Hbig].
    + rewrite bool_decide_eq_true_2 by done.
      assert ((n + 1) ÷ 2 = 0) as -> by (simpl in Hr; lia).
      apply Z.leb_le. rewrite Z.mod_0_l by lia. lia.
    + rewrite bool_decide_eq_false_2 by done.
      apply Z.leb_gt.
      rewrite <- (Z_mod_plus_full ((n + 1) ÷ 2) 1 18446744073709551616).
      simpl in Hr. rewrite Z.mod_small by lia. lia.
Qed.

Lemma has_intolerable_failure_negative_replicas_witness :
  TabletSink.has_intolerable_failure
    (TabletSink.mkSink (-1) TabletSink.ONE {[10; 11]}) = Some false
  ∧ TabletSink.has_intolerable_failure
      (TabletSink.mkSink (-1) TabletSink.MAJORITY {[10; 11]})
    = Some (bool_decide (- 2 ≤ -1)).
Proof.
  apply (has_intolerable_failure_negative_replicas (-1) {[10; 11]}).
  - lia.
  - vm_compute. reflexivity.
Defined.
